(** * Scadufax: reification and drift detection

    A shallow embedding of the Go sources of scadufax: the processor
    package (pkg/processor/processor.go), the sync marker of pkg/gitops,
    and the reify, check, list and update commands of cmd/scadu with
    [copyFile] of add.go, followed by the properties its specification
    states of them.

    The file system is a tree of directories and regular files; every
    function of the program that touches it takes the tree and returns the
    new one.  Paths are lists of components, so [filepath.Join a rel] is
    [a ++ rel] and [filepath.Rel a p] strips the prefix [a]. *)

From Stdlib Require Import String Ascii List ZArith Bool Lia Arith.
Import ListNotations.
Local Open Scope string_scope.
Local Open Scope list_scope.

Set Implicit Arguments.

(** ** Errors *)

Module Err.

(** The conditions of the operating system the program distinguishes
    ([os.IsNotExist] is true of [ENOENT] alone). *)
Inductive errno := ENOENT | ENOTDIR | EISDIR.

(** Go errors.  [Wrapf fmt args e] is [fmt.Errorf(fmt, args..., e)] with a
    final [%w]; [PathError] is [*fs.PathError], whose path is the path the
    failing call was given and is not kept here. *)
Inductive error :=
| PathError (op : string) (code : errno)
| TemplateParse (msg : string)
| TemplateExec (msg : string) (args : list string)
| Errorf (fmt : string) (args : list string)
| Wrapf (fmt : string) (args : list string) (cause : error).

Definition IsNotExist (e : error) : bool :=
  match e with
  | PathError _ ENOENT => true
  | _ => false
  end.

(** A value or an error: Go's [(T, error)] result pair. *)
Inductive result (A : Type) :=
| Ok (a : A)
| Fail (e : error).
Arguments Ok {A} a.
Arguments Fail {A} e.

Definition bind {A B} (r : result A) (k : A -> result B) : result B :=
  match r with
  | Ok a => k a
  | Fail e => Fail e
  end.

End Err.
Import Err.

Notation "x <- r ;; k" := (bind r (fun x => k))
  (at level 61, r at next level, right associativity).

(** ** Paths *)

Definition path := list string.

Definition paths := list path.

Definition Join (a rel : path) : path := a ++ rel.

(** [filepath.Dir]: all but the last component. *)
Definition Dir' (p : path) : path := removelast p.

(** [filepath.Base]: the last component. *)
Definition Base (p : path) : string := last p "".

(** Components joined by the separator: the string Go holds. *)
Fixpoint pathString (p : path) : string :=
  match p with
  | [] => ""
  | [x] => x
  | x :: rest => x ++ "/" ++ pathString rest
  end.

(** [filepath.Rel base target] for a [target] under [base]. *)
Fixpoint Rel (base target : path) : result path :=
  match base, target with
  | [], _ => Ok target
  | b :: base', t :: target' =>
      if String.eqb b t then Rel base' target'
      else Fail (Errorf "Rel: can't make %s relative to %s" [pathString target; pathString base])
  | _ :: _, [] => Fail (Errorf "Rel: can't make %s relative to %s" [pathString target; pathString base])
  end.

(** ** The file system *)

Module FS.

(** A regular file with its bytes and permission bits, or a directory with
    its entries in the order [os.ReadDir] returns them (by name). *)
Inductive node :=
| File (content : string) (mode : Z)
| Dir (entries : dirents)
with dirents :=
| dnil
| dcons (name : string) (n : node) (rest : dirents).

Scheme node_mut := Induction for node Sort Prop
  with dirents_mut := Induction for dirents Sort Prop.
Combined Scheme node_dirents_ind from node_mut, dirents_mut.

Fixpoint find (x : string) (es : dirents) : option node :=
  match es with
  | dnil => None
  | dcons y n rest => if String.eqb x y then Some n else find x rest
  end.

(** Replace the entry named [x], or add it at its place in name order. *)
Fixpoint replace (x : string) (n : node) (es : dirents) : dirents :=
  match es with
  | dnil => dnil
  | dcons y m rest =>
      if String.eqb x y then dcons y n rest else dcons y m (replace x n rest)
  end.

Fixpoint insert (x : string) (n : node) (es : dirents) : dirents :=
  match es with
  | dnil => dcons x n dnil
  | dcons y m rest =>
      if String.ltb x y then dcons x n es else dcons y m (insert x n rest)
  end.

Definition set (x : string) (n : node) (es : dirents) : dirents :=
  match find x es with
  | Some _ => replace x n es
  | None => insert x n es
  end.

(** Permission constants, written in octal in the source. *)
Definition mode0644 : Z := 6 * 64 + 4 * 8 + 4.
Definition mode0666 : Z := 6 * 64 + 6 * 8 + 6.
Definition ModeDir : Z := 2 ^ 31.

(** [FileInfo.Mode()] and [FileInfo.IsDir()]. *)
Definition Mode (info : node) : Z :=
  match info with
  | File _ m => m
  | Dir _ => ModeDir
  end.

Definition IsDirNode (info : node) : bool :=
  match info with
  | File _ _ => false
  | Dir _ => true
  end.

(** [os.Stat]. *)
Fixpoint Stat (fs : node) (p : path) : result node :=
  match p with
  | [] => Ok fs
  | x :: p' =>
      match fs with
      | File _ _ => Fail (PathError "stat" ENOTDIR)
      | Dir es =>
          match find x es with
          | Some n => Stat n p'
          | None => Fail (PathError "stat" ENOENT)
          end
      end
  end.

(** [os.ReadFile]. *)
Definition ReadFile (fs : node) (p : path) : result string :=
  match Stat fs p with
  | Ok (File c _) => Ok c
  | Ok (Dir _) => Fail (PathError "read" EISDIR)
  | Fail (PathError _ code) => Fail (PathError "open" code)
  | Fail e => Fail e
  end.

(** Open with [O_CREATE|O_TRUNC] and write [data]: a new file gets [perm]
    (no bit of it is masked), an existing one keeps its mode. *)
Fixpoint createTrunc (fs : node) (p : path) (data : string) (perm : Z) : result node :=
  match p with
  | [] =>
      match fs with
      | File _ m => Ok (File data m)
      | Dir _ => Fail (PathError "open" EISDIR)
      end
  | x :: p' =>
      match fs with
      | File _ _ => Fail (PathError "open" ENOTDIR)
      | Dir es =>
          match find x es with
          | Some n =>
              n' <- createTrunc n p' data perm ;;
              Ok (Dir (set x n' es))
          | None =>
              match p' with
              | [] => Ok (Dir (set x (File data perm) es))
              | _ :: _ => Fail (PathError "open" ENOENT)
              end
          end
      end
  end.

(** [os.WriteFile]. *)
Definition WriteFile (fs : node) (p : path) (data : string) (perm : Z) : result node :=
  createTrunc fs p data perm.

(** [os.Create]: [O_RDWR|O_CREATE|O_TRUNC] with mode 0666. *)
Definition Create (fs : node) (p : path) : result node :=
  createTrunc fs p "" mode0666.

(** [os.MkdirAll]; directories carry no mode in this model. *)
Fixpoint MkdirAll (fs : node) (p : path) : result node :=
  match p with
  | [] =>
      match fs with
      | Dir _ => Ok fs
      | File _ _ => Fail (PathError "mkdir" ENOTDIR)
      end
  | x :: p' =>
      match fs with
      | File _ _ => Fail (PathError "mkdir" ENOTDIR)
      | Dir es =>
          match find x es with
          | Some n =>
              n' <- MkdirAll n p' ;;
              Ok (Dir (set x n' es))
          | None =>
              n' <- MkdirAll (Dir dnil) p' ;;
              Ok (Dir (set x n' es))
          end
      end
  end.

(** [os.Chmod] on a regular file. *)
Fixpoint Chmod (fs : node) (p : path) (m : Z) : result node :=
  match p with
  | [] =>
      match fs with
      | File c _ => Ok (File c m)
      | Dir _ => Ok fs
      end
  | x :: p' =>
      match fs with
      | File _ _ => Fail (PathError "chmod" ENOTDIR)
      | Dir es =>
          match find x es with
          | Some n =>
              n' <- Chmod n p' m ;;
              Ok (Dir (set x n' es))
          | None => Fail (PathError "chmod" ENOENT)
          end
      end
  end.

(** [os.RemoveAll], its error dropped: the entry at [p] goes with all it
    holds; nothing goes when there is no entry at [p].  The root itself is
    never removed. *)
Fixpoint remove (x : string) (es : dirents) : dirents :=
  match es with
  | dnil => dnil
  | dcons y n rest =>
      if String.eqb x y then remove x rest else dcons y n (remove x rest)
  end.

Fixpoint RemoveAll (fs : node) (p : path) : node :=
  match p with
  | [] => fs
  | x :: p' =>
      match fs with
      | File _ _ => fs
      | Dir es =>
          match p' with
          | [] => Dir (remove x es)
          | _ :: _ =>
              match find x es with
              | Some n => Dir (set x (RemoveAll n p') es)
              | None => fs
              end
          end
      end
  end.

(** The tree with the content and the mode of every file erased: what a
    walk depends on. *)
Fixpoint shape (n : node) : node :=
  match n with
  | File _ _ => File EmptyString 0
  | Dir es => Dir (shapeIn es)
  end
with shapeIn (es : dirents) : dirents :=
  match es with
  | dnil => dnil
  | dcons x n rest => dcons x (shape n) (shapeIn rest)
  end.

End FS.
Import FS.

(** ** filepath.WalkDir

    The callback gets the path, the entry and the error of reading it, and
    answers [nil], [filepath.SkipDir] or an error.  The walk follows the
    tree found at the root when it starts: no callback of this program adds
    or removes an entry under the root it walks. *)

Module Walk.

Record DirEntry := { IsDir : bool; Name : string }.

Inductive ctl :=
| Continue
| SkipDir
| Stop (e : error).

Section WalkDir.
Variable S : Type.
Variable fn : path -> DirEntry -> option error -> S -> S * ctl.

Fixpoint walkDir (p : path) (name : string) (n : node) (s : S) : S * ctl :=
  match n with
  | File _ _ => fn p {| IsDir := false; Name := name |} None s
  | Dir es =>
      match fn p {| IsDir := true; Name := name |} None s with
      | (s1, Continue) => walkEntries p es s1
      | (s1, SkipDir) => (s1, Continue)
      | (s1, Stop e) => (s1, Stop e)
      end
  end
with walkEntries (p : path) (es : dirents) (s : S) : S * ctl :=
  match es with
  | dnil => (s, Continue)
  | dcons x c rest =>
      match walkDir (p ++ [x]) x c s with
      | (s1, Continue) => walkEntries p rest s1
      | (s1, SkipDir) => (s1, Continue)
      | (s1, Stop e) => (s1, Stop e)
      end
  end.

Definition WalkDir (fs : node) (root : path) (s : S) : S * option error :=
  match Stat fs root with
  | Fail err =>
      match fn root {| IsDir := false; Name := Base root |} (Some err) s with
      | (s1, Stop e) => (s1, Some e)
      | (s1, _) => (s1, None)
      end
  | Ok n =>
      match walkDir root (Base root) n s with
      | (s1, Stop e) => (s1, Some e)
      | (s1, _) => (s1, None)
      end
  end.
End WalkDir.

(** The regular files a walk reaches when its callback skips every
    directory named [.git], in the order it reaches them. *)
Fixpoint walkFiles (p : path) (name : string) (n : node) : list path :=
  match n with
  | File _ _ => [p]
  | Dir es => if String.eqb name ".git" then [] else walkFilesIn p es
  end
with walkFilesIn (p : path) (es : dirents) : list path :=
  match es with
  | dnil => []
  | dcons x c rest => walkFiles (p ++ [x]) x c ++ walkFilesIn p rest
  end.

Definition filesUnder (fs : node) (root : path) : list path :=
  match Stat fs root with
  | Ok n => walkFiles root (Base root) n
  | Fail _ => []
  end.

(** Go's [error] of a callback as the walk reads it. *)
Definition asCtl (S : Type) (r : S * option error) : S * ctl :=
  match r with
  | (s, None) => (s, Continue)
  | (s, Some e) => (s, Stop e)
  end.

(** Running a per-file step over a list of paths until the first error. *)
Fixpoint forEachFile (S : Type) (f : path -> S -> S * option error)
    (ps : list path) (s : S) : S * option error :=
  match ps with
  | [] => (s, None)
  | p :: rest =>
      match f p s with
      | (s1, None) => forEachFile f rest s1
      | (s1, Some e) => (s1, Some e)
      end
  end.

(** A tree in which no directory holds two entries of one name. *)
Fixpoint hasName (x : string) (es : dirents) : bool :=
  match es with
  | dnil => false
  | dcons y _ rest => String.eqb x y || hasName x rest
  end.

Fixpoint distinctNames (n : node) : bool :=
  match n with
  | File _ _ => true
  | Dir es => distinctIn es
  end
with distinctIn (es : dirents) : bool :=
  match es with
  | dnil => true
  | dcons x c rest => negb (hasName x rest) && distinctNames c && distinctIn rest
  end.

(** A relative path that does not pass through a directory named [.git],
    below a root of the name [name]. *)
(** The same files by their paths relative to the root. *)
Definition relsUnder (fs : node) (root : path) : list path :=
  match Stat fs root with
  | Ok n => walkFiles [] (Base root) n
  | Fail _ => []
  end.

Definition outsideGit (name : string) (rel : path) : Prop :=
  ~ In ".git" (removelast rel) /\ (rel <> [] -> name <> ".git").

End Walk.
Import Walk.

(** ** text/template, the part the program uses

    The engine is Go's library, not code of this repository.  The model
    covers the placeholder language of the specification: literal text, a
    dotted lookup into the context [{{ .a.b }}] and a string literal piped
    into the secret function [{{ "KEY" | secret }}], with any spacing inside
    the delimiters; the literal is double-quoted, with the one-letter
    backslash escapes and [\xHH].  Input outside that language (trim
    markers, comments, control structures, other functions, raw or
    otherwise escaped literals) is answered with a parse error here; the
    theorems that depend on a parse succeeding are about templates inside
    the language.  Characters are bytes; a byte above 127 is taken as part
    of a printable UTF-8 rune. *)

Module Template.

Definition dquote : ascii := "034"%char.
Definition backslash : ascii := "092"%char.
Definition newline : ascii := "010"%char.

(** A Go string literal of the plain text [s]. *)
Definition quoted (s : string) : string := String dquote (s ++ String dquote "").

Inductive Node :=
| TextNode (text : string)
| FieldNode (ident : list string)
| SecretNode (key : string).

(** Context values: a scalar, held as the text [fmt] prints for it, or a
    map with its entries in key order (the order [fmt] prints them in). *)
Inductive value :=
| Scalar (printed : string)
| Map (entries : fields)
with fields :=
| fnil
| fcons (key : string) (v : value) (rest : fields).

Scheme value_mut := Induction for value Sort Prop
  with fields_mut := Induction for fields Sort Prop.

Fixpoint getKey (k : string) (m : fields) : option value :=
  match m with
  | fnil => None
  | fcons k' v rest => if String.eqb k k' then Some v else getKey k rest
  end.

(** *** Lexing *)

Definition isSpace (c : ascii) : bool :=
  match nat_of_ascii c with
  | 32 | 9 | 13 | 10 => true
  | _ => false
  end.

Definition between (lo hi n : nat) : bool := Nat.leb lo n && Nat.leb n hi.

Definition isDigit (c : ascii) : bool := between 48 57 (nat_of_ascii c).

Definition isAlphaNumeric (c : ascii) : bool :=
  let n := nat_of_ascii c in
  Nat.eqb n 95 || between 65 90 n || between 97 122 n || isDigit c.

Fixpoint skipSpace (s : string) : string :=
  match s with
  | String c r => if isSpace c then skipSpace r else s
  | EmptyString => s
  end.

(** [lexText]: the text before the first left delimiter, and what follows
    the delimiter when there is one. *)
Fixpoint lexText (s : string) : string * option string :=
  match s with
  | EmptyString => (EmptyString, None)
  | String c r =>
      if Ascii.eqb c "{" then
        match r with
        | String d r' =>
            if Ascii.eqb d "{" then (EmptyString, Some r')
            else let (t, k) := lexText r in (String c t, k)
        | EmptyString => (String c EmptyString, None)
        end
      else let (t, k) := lexText r in (String c t, k)
  end.

Definition unescape (c : ascii) : option ascii :=
  match c with
  | "a"%char => Some "007"%char
  | "b"%char => Some "008"%char
  | "f"%char => Some "012"%char
  | "n"%char => Some "010"%char
  | "r"%char => Some "013"%char
  | "t"%char => Some "009"%char
  | "v"%char => Some "011"%char
  | _ => if Ascii.eqb c backslash then Some backslash
         else if Ascii.eqb c dquote then Some dquote
         else None
  end.

Definition hexVal (c : ascii) : option nat :=
  let n := nat_of_ascii c in
  if isDigit c then Some (n - 48)
  else if between 97 102 n then Some (n - 87)
  else if between 65 70 n then Some (n - 55)
  else None.

Definition consTo (c : ascii) (r : result (string * string)) : result (string * string) :=
  match r with
  | Ok (k, rest) => Ok (String c k, rest)
  | Fail e => Fail e
  end.

(** [lexQuote] and [strconv.Unquote] in one pass over what follows the
    opening quote: the string the literal denotes, and what follows the
    closing quote. *)
Fixpoint lexQuote (s : string) : result (string * string) :=
  match s with
  | EmptyString => Fail (TemplateParse "unterminated quoted string")
  | String c r =>
      if Ascii.eqb c dquote then Ok (EmptyString, r)
      else if Ascii.eqb c newline then Fail (TemplateParse "unterminated quoted string")
      else if Ascii.eqb c backslash then
        match r with
        | EmptyString => Fail (TemplateParse "unterminated quoted string")
        | String e r1 =>
            match unescape e with
            | Some d => consTo d (lexQuote r1)
            | None =>
                if Ascii.eqb e "x" then
                  match r1 with
                  | String h1 (String h2 r2) =>
                      match hexVal h1, hexVal h2 with
                      | Some a, Some b => consTo (ascii_of_nat (16 * a + b)) (lexQuote r2)
                      | _, _ => Fail (TemplateParse "invalid syntax")
                      end
                  | _ => Fail (TemplateParse "invalid syntax")
                  end
                else Fail (TemplateParse "invalid syntax")
            end
        end
      else consTo c (lexQuote r)
  end.

(** The names of a field chain, read after its first dot: [cur] is the name
    being read and [acc] the names before it. *)
Fixpoint lexFields (s : string) (cur : string) (acc : list string) : result (list string * string) :=
  match s with
  | EmptyString => Fail (TemplateParse "unclosed action")
  | String c r =>
      if isAlphaNumeric c then
        match cur with
        | EmptyString =>
            if isDigit c then Fail (TemplateParse "bad number syntax")
            else lexFields r (String c EmptyString) acc
        | _ => lexFields r (cur ++ String c EmptyString) acc
        end
      else
        match cur with
        | EmptyString => Fail (TemplateParse "unexpected . in operand")
        | _ =>
            if Ascii.eqb c "." then lexFields r EmptyString (acc ++ [cur])
            else Ok (acc ++ [cur], s)
        end
  end.

(** [s] with the prefix [pre] taken off. *)
Fixpoint stripPrefix (pre s : string) : option string :=
  match pre, s with
  | EmptyString, _ => Some s
  | String a pre', String b s' => if Ascii.eqb a b then stripPrefix pre' s' else None
  | String _ _, EmptyString => None
  end.

Definition expect (what s : string) (msg : string) : result string :=
  match stripPrefix what s with
  | Some r => Ok r
  | None => Fail (TemplateParse msg)
  end.

(** One action, read after its left delimiter. *)
Definition parseAction (s : string) : result (Node * string) :=
  match skipSpace s with
  | String c r =>
      if Ascii.eqb c "." then
        fr <- lexFields r EmptyString [] ;;
        rest <- expect "}}" (skipSpace (snd fr)) "unexpected token in command" ;;
        Ok (FieldNode (fst fr), rest)
      else if Ascii.eqb c dquote then
        kr <- lexQuote r ;;
        r1 <- expect "|" (skipSpace (snd kr)) "unexpected token in command" ;;
        r2 <- expect "secret" (skipSpace r1) "function not defined" ;;
        rest <- expect "}}" (skipSpace r2) "unexpected token in command" ;;
        Ok (SecretNode (fst kr), rest)
      else Fail (TemplateParse "unexpected token in command")
  | EmptyString => Fail (TemplateParse "unclosed action")
  end.

Definition textNode (t : string) : list Node :=
  match t with
  | EmptyString => []
  | _ => [TextNode t]
  end.

(** The parse loop; every action takes at least one character, so
    [String.length s] rounds are enough. *)
Fixpoint parseLoop (fuel : nat) (s : string) : result (list Node) :=
  match lexText s with
  | (t, None) => Ok (textNode t)
  | (t, Some r) =>
      match fuel with
      | O => Fail (TemplateParse "unclosed action")
      | S fuel' =>
          ar <- parseAction r ;;
          nodes <- parseLoop fuel' (snd ar) ;;
          Ok (textNode t ++ fst ar :: nodes)
      end
  end.

Definition Parse (text : string) : result (list Node) :=
  parseLoop (String.length text) text.

(** *** Execution, with the option [missingkey=error] *)

(** What [fmt.Fprint] writes for a value. *)
Fixpoint printValue (v : value) : string :=
  match v with
  | Scalar s => s
  | Map m => "map[" ++ printFields m ++ "]"
  end
with printFields (m : fields) : string :=
  match m with
  | fnil => ""
  | fcons k v fnil => k ++ ":" ++ printValue v
  | fcons k v rest => k ++ ":" ++ printValue v ++ " " ++ printFields rest
  end.

(** [evalField] along a chain: a name that is not a key of the map it is
    looked up in is an error. *)
Fixpoint evalFieldChain (receiver : value) (ident : list string) : result value :=
  match ident with
  | [] => Ok receiver
  | name :: rest =>
      match receiver with
      | Map m =>
          match getKey name m with
          | Some v => evalFieldChain v rest
          | None => Fail (TemplateExec "map has no entry for key %q" [name])
          end
      | Scalar _ => Fail (TemplateExec "can't evaluate field %s in type string" [name])
      end
  end.

Definition evalNode (funcs : string -> result string) (data : fields) (n : Node) : result string :=
  match n with
  | TextNode t => Ok t
  | FieldNode ident =>
      v <- evalFieldChain (Map data) ident ;;
      Ok (printValue v)
  | SecretNode key =>
      match funcs key with
      | Ok v => Ok v
      | Fail e => Fail (Wrapf "error calling secret: %w" [] e)
      end
  end.

(** [Execute]: the nodes in order; the first error ends it and the output
    so far is dropped by the caller. *)
Fixpoint Execute (funcs : string -> result string) (tmpl : list Node) (data : fields) : result string :=
  match tmpl with
  | [] => Ok EmptyString
  | n :: rest =>
      out <- evalNode funcs data n ;;
      more <- Execute funcs rest data ;;
      Ok (out ++ more)%string
  end.

(** The value a dotted key denotes in a context, when it denotes one: the
    plain reading of a key path, apart from the engine. *)
Fixpoint lookupKey (m : fields) (ident : list string) : option value :=
  match ident with
  | [] => Some (Map m)
  | k :: rest =>
      match getKey k m with
      | None => None
      | Some v =>
          match rest with
          | [] => Some v
          | _ :: _ =>
              match v with
              | Map m' => lookupKey m' rest
              | Scalar _ => None
              end
          end
      end
  end.

(** *** strconv.Quote, the verb [%q] *)

Definition hexDigit (n : nat) : ascii :=
  if Nat.ltb n 10 then ascii_of_nat (48 + n) else ascii_of_nat (87 + n).

Definition quoteChar (c : ascii) : string :=
  let n := nat_of_ascii c in
  if Ascii.eqb c dquote then String backslash (String dquote EmptyString)
  else if Ascii.eqb c backslash then String backslash (String backslash EmptyString)
  else if between 32 126 n || Nat.leb 128 n then String c EmptyString
  else
    match n with
    | 7 => String backslash "a"
    | 8 => String backslash "b"
    | 12 => String backslash "f"
    | 10 => String backslash "n"
    | 13 => String backslash "r"
    | 9 => String backslash "t"
    | 11 => String backslash "v"
    | _ => String backslash (String "x" (String (hexDigit (n / 16)) (String (hexDigit (n mod 16)) EmptyString)))
    end.

Fixpoint quoteBody (s : string) : string :=
  match s with
  | EmptyString => EmptyString
  | String c r => quoteChar c ++ quoteBody r
  end.

Definition Quote (s : string) : string :=
  String dquote (quoteBody s ++ String dquote EmptyString).

(** *** Files in the form the pass-through resolver writes *)

(** The text [fmt.Sprintf("{{ %q | secret }}", key)] gives. *)
Definition placeholder (key : string) : string :=
  "{{ " ++ Quote key ++ " | secret }}".

(** Text that can stand before a placeholder: it holds no left delimiter
    and does not end with a brace. *)
Fixpoint plain (t : string) : bool :=
  match t with
  | EmptyString => true
  | String c r =>
      if Ascii.eqb c "{" then
        match r with
        | EmptyString => false
        | String d _ => negb (Ascii.eqb d "{") && plain r
        end
      else plain r
  end.

(** Text that holds no left delimiter. *)
Fixpoint noDelim (t : string) : bool :=
  match t with
  | EmptyString => true
  | String c r =>
      if Ascii.eqb c "{" then
        match r with
        | EmptyString => true
        | String d _ => negb (Ascii.eqb d "{") && noDelim r
        end
      else noDelim r
  end.

(** A file made of text and placeholders: each pair is a text and the key
    of the placeholder after it, [tail] is the text after the last one. *)
Fixpoint fileOf (segs : list (string * string)) (tail : string) : string :=
  match segs with
  | [] => tail
  | (t, k) :: rest => t ++ placeholder k ++ fileOf rest tail
  end.

Fixpoint nodesOf (segs : list (string * string)) (tail : string) : list Node :=
  match segs with
  | [] => textNode tail
  | (t, k) :: rest => textNode t ++ SecretNode k :: nodesOf rest tail
  end.

Definition isField (n : Node) : bool :=
  match n with
  | FieldNode _ => true
  | _ => false
  end.

(** A template without a lookup into the context. *)
Definition noField (tmpl : list Node) : bool := forallb (fun n => negb (isField n)) tmpl.

End Template.

(** ** godotenv.Read

    The store is a file of [KEY=value] lines.  The library is not code of
    this repository; the model reads one pair per line, split at the first
    [=], skips blank lines and lines that start with [#], and lets a later
    line replace an earlier one with the same key. *)

Module Godotenv.

Definition envMap := list (string * string).

Fixpoint get (key : string) (m : envMap) : option string :=
  match m with
  | [] => None
  | (k, v) :: rest => if String.eqb key k then Some v else get key rest
  end.

Fixpoint put (key val : string) (m : envMap) : envMap :=
  match m with
  | [] => [(key, val)]
  | (k, v) :: rest => if String.eqb key k then (k, val) :: rest else (k, v) :: put key val rest
  end.

(** The lines of [s]; [cur] is the line being read. *)
Fixpoint splitLines (s : string) (cur : string) : list string :=
  match s with
  | EmptyString => [cur]
  | String c r =>
      if Ascii.eqb c Template.newline then cur :: splitLines r EmptyString
      else splitLines r (cur ++ String c EmptyString)
  end.

(** [line] cut at its first [=]. *)
Fixpoint cutEq (line : string) (key : string) : option (string * string) :=
  match line with
  | EmptyString => None
  | String c r =>
      if Ascii.eqb c "=" then Some (key, r)
      else cutEq r (key ++ String c EmptyString)
  end.

Fixpoint parseLines (lines : list string) (m : envMap) : result envMap :=
  match lines with
  | [] => Ok m
  | line :: rest =>
      match line with
      | EmptyString => parseLines rest m
      | String "#" _ => parseLines rest m
      | _ =>
          match cutEq line EmptyString with
          | Some (k, v) => parseLines rest (put k v m)
          | None => Fail (Errorf "unexpected character in variable name near %q" [line])
          end
      end
  end.

Definition Parse (content : string) : result envMap :=
  parseLines (splitLines content EmptyString) [].

Definition Read (fs : node) (filename : path) : result envMap :=
  content <- ReadFile fs filename ;;
  Parse content.

End Godotenv.

(** ** pkg/processor *)

Module Processor.

Import Template.

(** [func(string) (string, error)]. *)
Definition SecretFn := string -> result string.

(** A step on the file system that answers with Go's [error]. *)
Definition fsStep := node -> node * option error.

Definition renderAndWrite (name destPath : path) (content : string) (data : fields)
    (secretFn : SecretFn) (dryRun : bool) : fsStep := fun fs =>
  match Template.Parse content with
  | Fail err => (fs, Some (Wrapf "failed to parse template %s: %w" [pathString name] err))
  | Ok tmpl =>
      if dryRun then
        match Template.Execute secretFn tmpl data with
        | Fail err => (fs, Some (Wrapf "failed to execute template %s: %w" [pathString name] err))
        | Ok _ => (fs, None)
        end
      else
        match Template.Execute secretFn tmpl data with
        | Fail err => (fs, Some (Wrapf "failed to execute template %s: %w" [pathString name] err))
        | Ok buf =>
            let perm :=
              match Stat fs destPath with
              | Ok info => Mode info
              | Fail _ => mode0644
              end in
            match WriteFile fs destPath buf perm with
            | Ok fs' => (fs', None)
            | Fail err => (fs, Some err)
            end
        end
  end.

Definition processFile (path : path) (data : fields) (secretFn : SecretFn) (dryRun : bool) : fsStep :=
  fun fs =>
  match ReadFile fs path with
  | Fail err => (fs, Some err)
  | Ok content => renderAndWrite path path content data secretFn dryRun fs
  end.

Definition walkAndProcess (root : path) (data : fields) (secretFn : SecretFn) (dryRun : bool) : fsStep :=
  fun fs =>
  WalkDir (fun path d err fs =>
    match err with
    | Some e => (fs, Stop e)
    | None =>
        if IsDir d then
          if String.eqb (Name d) ".git" then (fs, SkipDir) else (fs, Continue)
        else
          asCtl (processFile path data secretFn dryRun fs)
    end) fs root fs.

Definition Reify (root : path) (data : fields) (secretFn : SecretFn) (dryRun : bool) : fsStep :=
  fun fs =>
  match walkAndProcess root data secretFn true fs with
  | (fs1, Some err) => (fs1, Some (Wrapf "dry-run failed: %w" [] err))
  | (fs1, None) =>
      if dryRun then (fs1, None)
      else walkAndProcess root data secretFn false fs1
  end.

Definition ReifyFile (sourcePath destPath : path) (data : fields) (secretFn : SecretFn) : fsStep :=
  fun fs =>
  match ReadFile fs sourcePath with
  | Fail err => (fs, Some err)
  | Ok content =>
      match MkdirAll fs (Dir' destPath) with
      | Fail err => (fs, Some (Wrapf "failed to create dest dir: %w" [] err))
      | Ok fs1 => renderAndWrite sourcePath destPath content data secretFn false fs1
      end
  end.

Definition GetSecretFn (fs : node) (envPath : path) (required : bool) : result SecretFn :=
  envMap <-
    (if required then
       match Godotenv.Read fs envPath with
       | Fail err => Fail (Wrapf "failed to read .env at %s: %w" [pathString envPath] err)
       | Ok m => Ok m
       end
     else
       match Godotenv.Read fs envPath with
       | Fail err =>
           if negb (IsNotExist err)
           then Fail (Wrapf "failed to read .env at %s: %w" [pathString envPath] err)
           else Ok []
       | Ok m => Ok m
       end) ;;
  Ok (fun key =>
        match Godotenv.get key envMap with
        | None =>
            if required
            then Fail (Errorf "secret key %q not found in .env at %s" [key; pathString envPath])
            else Fail (Errorf "secret key %q not found in .env at %s" [key; pathString envPath])
        | Some val => Ok val
        end).

End Processor.

(** ** strings, the functions the commands call (on bytes) *)

Module Strings.

Definition isWhite (c : ascii) : bool :=
  match nat_of_ascii c with
  | 32 | 9 | 10 | 11 | 12 | 13 => true
  | _ => false
  end.

Fixpoint trimLeft (s : string) : string :=
  match s with
  | String c r => if isWhite c then trimLeft r else s
  | EmptyString => s
  end.

Fixpoint trimRight (s : string) : string :=
  match s with
  | EmptyString => EmptyString
  | String c r =>
      match trimRight r with
      | EmptyString => if isWhite c then EmptyString else String c EmptyString
      | r' => String c r'
      end
  end.

Definition TrimSpace (s : string) : string := trimRight (trimLeft s).

Definition lowerChar (c : ascii) : ascii :=
  let n := nat_of_ascii c in
  if Nat.leb 65 n && Nat.leb n 90 then ascii_of_nat (n + 32) else c.

Fixpoint ToLower (s : string) : string :=
  match s with
  | EmptyString => EmptyString
  | String c r => String (lowerChar c) (ToLower r)
  end.

Definition HasPrefix (s pre : string) : bool :=
  match Template.stripPrefix pre s with
  | Some _ => true
  | None => false
  end.

Definition TrimPrefix (s pre : string) : string :=
  match Template.stripPrefix pre s with
  | Some r => r
  | None => s
  end.

(** Text of bytes below 128, where bytes and runes are the same. *)
Fixpoint isASCII (s : string) : bool :=
  match s with
  | EmptyString => true
  | String c r => Nat.ltb (nat_of_ascii c) 128 && isASCII r
  end.

Fixpoint noneWhite (s : string) : bool :=
  match s with
  | EmptyString => true
  | String c r => negb (isWhite c) && noneWhite r
  end.

(** [strings.Split s "\n"]. *)
Definition SplitLines (s : string) : list string := Godotenv.splitLines s EmptyString.

(** [strings.Split s sep] for a separator of one byte; [cur] is the part
    being read. *)
Fixpoint splitOn (sep : ascii) (s : string) (cur : string) : list string :=
  match s with
  | EmptyString => [cur]
  | String c r =>
      if Ascii.eqb c sep then cur :: splitOn sep r EmptyString
      else splitOn sep r (cur ++ String c EmptyString)
  end.

Definition Split (s : string) (sep : ascii) : list string := splitOn sep s EmptyString.

(** Text without the byte [sep]. *)
Fixpoint lacks (sep : ascii) (s : string) : bool :=
  match s with
  | EmptyString => true
  | String c r => negb (Ascii.eqb c sep) && lacks sep r
  end.

End Strings.

(** ** pkg/gitops: the sync marker *)

Module Gitops.

(** [GetHeadID], after the commit message is read: the lines from the last
    to the first, the first one that carries the prefix. *)
Fixpoint scanID (linesFromEnd : list string) : string :=
  match linesFromEnd with
  | [] => EmptyString
  | l :: rest =>
      let line := Strings.TrimSpace l in
      if Strings.HasPrefix line "SCADUFAX_ID:"
      then Strings.TrimSpace (Strings.TrimPrefix line "SCADUFAX_ID:")
      else scanID rest
  end.

Definition headIDOf (message : string) : string :=
  scanID (rev (Strings.SplitLines message)).

End Gitops.

(** ** cmd/scadu *)

Module Cmd.

Import Processor.

Inductive class := New | Modified | Deleted.

Inductive listStatus := MISSING | PRESENT | UNMANAGED.

(** What a command writes or does, in order: a formatted line, a line of a
    diff report (tag and relative path), a line of a listing, a pause. *)
Inductive event :=
| Printf (fmt : string) (args : list string)
| DiffLine (c : class) (rel : string)
| ListLine (st : listStatus) (p : path)
| Sleep (seconds : Z).

(** The secret function of a run without [--secret]:
    [fmt.Sprintf("{{ %q | secret }}", key)]. *)
Definition passThrough : SecretFn := fun key =>
  Ok ("{{ " ++ Template.Quote key ++ " | secret }}")%string.

(** A content without lookups into the context, a content that renders to
    itself without secrets, and a path that holds a file of some kind. *)
Definition secretOnly (c : string) : Prop :=
  exists tmpl, Template.Parse c = Ok tmpl /\ Template.noField tmpl = true.

Definition stable (data : Template.fields) (c : string) : Prop :=
  exists tmpl, Template.Parse c = Ok tmpl /\ Template.noField tmpl = true
               /\ Template.Execute passThrough tmpl data = Ok c.

Definition fileWith (P : string -> Prop) (fs : node) (p : path) : Prop :=
  exists c m, Stat fs p = Ok (File c m) /\ P c.

Definition notExist (fs : node) (p : path) : bool :=
  match Stat fs p with
  | Ok _ => false
  | Fail err => IsNotExist err
  end.

Definition areFilesDifferent (fs : node) (pathA pathB : path) : bool :=
  match ReadFile fs pathA with
  | Fail _ => true
  | Ok cA =>
      match ReadFile fs pathB with
      | Fail _ => true
      | Ok cB => negb (String.eqb cA cB)
      end
  end.

Definition copyFile (src dst : path) : fsStep := fun fs =>
  match MkdirAll fs (Dir' dst) with
  | Fail err => (fs, Some err)
  | Ok fs1 =>
      match Stat fs1 src with
      | Fail err => (fs1, Some err)
      | Ok _ =>
          match Create fs1 dst with
          | Fail err => (fs1, Some err)
          | Ok fs2 =>
              match ReadFile fs2 src with
              | Fail err => (fs2, Some err)
              | Ok data =>
                  match WriteFile fs2 dst data mode0666 with
                  | Fail err => (fs2, Some err)
                  | Ok fs3 =>
                      match Stat fs3 src with
                      | Ok info =>
                          match Chmod fs3 dst (Mode info) with
                          | Ok fs4 => (fs4, None)
                          | Fail _ => (fs3, None)
                          end
                      | Fail _ => (fs3, None)
                      end
                  end
              end
          end
      end
  end.

Section Ignore.

(** [filepath.Match], Go's library: the matcher is a parameter. *)
Variable Match : string -> string -> bool * option error.

Fixpoint isIgnored (relPath : string) (patterns : list string) : bool :=
  match patterns with
  | [] => false
  | p :: rest =>
      let (matched, _) := Match p relPath in
      if matched then true else isIgnored relPath rest
  end.

(** [compareDirs]: the report it prints, after [out]. *)
Definition compareDirs (fs : node) (sourceDir targetDir : path) (ignores : list string)
    (checkAll : bool) (out : list event) : list event * option error :=
  match
    WalkDir (fun path d err out =>
      match err with
      | Some e => (out, Stop e)
      | None =>
          if IsDir d then
            if String.eqb (Name d) ".git" then (out, SkipDir) else (out, Continue)
          else
            match Rel sourceDir path with
            | Fail e => (out, Stop e)
            | Ok rel =>
                if isIgnored (pathString rel) ignores then (out, Continue)
                else
                  let targetPath := Join targetDir rel in
                  if notExist fs targetPath
                  then (out ++ [DiffLine New (pathString rel)], Continue)
                  else if areFilesDifferent fs path targetPath
                  then (out ++ [DiffLine Modified (pathString rel)], Continue)
                  else (out, Continue)
            end
      end) fs sourceDir out
  with
  | (out1, Some err) => (out1, Some err)
  | (out1, None) =>
      if checkAll then
        WalkDir (fun path d err out =>
          match err with
          | Some e => (out, Stop e)
          | None =>
              if IsDir d then
                if String.eqb (Name d) ".git" then (out, SkipDir) else (out, Continue)
              else
                match Rel targetDir path with
                | Fail e => (out, Stop e)
                | Ok rel =>
                    if isIgnored (pathString rel) ignores then (out, Continue)
                    else
                      let sourcePath := Join sourceDir rel in
                      if notExist fs sourcePath
                      then (out ++ [DiffLine Deleted (pathString rel)], Continue)
                      else (out, Continue)
                end
          end) fs targetDir out1
      else (out1, None)
  end.

(** [getDiffs]: the lines it prints and the changes it returns. *)
Definition getDiffs (fs : node) (sourceDir targetDir : path) (ignores : list string)
    (out : list event) : (list event * paths) * option error :=
  WalkDir (fun path d err (s : list event * paths) =>
    match err with
    | Some e => (s, Stop e)
    | None =>
        if IsDir d then
          if String.eqb (Name d) ".git" then (s, SkipDir) else (s, Continue)
        else
          match Rel sourceDir path with
          | Fail e => (s, Stop e)
          | Ok rel =>
              if isIgnored (pathString rel) ignores then (s, Continue)
              else
                let targetPath := Join targetDir rel in
                let isNew := notExist fs targetPath in
                let isMod := negb isNew && areFilesDifferent fs path targetPath in
                if isNew
                then ((fst s ++ [DiffLine New (pathString rel)], snd s ++ [rel]), Continue)
                else if isMod
                then ((fst s ++ [DiffLine Modified (pathString rel)], snd s ++ [rel]), Continue)
                else (s, Continue)
          end
    end) fs sourceDir (out, []).

(** A line of a diff report that names no ignored path, a change that is
    not ignored, and a line of a listing that reports as unmanaged only a
    path under home whose relative part is not ignored. *)
Definition unignored (ignores : list string) (e : event) : Prop :=
  match e with
  | DiffLine _ rel => isIgnored rel ignores = false
  | _ => True
  end.

Definition unignoredChange (ignores : list string) (rel : path) : Prop :=
  isIgnored (pathString rel) ignores = false.

Definition unmanagedOk (ignores : list string) (homeDir : path) (e : event) : Prop :=
  match e with
  | ListLine UNMANAGED p =>
      exists rel, Rel homeDir p = Ok rel /\ isIgnored (pathString rel) ignores = false
  | _ => True
  end.

(** What the first walk of [compareDirs] (and the walk of [getDiffs])
    prints for the file at [rel] under the source, what the second walk
    prints for the file at [rel] under the target, and whether [getDiffs]
    counts the file at [rel] as a change. *)
Definition sourceReport (fs : node) (sourceDir targetDir : path) (ignores : list string)
    (rel : path) : list event :=
  if isIgnored (pathString rel) ignores then []
  else if notExist fs (Join targetDir rel) then [DiffLine New (pathString rel)]
  else if areFilesDifferent fs (Join sourceDir rel) (Join targetDir rel)
  then [DiffLine Modified (pathString rel)]
  else [].

Definition targetReport (fs : node) (sourceDir targetDir : path) (ignores : list string)
    (rel : path) : list event :=
  if isIgnored (pathString rel) ignores then []
  else if notExist fs (Join sourceDir rel) then [DiffLine Deleted (pathString rel)]
  else [].

Definition changed (fs : node) (sourceDir targetDir : path) (ignores : list string)
    (rel : path) : bool :=
  negb (isIgnored (pathString rel) ignores)
  && (notExist fs (Join targetDir rel)
      || areFilesDifferent fs (Join sourceDir rel) (Join targetDir rel)).

(** The lines of a listing: one for a tracked file, at most one for a file
    at home. *)
Definition trackedLine (fs : node) (homeDir : path) (rel : path) : event :=
  if notExist fs (Join homeDir rel)
  then ListLine MISSING (Join homeDir rel)
  else ListLine PRESENT (Join homeDir rel).

Definition unmanagedReport (fs : node) (localDir homeDir : path) (ignores : list string)
    (rel : path) : list event :=
  if isIgnored (pathString rel) ignores then []
  else if notExist fs (Join localDir rel) then [ListLine UNMANAGED (Join homeDir rel)]
  else [].

End Ignore.

(** The relative paths a diff report gives under one tag, in order. *)
Definition hasClass (c : class) (e : event) : bool :=
  match c, e with
  | New, DiffLine New _ => true
  | Modified, DiffLine Modified _ => true
  | Deleted, DiffLine Deleted _ => true
  | _, _ => false
  end.

Definition tagged (c : class) (out : list event) : list event := filter (hasClass c) out.

(** The configuration viper holds and what the host answers. *)
Record Config := {
  local_dir : option path;
  home_dir : option path;
  fork : string;
  root_ignore : list string;
  AllSettings : Template.fields
}.

Record Host := { UserHomeDir : path; Hostname : string }.

Definition localDirOf (cfg : Config) (host : Host) : path :=
  match local_dir cfg with
  | Some d => d
  | None => Join (UserHomeDir host) [".local"; "share"; "scadufax"]
  end.

Definition homeDirOf (cfg : Config) (host : Host) : path :=
  match home_dir cfg with
  | Some d => d
  | None => UserHomeDir host
  end.

Definition forkNameOf (cfg : Config) (host : Host) : string :=
  match fork cfg with
  | EmptyString => Hostname host
  | name => name
  end.

(** [reifyCmd]: the run of [scadu reify targetPath], with or without
    [--secret]. *)
Definition reifyCmd (cfg : Config) (targetPath : path) (useSecret : bool) : fsStep := fun fs =>
  match Stat fs targetPath with
  | Fail err => (fs, Some (Wrapf "invalid path: %w" [] err))
  | Ok info =>
      let data := AllSettings cfg in
      let chosen : result SecretFn :=
        if useSecret then
          let envDir := if IsDirNode info then targetPath else Dir' targetPath in
          let envPath := Join envDir [".env"] in
          GetSecretFn fs envPath true
        else
          Ok (fun key => Ok ("{{ " ++ Template.Quote key ++ " | secret }}")%string) in
      match chosen with
      | Fail err => (fs, Some err)
      | Ok secretFn => Reify targetPath data secretFn false fs
      end
  end.

(** A command step: it returns a value, or an error, or has not returned
    within the rounds it was given. *)
Inductive res (A : Type) :=
| Val (a : A)
| Err (e : error)
| Waiting.
Arguments Val {A} a.
Arguments Err {A} e.
Arguments Waiting {A}.

(** The relative paths on the lines of a diff report, in order. *)
Fixpoint diffRels (out : list event) : list string :=
  match out with
  | [] => []
  | DiffLine _ rel :: rest => rel :: diffRels rest
  | _ :: rest => diffRels rest
  end.

(** The names an error carries: the arguments of its messages. *)
Fixpoint namedIn (e : error) : list string :=
  match e with
  | PathError _ _ => []
  | TemplateParse _ => []
  | TemplateExec _ args => args
  | Errorf _ args => args
  | Wrapf _ args cause => args ++ namedIn cause
  end.

(** The pauses in an output. *)
Fixpoint countSleeps (out : list event) : nat :=
  match out with
  | [] => 0
  | Sleep _ :: rest => S (countSleeps rest)
  | _ :: rest => countSleeps rest
  end.

(** [GenerateCommitMessage], with the identifier it draws. *)
Definition GenerateCommitMessage (msg id : string) : string :=
  (msg ++ String Template.newline (String Template.newline ("SCADUFAX_ID: " ++ id)))%string.

(** The characters of [uuid.UUID.String]: lower-case hexadecimal digits
    and the hyphen. *)
Definition isUUIDChar (c : ascii) : bool :=
  let n := nat_of_ascii c in
  (Nat.leb 48 n && Nat.leb n 57) || (Nat.leb 97 n && Nat.leb n 102) || Nat.eqb n 45.

Fixpoint uuidChars (s : string) : bool :=
  match s with
  | EmptyString => true
  | String c r => isUUIDChar c && uuidChars r
  end.

(** [resolveEditor]; the environment and [exec.LookPath] are parameters. *)
Section Editor.

Variable Getenv : string -> string.
Variable LookPath : string -> result string.

Definition fromEnv (name : string) : option string :=
  let env := Getenv name in
  if negb (String.eqb env EmptyString) then
    match LookPath env with
    | Ok p => Some p
    | Fail _ => None
    end
  else None.

Fixpoint firstFound (names : list string) : option string :=
  match names with
  | [] => None
  | fb :: rest =>
      match LookPath fb with
      | Ok p => Some p
      | Fail _ => firstFound rest
      end
  end.

Definition resolveEditor : result string :=
  match fromEnv "EDITOR" with
  | Some p => Ok p
  | None =>
      match fromEnv "VISUAL" with
      | Some p => Ok p
      | None =>
          match firstFound ["nvim"; "vim"; "vi"] with
          | Some p => Ok p
          | None => Fail (Errorf "no valid editor found" [])
          end
      end
  end.

(** The names [resolveEditor] looks up, in the order it tries them. *)
Definition editorCandidates : list string :=
  (match Getenv "EDITOR" with EmptyString => [] | env => [env] end)
  ++ (match Getenv "VISUAL" with EmptyString => [] | env => [env] end)
  ++ ["nvim"; "vim"; "vi"].

End Editor.

(** [PerformEdit], the file operations of one round of its last loop: the
    template is rendered into the temporary directory, read back and
    written under home. *)
Definition installFile (localDir homeDir tempDir : path) (data : Template.fields)
    (secretFn : SecretFn) (rel : path) : fsStep := fun fs =>
  let repoPath := Join localDir rel in
  let tempPath := Join tempDir rel in
  let finalPath := Join homeDir rel in
  match ReifyFile repoPath tempPath data secretFn fs with
  | (fs1, Some err) =>
      (fs1, Some (Wrapf "reification failed for %s: %w" [pathString rel] err))
  | (fs1, None) =>
      match ReadFile fs1 tempPath with
      | Fail err => (fs1, Some err)
      | Ok content =>
          let mode :=
            match Stat fs1 repoPath with
            | Ok info => Mode info
            | Fail _ => mode0644
            end in
          match WriteFile fs1 finalPath content mode with
          | Fail err => (fs1, Some (Wrapf "failed to install file: %w" [] err))
          | Ok fs2 => (fs2, None)
          end
      end
  end.

(** [initCmd], before it touches the file system and git: the remote it
    clones from, the directories it will use and the record it encodes
    into [config.toml].  A flag that is not given is [None]. *)
Definition defaultRepo : string := "dotfiles".

Definition remoteURLOf (userRepo : string) : string :=
  let parts := Strings.Split userRepo "/" in
  let user := hd EmptyString parts in
  let repo :=
    match parts with
    | _ :: r :: _ => r
    | _ => defaultRepo
    end in
  ("https://github.com/" ++ user ++ "/" ++ repo ++ ".git")%string.

Record ScadufaxConfig := {
  ConfigDir : option path;
  LocalDir : option path;
  HomeDir : option path;
  Fork : string
}.

Record InitFlags := {
  flagConfigDir : option path;
  flagLocalDir : option path;
  flagHomeDir : option path;
  flagFork : string
}.

Record InitPlan := {
  targetConfigDir : path;
  targetLocalDir : path;
  targetHomeDir : path;
  written : ScadufaxConfig
}.

Definition samePath (a b : path) : bool :=
  if list_eq_dec string_dec a b then true else false.

(** The directory to use and the field to write for it: the field stays
    empty unless the flag names a directory other than the default. *)
Definition dirOr (flag : option path) (default : path) : path * option path :=
  match flag with
  | None => (default, None)
  | Some d => (d, if samePath d default then None else Some d)
  end.

Definition initPlan (flags : InitFlags) (host : Host) (userConfigDir : path) : InitPlan :=
  let defaultConfigDir := Join userConfigDir ["scadufax"] in
  let defaultLocalDir := Join (UserHomeDir host) [".local"; "share"; "scadufax"] in
  let forkName :=
    match flagFork flags with
    | EmptyString => Hostname host
    | f => f
    end in
  let config := dirOr (flagConfigDir flags) defaultConfigDir in
  let local := dirOr (flagLocalDir flags) defaultLocalDir in
  let home := dirOr (flagHomeDir flags) (UserHomeDir host) in
  {| targetConfigDir := fst config;
     targetLocalDir := fst local;
     targetHomeDir := fst home;
     written := {| ConfigDir := snd config; LocalDir := snd local;
                   HomeDir := snd home; Fork := forkName |} |}.

Section Commands.

Variable Match : string -> string -> bool * option error.

(** go-git: the repository is a state of its own next to the working
    tree.  [Checkout] of gitops and the calls of the library under [Push],
    [Pull] and [GetHeadID] are parameters ([WorktreePull] and [HeadMessage]
    stand for the calls after the repository is opened, with their own
    errors). *)
Variable Repo : Type.
Definition gitState : Type := Repo * node.
Variable Checkout : path -> string -> gitState -> gitState * option error.
Variable PlainOpen : path -> gitState -> option error.
Variable RepoPush : gitState -> gitState * option error.
Variable WorktreePull : gitState -> gitState * option error.
Variable HeadMessage : gitState -> result string.

Definition NoErrAlreadyUpToDate : error := Errorf "already up-to-date" [].

Definition isAlreadyUpToDate (e : error) : bool :=
  match e with
  | Errorf fmt [] => String.eqb fmt "already up-to-date"
  | _ => false
  end.

Definition Push (repoPath : path) (g : gitState) : gitState * option error :=
  match PlainOpen repoPath g with
  | Some err => (g, Some (Wrapf "failed to open repo: %w" [] err))
  | None =>
      match RepoPush g with
      | (g1, Some err) =>
          if isAlreadyUpToDate err then (g1, None)
          else (g1, Some (Wrapf "failed to push: %w" [] err))
      | (g1, None) => (g1, None)
      end
  end.

Definition Pull (repoPath : path) (g : gitState) : gitState * option error :=
  match PlainOpen repoPath g with
  | Some err => (g, Some (Wrapf "failed to open repo: %w" [] err))
  | None =>
      match WorktreePull g with
      | (g1, Some err) =>
          if isAlreadyUpToDate err then (g1, None)
          else (g1, Some (Wrapf "failed to pull: %w" [] err))
      | (g1, None) => (g1, None)
      end
  end.

Definition GetHeadID (repoPath : path) (g : gitState) : result string :=
  match PlainOpen repoPath g with
  | Some err => Fail (Wrapf "failed to open repo: %w" [] err)
  | None =>
      message <- HeadMessage g ;;
      Ok (Gitops.headIDOf message)
  end.

(** The repository and working tree after [k] pulls. *)
Fixpoint afterPulls (repoPath : path) (k : nat) (g : gitState) : gitState :=
  match k with
  | O => g
  | S k' => afterPulls repoPath k' (fst (Pull repoPath g))
  end.

(** The world a command runs in. *)
Record World := {
  repo : Repo;
  fs : node;
  stdin : list string;
  stdout : list event
}.

Definition git (w : World) : gitState := (repo w, fs w).

Definition withGit (g : gitState) (w : World) : World :=
  {| repo := fst g; fs := snd g; stdin := stdin w; stdout := stdout w |}.

Definition cmd (A : Type) : Type := World -> World * res A.

Definition ret {A} (a : A) : cmd A := fun w => (w, Val a).

Definition andThen {A B} (c : cmd A) (k : A -> cmd B) : cmd B := fun w =>
  match c w with
  | (w1, Val a) => k a w1
  | (w1, Err e) => (w1, Err e)
  | (w1, Waiting) => (w1, Waiting)
  end.

Definition say (e : event) : cmd unit := fun w =>
  ({| repo := repo w; fs := fs w; stdin := stdin w; stdout := stdout w ++ [e] |}, Val tt).

(** A step of [gitops] and a step on the files, run in the world: the
    caller gets the Go error back and decides what it means. *)
Definition gitOp (op : gitState -> gitState * option error) : cmd (option error) := fun w =>
  let (g, e) := op (git w) in (withGit g w, Val e).

Definition fsOp (f : fsStep) : cmd (option error) := fun w =>
  let (fs1, e) := f (fs w) in
  ({| repo := repo w; fs := fs1; stdin := stdin w; stdout := stdout w |}, Val e).

Definition fail {A} (e : error) : cmd A := fun w => (w, Err e).

(** [reader.ReadString] on standard input, its error dropped. *)
Definition readLine : cmd string := fun w =>
  match stdin w with
  | [] => (w, Val EmptyString)
  | l :: rest =>
      ({| repo := repo w; fs := fs w; stdin := rest; stdout := stdout w |}, Val l)
  end.

Notation "x <~ c ;; k" := (andThen c (fun x => k))
  (at level 61, c at next level, right associativity).
Notation "c ;;; k" := (andThen c (fun _ => k))
  (at level 61, right associativity).

Definition pullWithWarning (localDir : path) : cmd unit :=
  say (Printf "Pulling fork..." []) ;;;
  e <~ gitOp (Pull localDir) ;;
  match e with
  | Some _ => say (Printf "Pull warning: %v" [])
  | None => ret tt
  end.

(** The [for] loop of [updateCmd]; [rounds] bounds the times its body is
    entered. *)
Fixpoint waitLoop (localDir : path) (mainID : string) (rounds : nat) : cmd unit :=
  match rounds with
  | O => fun w => (w, Waiting)
  | S rounds' =>
      fun w =>
      match GetHeadID localDir (git w) with
      | Fail err => (w, Err (Wrapf "failed to get fork ID: %w" [] err))
      | Ok forkID =>
          if String.eqb forkID mainID then
            say (Printf "Fork synced with Main ID." []) w
          else
            (say (Printf "Fork ID (%s) != Main ID (%s). Retrying in 5s..." [forkID; mainID]) ;;;
             say (Sleep 5) ;;;
             pullWithWarning localDir ;;;
             waitLoop localDir mainID rounds') w
      end
  end.

Definition waitForFork (updateWait : bool) (localDir : path) (mainID : string) (rounds : nat) : cmd unit :=
  if updateWait && negb (String.eqb mainID EmptyString) then
    say (Printf "Waiting for fork to sync with main ID..." []) ;;;
    waitLoop localDir mainID rounds
  else ret tt.

(** The copy loop of [updateCmd]. *)
Fixpoint applyDiffs (localDir homeDir : path) (diffs : paths) : cmd unit :=
  match diffs with
  | [] => ret tt
  | rel :: rest =>
      let src := Join localDir rel in
      let dst := Join homeDir rel in
      say (Printf "Updating %s..." [pathString rel]) ;;;
      e <~ fsOp (copyFile src dst) ;;
      match e with
      | Some err => fail (Wrapf "failed to update %s: %w" [pathString rel] err)
      | None => applyDiffs localDir homeDir rest
      end
  end.

(** [if err := op; err != nil { return fmt.Errorf(fmt, err) }]. *)
Definition orFail (fmt : string) (c : cmd (option error)) : cmd unit :=
  e <~ c ;;
  match e with
  | Some err => fail (Wrapf fmt [] err)
  | None => ret tt
  end.

Definition readHeadID (localDir : path) (fmt : string) : cmd string := fun w =>
  match GetHeadID localDir (git w) with
  | Fail err => (w, Err (Wrapf fmt [] err))
  | Ok id => (w, Val id)
  end.

(** The call of [getDiffs] in [updateCmd]: the report goes to the output. *)
Definition diffForkHome (localDir homeDir : path) (ignorePatterns : list string) : cmd paths :=
  fun w =>
  match getDiffs Match (fs w) localDir homeDir ignorePatterns (stdout w) with
  | ((out, _), Some err) =>
      ({| repo := repo w; fs := fs w; stdin := stdin w; stdout := out |}, Err err)
  | ((out, diffs), None) =>
      ({| repo := repo w; fs := fs w; stdin := stdin w; stdout := out |}, Val diffs)
  end.

Definition updateCmd (cfg : Config) (host : Host) (updateWait : bool) (rounds : nat) : cmd unit :=
  let localDir := localDirOf cfg host in
  let homeDir := homeDirOf cfg host in
  let forkName := forkNameOf cfg host in
  let ignorePatterns := root_ignore cfg in
  say (Printf "Switching to main..." []) ;;;
  orFail "failed to checkout main: %w" (gitOp (Checkout localDir "main")) ;;;
  say (Printf "Pushing main to origin..." []) ;;;
  orFail "failed to push main: %w" (gitOp (Push localDir)) ;;;
  mainID <~ readHeadID localDir "failed to get main ID: %w" ;;
  say (Printf "Main SCADUFAX_ID: %s" [mainID]) ;;;
  say (Printf "Switching to fork '%s'..." [forkName]) ;;;
  orFail "failed to checkout fork: %w" (gitOp (Checkout localDir forkName)) ;;;
  pullWithWarning localDir ;;;
  waitForFork updateWait localDir mainID rounds ;;;
  diffs <~ diffForkHome localDir homeDir ignorePatterns ;;
  match diffs with
  | [] => say (Printf "No differences found. Home is up to date." [])
  | _ :: _ =>
      say (Printf "Update home directory with these changes? [y/N]: " []) ;;;
      resp <~ readLine ;;
      let resp := Strings.TrimSpace (Strings.ToLower resp) in
      if negb (String.eqb resp "y") && negb (String.eqb resp "yes") then
        say (Printf "Update aborted." [])
      else
        applyDiffs localDir homeDir diffs ;;;
        say (Printf "Update complete." [])
  end.

(** [listCmd]. *)
Definition listCmd (cfg : Config) (host : Host) (listAll : bool) : cmd unit :=
  let localDir := localDirOf cfg host in
  let homeDir := homeDirOf cfg host in
  andThen (gitOp (Checkout localDir "main")) (fun e =>
  match e with
  | Some err => fail (Wrapf "failed to checkout main: %w" [] err)
  | None =>
  let ignorePatterns := root_ignore cfg in
  fun w =>
  match
    WalkDir (fun path d err out =>
      match err with
      | Some e => (out, Stop e)
      | None =>
          if IsDir d then
            if String.eqb (Name d) ".git" then (out, SkipDir) else (out, Continue)
          else
            match Rel localDir path with
            | Fail e => (out, Stop e)
            | Ok rel =>
                let homePath := Join homeDir rel in
                if notExist (fs w) homePath
                then (out ++ [ListLine MISSING homePath], Continue)
                else (out ++ [ListLine PRESENT homePath], Continue)
            end
      end) (fs w) localDir (stdout w)
  with
  | (out, Some err) =>
      ({| repo := repo w; fs := fs w; stdin := stdin w; stdout := out |},
       Err (Wrapf "failed to list main files: %w" [] err))
  | (out, None) =>
      let w1 := {| repo := repo w; fs := fs w; stdin := stdin w; stdout := out |} in
      if listAll then
        match
          WalkDir (fun path d err out =>
            match err with
            | Some e => (out, Stop e)
            | None =>
                if IsDir d then
                  if String.eqb (Name d) ".git" then (out, SkipDir) else (out, Continue)
                else
                  match Rel homeDir path with
                  | Fail e => (out, Stop e)
                  | Ok rel =>
                      if isIgnored Match (pathString rel) ignorePatterns then (out, Continue)
                      else
                        let repoPath := Join localDir rel in
                        if notExist (fs w1) repoPath
                        then (out ++ [ListLine UNMANAGED path], Continue)
                        else (out, Continue)
                  end
            end) (fs w1) homeDir (stdout w1)
        with
        | (out2, Some err) =>
            ({| repo := repo w; fs := fs w; stdin := stdin w; stdout := out2 |},
             Err (Wrapf "failed to check unmanaged files: %w" [] err))
        | (out2, None) =>
            ({| repo := repo w; fs := fs w; stdin := stdin w; stdout := out2 |}, Val tt)
        end
      else (w1, Val tt)
  end
  end).

(** [os.MkdirTemp], Go's library: the directory it makes and the name it
    draws for it are a parameter. *)
Variable MkdirTemp : node -> result (path * node).

(** A call of [compareDirs] in a command: the report goes to the output. *)
Definition runCompare (sourceDir targetDir : path) (ignores : list string)
    (checkAll : bool) : cmd unit := fun w =>
  match compareDirs Match (fs w) sourceDir targetDir ignores checkAll (stdout w) with
  | (out, Some err) =>
      ({| repo := repo w; fs := fs w; stdin := stdin w; stdout := out |}, Err err)
  | (out, None) =>
      ({| repo := repo w; fs := fs w; stdin := stdin w; stdout := out |}, Val tt)
  end.

(** [defer os.RemoveAll(tempDir)] around the rest of a function. *)
Definition deferRemoveAll {A} (tempDir : path) (c : cmd A) : cmd A := fun w =>
  let (w1, r) := c w in
  ({| repo := repo w1; fs := RemoveAll (fs w1) tempDir;
      stdin := stdin w1; stdout := stdout w1 |}, r).

(** The walk of [checkCmd] that renders the working tree into the
    temporary directory. *)
Definition reifyToTemp (localDir tempDir : path) (data : Template.fields) : fsStep :=
  fun fs0 =>
  WalkDir (fun path d err fs1 =>
    match err with
    | Some e => (fs1, Stop e)
    | None =>
        if IsDir d then
          if String.eqb (Name d) ".git" then (fs1, SkipDir) else (fs1, Continue)
        else
          let rel := match Rel localDir path with
                     | Ok rel => rel
                     | Fail _ => []
                     end in
          let destPath := Join tempDir rel in
          asCtl (ReifyFile path destPath data
                   (fun key => Ok ("{{ " ++ Template.Quote key ++ " | secret }}")%string)
                   fs1)
    end) fs0 localDir fs0.

(** [checkCmd]. *)
Definition checkCmd (cfg : Config) (host : Host)
    (checkFlagLocal checkFlagFull checkFlagAll : bool) : cmd unit :=
  let localDir := localDirOf cfg host in
  let homeDir := homeDirOf cfg host in
  let forkName := forkNameOf cfg host in
  let ignorePatterns := root_ignore cfg in
  (if negb checkFlagLocal then
     say (Printf "Pulling changes..." []) ;;;
     e <~ gitOp (Pull localDir) ;;
     match e with
     | Some _ => say (Printf "Warning: pull failed: %v" [])
     | None => ret tt
     end
   else ret tt) ;;;
  say (Printf "Checking fork branch '%s'..." [forkName]) ;;;
  e <~ gitOp (Checkout localDir forkName) ;;
  match e with
  | Some err => fail (Wrapf "failed to checkout fork branch %s: %w" [forkName] err)
  | None =>
      say (Printf "Local Status:" []) ;;;
      runCompare localDir homeDir ignorePatterns checkFlagAll ;;;
      if checkFlagFull then
        say (Printf (String Template.newline "Checking main branch (template status)...") []) ;;;
        orFail "failed to checkout main: %w" (gitOp (Checkout localDir "main")) ;;;
        fun w =>
        match MkdirTemp (fs w) with
        | Fail err => (w, Err (Wrapf "failed to create temp dir: %w" [] err))
        | Ok (tempDir, fs1) =>
            deferRemoveAll tempDir
              (e <~ fsOp (reifyToTemp localDir tempDir (AllSettings cfg)) ;;
               match e with
               | Some err => fail (Wrapf "failed to reify main to temp: %w" [] err)
               | None =>
                   e <~ gitOp (Checkout localDir forkName) ;;
                   match e with
                   | Some err => fail (Wrapf "failed to checkout fork %s: %w" [forkName] err)
                   | None =>
                       say (Printf "Template Status (Main vs Fork):" []) ;;;
                       runCompare tempDir localDir ignorePatterns checkFlagAll
                   end
               end)
              {| repo := repo w; fs := fs1; stdin := stdin w; stdout := stdout w |}
        end
      else ret tt
  end.

End Commands.

End Cmd.

(** ** Concrete trees and contexts used in the examples *)

Module Examples.

Import Template.

Definition entries (es : list (string * node)) : dirents :=
  fold_right (fun e rest => dcons (fst e) (snd e) rest) dnil es.

Definition dir (es : list (string * node)) : node := Dir (entries es).

Definition file (content : string) : node := File content mode0644.

Definition context (kvs : list (string * value)) : fields :=
  fold_right (fun e rest => fcons (fst e) (snd e) rest) fnil kvs.

(** A repository with a plain file, a template that looks up a key no
    context has, and a [.git] directory whose content is no template. *)
Definition brokenRepo : node :=
  dir [("repo", dir [(".git", dir [("HEAD", file "{{")]);
                     ("a.txt", file "hello");
                     ("b.conf", file "v = {{ .missing }}")])].

Definition someContext : fields :=
  context [("name", Scalar "workstation")].

(** A template of mode 0600 and an empty scratch directory. *)
Definition mode0600 : Z := 6 * 64.

Definition scratchRepo : node :=
  dir [("repo", dir [("t.conf", File "v = {{ .name }}" mode0600)]);
       ("tmp", dir [])].

(** A directory with a secret store, and one without. *)
Definition withStore : node :=
  dir [("home", dir [(".env", file "OTHER=MySecret")])].

Definition withoutStore : node :=
  dir [("home", dir [])].

(** The trees A and B of the diff example, side by side. *)
Definition treesAB : node :=
  dir [("A", dir [("a", file "1"); ("b", file "2")]);
       ("B", dir [("a", file "1"); ("b", file "3"); ("c", file "4")])].

(** [filepath.Match] on patterns without metacharacters, where it is
    equality of the two strings. *)
Definition literalMatch (pattern name : string) : bool * option error :=
  (String.eqb pattern name, None).

(** A repository without history: every checkout succeeds and changes
    nothing. *)
Definition checkoutOk (repoPath : path) (branch : string) (g : unit * node)
  : (unit * node) * option error := (g, None).

(** A tracked file whose name is on the ignore list, present at home too. *)
Definition ignoredTracked : node :=
  dir [("home", dir [("ignored.txt", file "ignore me")]);
       ("local", dir [("ignored.txt", file "ignore me")])].

Definition ignoringConfig : Cmd.Config :=
  {| Cmd.local_dir := Some ["local"];
     Cmd.home_dir := Some ["home"];
     Cmd.fork := "testfork";
     Cmd.root_ignore := ["ignored.txt"];
     Cmd.AllSettings := fnil |}.

Definition thisHost : Cmd.Host :=
  {| Cmd.UserHomeDir := ["home"]; Cmd.Hostname := "laptop" |}.

Definition startIn (fs : node) : Cmd.World unit :=
  {| Cmd.repo := tt; Cmd.fs := fs; Cmd.stdin := []; Cmd.stdout := [] |}.

(** A repository scripted by the commit messages its head shows after
    each pull. *)
Definition scriptedOpen (repoPath : path) (g : list string * node) : option error := None.

Definition scriptedPull (g : list string * node) : (list string * node) * option error :=
  ((tl (fst g), snd g), None).

Definition scriptedHead (g : list string * node) : result string :=
  Ok (hd EmptyString (fst g)).

Definition convergingWorld : Cmd.World (list string) :=
  {| Cmd.repo := [Cmd.GenerateCommitMessage "reify" "id-0";
                  Cmd.GenerateCommitMessage "reify" "id-1";
                  Cmd.GenerateCommitMessage "reify" "id-2"];
     Cmd.fs := dir [];
     Cmd.stdin := [];
     Cmd.stdout := [] |}.

(** A repository whose head cannot be read once its script has run out. *)
Definition exhaustedHead (g : list string * node) : result string :=
  match fst g with
  | [] => Fail (Errorf "reference not found" [])
  | m :: _ => Ok m
  end.

Definition stallingWorld : Cmd.World (list string) :=
  {| Cmd.repo := [Cmd.GenerateCommitMessage "reify" "id-0";
                  Cmd.GenerateCommitMessage "reify" "id-1"];
     Cmd.fs := dir [];
     Cmd.stdin := [];
     Cmd.stdout := [] |}.

(** A fork with three files and a home where the second is a directory. *)
Definition blockedHome : node :=
  dir [("home", dir [("x", dir [("k", file "")])]);
       ("local", dir [("a", File "1" mode0600); ("x", file "2"); ("z", file "3")])].

(** Two files a run without secrets rewrites: a placeholder written without
    spaces, and a lookup into the context. *)
Definition unspaced : string := "key = {{" ++ quoted "KEY" ++ "|secret}}".

Definition rewrittenRepo : node :=
  dir [("repo", dir [("s.conf", file unspaced);
                     ("t.conf", file "host = {{ .name }}")])].

Definition plainConfig : Cmd.Config :=
  {| Cmd.local_dir := Some ["local"];
     Cmd.home_dir := Some ["home"];
     Cmd.fork := "testfork";
     Cmd.root_ignore := [];
     Cmd.AllSettings := someContext |}.

(** The file of the command's own test, and a tree that holds it. *)
Definition preserved : string := "Val: " ++ placeholder "KEY".

Definition preservedRepo : node :=
  dir [("repo", dir [("file.txt", file preserved)])].

(** A template that looks up a value which is itself a template. *)
Definition nestedContext : fields :=
  context [("a", Scalar "{{ .b }}"); ("b", Scalar "x")].

Definition nestedConfig : Cmd.Config :=
  {| Cmd.local_dir := Some ["local"];
     Cmd.home_dir := Some ["home"];
     Cmd.fork := "testfork";
     Cmd.root_ignore := [];
     Cmd.AllSettings := nestedContext |}.

Definition nestedRepo : node :=
  dir [("repo", dir [("f.conf", file "{{ .a }}")])].

(** A temporary directory drawn under [tmp], when the name is free. *)
Definition scratchTemp (fs : node) : result (path * node) :=
  match Stat fs ["tmp"; "scadu-check-full-1"] with
  | Ok _ => Fail (PathError "mkdir" ENOTDIR)
  | Fail _ =>
      fs1 <- MkdirAll fs ["tmp"; "scadu-check-full-1"] ;;
      Ok (["tmp"; "scadu-check-full-1"], fs1)
  end.

(** A repository of two branches, each with the working tree a checkout
    of it leaves under [local], as the test of the check command sets them
    up. *)
Definition branches : list (string * node) :=
  [("main", dir [("file1.txt", file "base content");
                 ("file2.conf", file "val = {{.key}} changed");
                 ("ignored.txt", file "ignore me");
                 ("missing_in_home.txt", file "repo only")]);
   ("testfork", dir [("file1.txt", file "base content");
                     ("file2.conf", file "val = testvalue");
                     ("ignored.txt", file "ignore me");
                     ("missing_in_home.txt", file "repo only")])].

Fixpoint branchTree (branch : string) (bs : list (string * node)) : option node :=
  match bs with
  | [] => None
  | (b, tree) :: rest => if String.eqb branch b then Some tree else branchTree branch rest
  end.

Definition branchCheckout (repoPath : path) (branch : string)
    (g : list (string * node) * node) : (list (string * node) * node) * option error :=
  match branchTree branch (fst g), snd g with
  | Some tree, Dir es => ((fst g, Dir (set "local" tree es)), None)
  | _, _ => (g, Some (Errorf "reference not found" []))
  end.

Definition branchOpen (repoPath : path) (g : list (string * node) * node) : option error :=
  None.

Definition branchPull (g : list (string * node) * node)
  : (list (string * node) * node) * option error := (g, None).

Definition testConfig : Cmd.Config :=
  {| Cmd.local_dir := Some ["local"];
     Cmd.home_dir := Some ["home"];
     Cmd.fork := "testfork";
     Cmd.root_ignore := ["ignored.txt"];
     Cmd.AllSettings := context [("key", Scalar "testvalue")] |}.

Definition testWorld : Cmd.World (list (string * node)) :=
  {| Cmd.repo := branches;
     Cmd.fs := dir [("home", dir [("extra.txt", file "extra");
                                  ("file1.txt", file "base content");
                                  ("file2.conf", file "val = user_modified")]);
                    ("local", dir [])];
     Cmd.stdin := [];
     Cmd.stdout := [] |}.

(** A template of mode 0600 in the working tree and the file it was
    installed as, of mode 0644. *)
Definition installTree : node :=
  dir [("home", dir [("t.conf", file "v = old")]);
       ("local", dir [("t.conf", File "v = {{ .name }}" mode0600)]);
       ("tmp", dir [("scadu-reify-1", dir [])])].

(** An environment that names no editor, and a search path that holds
    [vim] only. *)
Definition noEditorEnv (name : string) : string := EmptyString.

Definition onlyVim (file : string) : result string :=
  if String.eqb file "vim" then Ok "/usr/bin/vim"
  else Fail (Errorf "executable file not found in $PATH" [file]).

(** The trees of the command tests. *)
Definition secretRepo (env : option string) : node :=
  dir [("root", dir (match env with
                     | Some content => [(".env", file content)]
                     | None => []
                     end ++ [("file.txt", file preserved)]))].

Definition checkTree : node :=
  dir [("home", dir [("extra.txt", file "extra");
                     ("file1.txt", file "base content");
                     ("file2.conf", file "val = user_modified")]);
       ("local", dir [(".git", dir [("HEAD", file "ref: refs/heads/testfork")]);
                      ("file1.txt", file "base content");
                      ("file2.conf", file "val = testvalue");
                      ("ignored.txt", file "ignore me");
                      ("missing_in_home.txt", file "repo only")])].

Definition updateTree : node :=
  dir [("home", dir [("file.txt", file "v1")]);
       ("local", dir [("file.txt", file "v2")])].

(** A repository whose head carries no marker and whose remote is up to
    date. *)
Definition quietOpen (repoPath : path) (g : unit * node) : option error := None.

Definition quietPush (g : unit * node) : (unit * node) * option error :=
  (g, Some (Errorf "already up-to-date" [])).

Definition quietPull (g : unit * node) : (unit * node) * option error := (g, None).

Definition quietHead (g : unit * node) : result string := Ok "Update v2".

Definition updateWorld : Cmd.World unit :=
  {| Cmd.repo := tt; Cmd.fs := updateTree;
     Cmd.stdin := [String "y" (String newline EmptyString)]; Cmd.stdout := [] |}.

End Examples.

(** * Properties *)

Unset Implicit Arguments.

(** ** The file system *)

Section FSFacts.

Lemma find_replace_same x n es m : find x es = Some m -> find x (replace x n es) = Some n.
Proof.
  induction es as [|y k rest IH]; simpl; [discriminate|].
  destruct (String.eqb x y) eqn:E; simpl; rewrite E; auto.
Qed.

Lemma find_insert_same x n es : find x es = None -> find x (insert x n es) = Some n.
Proof.
  induction es as [|y k rest IH]; simpl.
  - now rewrite String.eqb_refl.
  - destruct (String.eqb x y) eqn:E; [discriminate|]. intros H.
    destruct (String.ltb x y); simpl.
    + now rewrite String.eqb_refl.
    + rewrite E. auto.
Qed.

Lemma find_replace_other x y n es : x <> y -> find y (replace x n es) = find y es.
Proof.
  intros Hxy. induction es as [|z k rest IH]; simpl; [reflexivity|].
  destruct (String.eqb x z) eqn:E; simpl.
  - apply String.eqb_eq in E. subst z.
    destruct (String.eqb y x) eqn:E2; [|reflexivity].
    apply String.eqb_eq in E2. congruence.
  - now rewrite IH.
Qed.

Lemma find_insert_other x y n es : x <> y -> find y (insert x n es) = find y es.
Proof.
  intros Hxy. induction es as [|z k rest IH]; simpl.
  - destruct (String.eqb y x) eqn:E2; [|reflexivity].
    apply String.eqb_eq in E2. congruence.
  - destruct (String.ltb x z); simpl.
    + destruct (String.eqb y x) eqn:E2; [|reflexivity].
      apply String.eqb_eq in E2. congruence.
    + now rewrite IH.
Qed.

Lemma find_set_same x n es : find x (set x n es) = Some n.
Proof.
  unfold set. destruct (find x es) eqn:E.
  - eapply find_replace_same; eauto.
  - now apply find_insert_same.
Qed.

Lemma find_set_other x y n es : x <> y -> find y (set x n es) = find y es.
Proof.
  intros Hxy. unfold set. destruct (find x es).
  - now apply find_replace_other.
  - now apply find_insert_other.
Qed.

Lemma replace_same x n es : find x es = Some n -> replace x n es = es.
Proof.
  induction es as [|y m rest IH]; simpl; [reflexivity|].
  destruct (String.eqb x y) eqn:E.
  - now intros [= ->].
  - intros H. now rewrite (IH H).
Qed.

Lemma set_same x n es : find x es = Some n -> set x n es = es.
Proof.
  intros H. unfold set. rewrite H. now apply replace_same.
Qed.

Ltac bindOk H :=
  match type of H with
  | bind ?r _ = Ok _ =>
      let E := fresh "E" in destruct r eqn:E; simpl in H; [|discriminate]
  end.

Lemma stat_createTrunc_same p : forall fs fs' data perm,
  createTrunc fs p data perm = Ok fs' ->
  Stat fs' p = Ok (File data (match Stat fs p with Ok (File _ m) => m | _ => perm end)).
Proof.
  induction p as [|x p' IH]; intros fs fs' data perm H; simpl in *.
  - destruct fs; [|discriminate]. now injection H as <-.
  - destruct fs as [|es]; [discriminate|].
    destruct (find x es) as [n|] eqn:F.
    + bindOk H. injection H as <-. simpl. rewrite find_set_same. eauto.
    + destruct p'; [|discriminate]. injection H as <-. simpl.
      now rewrite find_set_same.
Qed.

Lemma stat_createTrunc_other p : forall fs fs' q data perm c m,
  createTrunc fs q data perm = Ok fs' ->
  Stat fs p = Ok (File c m) -> p <> q ->
  Stat fs' p = Ok (File c m).
Proof.
  induction p as [|x p' IH]; intros fs fs' q data perm c m H HS Hpq; simpl in *.
  - injection HS as ->. destruct q; [congruence|discriminate].
  - destruct fs as [|es]; [discriminate|].
    destruct (find x es) as [n|] eqn:F; [|discriminate].
    destruct q as [|y q']; simpl in H; [discriminate|].
    destruct (String.eqb y x) eqn:Eyx.
    + apply String.eqb_eq in Eyx. subst y. rewrite F in H.
      bindOk H. injection H as <-. simpl. rewrite find_set_same.
      eapply IH; eauto. congruence.
    + apply String.eqb_neq in Eyx.
      assert (K : forall k, Stat (Dir (set y k es)) (x :: p') = Ok (File c m)).
      { intros k. simpl. rewrite find_set_other by assumption. now rewrite F. }
      destruct (find y es) as [k|].
      * bindOk H. injection H as <-. apply K.
      * destruct q'; [|discriminate]. injection H as <-. apply K.
Qed.

Lemma createTrunc_dir p : forall fs fs' data perm es,
  createTrunc fs p data perm = Ok fs' -> Stat fs p = Ok (Dir es) -> False.
Proof.
  induction p as [|x p' IH]; intros fs fs' data perm es H HS; simpl in *.
  - injection HS as ->. discriminate.
  - destruct fs as [|es0]; [discriminate|].
    destruct (find x es0) as [n|] eqn:F; [|discriminate].
    bindOk H. eauto.
Qed.

Lemma MkdirAll_is_dir p : forall fs fs', MkdirAll fs p = Ok fs' -> exists es, fs' = Dir es.
Proof.
  destruct p as [|x p']; intros fs fs' H; simpl in H.
  - destruct fs; [discriminate|]. injection H as <-. eauto.
  - destruct fs as [|es]; [discriminate|].
    destruct (find x es); bindOk H; injection H as <-; eauto.
Qed.

Lemma stat_MkdirAll_file p : forall fs fs' q c m,
  MkdirAll fs q = Ok fs' -> Stat fs p = Ok (File c m) -> Stat fs' p = Ok (File c m).
Proof.
  induction p as [|x p' IH]; intros fs fs' q c m H HS; simpl in *.
  - injection HS as ->. destruct q; discriminate.
  - destruct fs as [|es]; [discriminate|].
    destruct (find x es) as [n|] eqn:F; [|discriminate].
    destruct q as [|y q']; simpl in H; [now injection H as <-; simpl; rewrite F|].
    destruct (String.eqb y x) eqn:Eyx.
    + apply String.eqb_eq in Eyx. subst y. rewrite F in H.
      bindOk H. injection H as <-. simpl. rewrite find_set_same. eauto.
    + apply String.eqb_neq in Eyx.
      destruct (find y es); bindOk H; injection H as <-; simpl;
        rewrite find_set_other by assumption; now rewrite F.
Qed.

Lemma stat_MkdirAll_dir p : forall fs fs' q es,
  MkdirAll fs q = Ok fs' -> Stat fs p = Ok (Dir es) -> exists es', Stat fs' p = Ok (Dir es').
Proof.
  induction p as [|x p' IH]; intros fs fs' q es H HS; simpl in *.
  - destruct (MkdirAll_is_dir _ _ _ H) as [es' ->]. eauto.
  - destruct fs as [|es0]; [discriminate|].
    destruct (find x es0) as [n|] eqn:F; [|discriminate].
    destruct q as [|y q']; simpl in H; [injection H as <-; simpl; rewrite F; eauto|].
    destruct (String.eqb y x) eqn:Eyx.
    + apply String.eqb_eq in Eyx. subst y. rewrite F in H.
      bindOk H. injection H as <-. simpl. rewrite find_set_same. eauto.
    + apply String.eqb_neq in Eyx.
      destruct (find y es0); bindOk H; injection H as <-; simpl;
        rewrite find_set_other by assumption; rewrite F; eauto.
Qed.

(** A destination that is absent stays absent when its parent directories
    are made. *)
Lemma stat_MkdirAll_absent p : forall fs fs' e,
  MkdirAll fs (Dir' p) = Ok fs' -> Stat fs p = Fail e -> exists e', Stat fs' p = Fail e'.
Proof.
  induction p as [|x p' IH]; intros fs fs' e H HS.
  - discriminate.
  - destruct p' as [|y r].
    + simpl in H. destruct fs; [discriminate|]. injection H as <-. eauto.
    + change (Dir' (x :: y :: r)) with (x :: Dir' (y :: r)) in H.
      simpl in H. destruct fs as [|es]; [discriminate|].
      change (Stat (Dir es) (x :: y :: r))
        with (match find x es with Some n => Stat n (y :: r)
              | None => Fail (PathError "stat" ENOENT) end) in HS.
      destruct (find x es) as [n|] eqn:F.
      * bindOk H. injection H as <-.
        destruct (IH _ _ _ E HS) as [e' He'].
        exists e'. simpl. rewrite find_set_same. exact He'.
      * bindOk H. injection H as <-.
        assert (HS0 : Stat (Dir dnil) (y :: r) = Fail (PathError "stat" ENOENT))
          by reflexivity.
        destruct (IH _ _ _ E HS0) as [e' He'].
        exists e'. simpl. rewrite find_set_same. exact He'.
Qed.

End FSFacts.

(** ** The walk *)

Section WalkFacts.

Variable S : Type.
Variable fn : path -> DirEntry -> option error -> S -> S * ctl.
Variable f : path -> S -> S * option error.

Hypothesis fn_err : forall p d e s, fn p d (Some e) s = (s, Stop e).
Hypothesis fn_dir : forall p name s,
  fn p {| IsDir := true; Name := name |} None s
  = if String.eqb name ".git" then (s, SkipDir) else (s, Continue).
Hypothesis fn_file : forall p name s,
  fn p {| IsDir := false; Name := name |} None s = asCtl (f p s).

Lemma forEachFile_app ps qs (s : S) :
  forEachFile f (ps ++ qs) s
  = match forEachFile f ps s with
    | (s1, None) => forEachFile f qs s1
    | (s1, Some e) => (s1, Some e)
    end.
Proof.
  revert s. induction ps as [|p ps IH]; intros s; simpl; [reflexivity|].
  destruct (f p s) as [s1 [e|]]; auto.
Qed.

Lemma walkDir_forEachFile :
  (forall n p name s,
      walkDir fn p name n s = asCtl (forEachFile f (walkFiles p name n) s))
  /\ (forall es p s,
      walkEntries fn p es s = asCtl (forEachFile f (walkFilesIn p es) s)).
Proof.
  apply node_dirents_ind.
  - intros c m p name s. simpl. rewrite fn_file.
    destruct (f p s) as [s1 [e|]]; reflexivity.
  - intros es IH p name s. simpl. rewrite fn_dir.
    destruct (String.eqb name ".git"); [reflexivity|]. apply IH.
  - intros p s. reflexivity.
  - intros x n IHn rest IHrest p s. simpl.
    rewrite IHn, forEachFile_app.
    destruct (forEachFile f (walkFiles (p ++ [x]) x n) s) as [s1 [e|]]; simpl; auto.
Qed.

(** A walk whose callback skips [.git] and handles each file with [f] is
    [f] run over the files under the root, in walk order. *)
Lemma WalkDir_forEachFile fs root s :
  WalkDir fn fs root s
  = match Stat fs root with
    | Ok _ => forEachFile f (filesUnder fs root) s
    | Fail err => (s, Some err)
    end.
Proof.
  unfold WalkDir, filesUnder. destruct (Stat fs root) as [n|err].
  - rewrite (proj1 walkDir_forEachFile).
    destruct (forEachFile f (walkFiles root (Base root) n) s) as [s1 [e|]]; reflexivity.
  - now rewrite fn_err.
Qed.

End WalkFacts.

(** ** Reification *)

Section ProcessorFacts.

Import Processor.

Variable data : Template.fields.
Variable secretFn : SecretFn.

Lemma walkAndProcess_forEachFile root dryRun fs :
  walkAndProcess root data secretFn dryRun fs
  = match Stat fs root with
    | Ok _ =>
        forEachFile (fun p => processFile p data secretFn dryRun) (filesUnder fs root) fs
    | Fail err => (fs, Some err)
    end.
Proof.
  unfold walkAndProcess. apply WalkDir_forEachFile; reflexivity.
Qed.

(** The validation pass writes nothing. *)
Lemma processFile_dry p fs : fst (processFile p data secretFn true fs) = fs.
Proof.
  unfold processFile, renderAndWrite.
  destruct (ReadFile fs p); [|reflexivity].
  destruct (Template.Parse a); [|reflexivity].
  destruct (Template.Execute secretFn a0 data); reflexivity.
Qed.

Lemma forEachFile_dry ps fs :
  fst (forEachFile (fun p => processFile p data secretFn true) ps fs) = fs.
Proof.
  induction ps as [|p ps IH]; simpl; [reflexivity|].
  pose proof (processFile_dry p fs) as H.
  destruct (processFile p data secretFn true fs) as [fs1 [e|]]; simpl in *; subst; auto.
Qed.

Lemma walkAndProcess_dry root fs : fst (walkAndProcess root data secretFn true fs) = fs.
Proof.
  rewrite walkAndProcess_forEachFile. destruct (Stat fs root); [|reflexivity].
  apply forEachFile_dry.
Qed.

(** Whatever fails in the validation pass, [Reify] returns it with the file
    system it was given. *)
Lemma Reify_validation_error root dryRun fs fs1 e :
  walkAndProcess root data secretFn true fs = (fs1, Some e) ->
  Reify root data secretFn dryRun fs = (fs, Some (Wrapf "dry-run failed: %w" [] e)).
Proof.
  intros H. pose proof (walkAndProcess_dry root fs) as Hfs.
  unfold Reify. rewrite H in *. simpl in Hfs. now subst.
Qed.

Lemma forEachFile_first_failure (S : Type) (f : path -> S -> S * option error) bad e s :
  forall ps,
  In bad ps ->
  (forall p, In p ps -> p <> bad -> f p s = (s, None)) ->
  f bad s = (s, Some e) ->
  forEachFile f ps s = (s, Some e).
Proof.
  induction ps as [|p ps IH]; intros Hin Hok Hbad; [contradiction|]. simpl.
  destruct (list_eq_dec string_dec p bad) as [->|Hne].
  - now rewrite Hbad.
  - rewrite (Hok p (or_introl eq_refl) Hne).
    apply IH; auto.
    + destruct Hin; [congruence|assumption].
    + intros q Hq. apply Hok. now right.
Qed.

Lemma filesUnder_stat fs root p : In p (filesUnder fs root) -> exists n, Stat fs root = Ok n.
Proof.
  unfold filesUnder. destruct (Stat fs root); [eauto|contradiction].
Qed.

(** C1. When one file under the root fails to parse or to execute and
    every other file renders, [Reify] returns an error that carries the
    failing path and the file system it returns is the one it was given:
    no file under the root, the failing one included, has changed. *)
Theorem Reify_all_or_nothing root fs bad content :
  In bad (filesUnder fs root) ->
  ReadFile fs bad = Ok content ->
  (forall tmpl out, Template.Parse content = Ok tmpl ->
                    Template.Execute secretFn tmpl data = Ok out -> False) ->
  (forall p, In p (filesUnder fs root) -> p <> bad ->
     exists c tmpl out,
       ReadFile fs p = Ok c /\ Template.Parse c = Ok tmpl
       /\ Template.Execute secretFn tmpl data = Ok out) ->
  exists fmt cause,
    Reify root data secretFn false fs
    = (fs, Some (Wrapf "dry-run failed: %w" [] (Wrapf fmt [pathString bad] cause)))
    /\ (fmt = "failed to parse template %s: %w"
        \/ fmt = "failed to execute template %s: %w").
Proof.
  intros Hin Hread Hbad Hothers.
  destruct (filesUnder_stat _ _ _ Hin) as [n Hroot].
  assert (Hfail : exists fmt cause,
    processFile bad data secretFn true fs = (fs, Some (Wrapf fmt [pathString bad] cause))
    /\ (fmt = "failed to parse template %s: %w"
        \/ fmt = "failed to execute template %s: %w")).
  { unfold processFile, renderAndWrite. rewrite Hread.
    destruct (Template.Parse content) as [tmpl|e] eqn:EP.
    - destruct (Template.Execute secretFn tmpl data) as [out|e] eqn:EE.
      + exfalso. eauto.
      + eauto.
    - eauto. }
  destruct Hfail as (fmt & cause & Hfail & Hfmt).
  exists fmt, cause. split; [|exact Hfmt].
  unfold Reify. rewrite walkAndProcess_forEachFile, Hroot.
  erewrite forEachFile_first_failure; eauto.
  intros p Hp Hne. destruct (Hothers p Hp Hne) as (c & tmpl & out & R & P & E).
  unfold processFile, renderAndWrite. now rewrite R, P, E.
Qed.

End ProcessorFacts.

(** A run of C1: [b.conf] looks up a key the context lacks. *)
Lemma Reify_all_or_nothing_witness :
  exists fmt cause,
    Processor.Reify ["repo"] Examples.someContext Cmd.passThrough false Examples.brokenRepo
    = (Examples.brokenRepo,
       Some (Wrapf "dry-run failed: %w" [] (Wrapf fmt ["repo/b.conf"] cause)))
    /\ (fmt = "failed to parse template %s: %w"
        \/ fmt = "failed to execute template %s: %w").
Proof.
  apply (Reify_all_or_nothing Examples.someContext Cmd.passThrough ["repo"]
           Examples.brokenRepo ["repo"; "b.conf"] "v = {{ .missing }}").
  - vm_compute. auto.
  - reflexivity.
  - intros tmpl out HP. vm_compute in HP. injection HP as <-. vm_compute. discriminate.
  - intros p Hp Hne. vm_compute in Hp.
    destruct Hp as [<-|[<-|[]]]; [|contradiction].
    exists "hello", [Template.TextNode "hello"], "hello". repeat split.
Defined.

(** ** ReifyFile *)



(** ** The secret resolver *)

Lemma Read_missing fs p :
  Cmd.notExist fs p = true ->
  exists e, Godotenv.Read fs p = Fail e /\ IsNotExist e = true.
Proof.
  unfold Cmd.notExist, Godotenv.Read, ReadFile.
  destruct (Stat fs p) as [n|e]; [discriminate|].
  destruct e as [op code| | | |]; try discriminate.
  destruct code; try discriminate. intros _. simpl. eauto.
Qed.

(** C4. With [required = true] a store that cannot be read, a missing one
    included, makes the construction fail with the store error; a resolver
    that was constructed, in either mode, fails with the key error on every
    key the store lacks; and with [required = false] a missing store is
    accepted and every key then fails with the key error. *)
Theorem GetSecretFn_strictness fs envPath :
  (forall e, Godotenv.Read fs envPath = Fail e ->
     Processor.GetSecretFn fs envPath true
     = Fail (Wrapf "failed to read .env at %s: %w" [pathString envPath] e))
  /\ (forall required secretFn key,
        Processor.GetSecretFn fs envPath required = Ok secretFn ->
        (forall m, Godotenv.Read fs envPath = Ok m -> Godotenv.get key m = None) ->
        secretFn key
        = Fail (Errorf "secret key %q not found in .env at %s" [key; pathString envPath]))
  /\ (Cmd.notExist fs envPath = true ->
        (exists e, Processor.GetSecretFn fs envPath true
                   = Fail (Wrapf "failed to read .env at %s: %w" [pathString envPath] e))
        /\ exists secretFn,
            Processor.GetSecretFn fs envPath false = Ok secretFn
            /\ forall key,
                secretFn key
                = Fail (Errorf "secret key %q not found in .env at %s"
                          [key; pathString envPath])).
Proof.
  unfold Processor.GetSecretFn. split; [|split].
  - intros e ->. reflexivity.
  - intros required secretFn key H Hkey.
    destruct required; destruct (Godotenv.Read fs envPath) as [m|e]; simpl in H;
      try discriminate.
    + injection H as <-. now rewrite (Hkey m eq_refl).
    + injection H as <-. now rewrite (Hkey m eq_refl).
    + destruct (negb (IsNotExist e)); [discriminate|]. simpl in H.
      now injection H as <-.
  - intros Hmiss. destruct (Read_missing _ _ Hmiss) as (e & -> & ->). simpl.
    split; [eauto|]. eexists. split; reflexivity.
Qed.

Lemma GetSecretFn_strictness_witness :
  (exists e, Processor.GetSecretFn Examples.withoutStore ["home"; ".env"] true
             = Fail (Wrapf "failed to read .env at %s: %w" ["home/.env"] e))
  /\ (exists secretFn,
        Processor.GetSecretFn Examples.withoutStore ["home"; ".env"] false = Ok secretFn
        /\ forall key,
            secretFn key
            = Fail (Errorf "secret key %q not found in .env at %s" [key; "home/.env"])).
Proof.
  apply (proj2 (proj2 (GetSecretFn_strictness Examples.withoutStore ["home"; ".env"]))).
  reflexivity.
Defined.

(** ** Parsing needs no more rounds than the text has characters *)

Section FuelFacts.

Import Template.

Lemma skipSpace_length s : String.length (skipSpace s) <= String.length s.
Proof.
  induction s as [|c r IH]; simpl; [lia|]. destruct (isSpace c); simpl; lia.
Qed.

Lemma stripPrefix_length pre : forall s r,
  stripPrefix pre s = Some r -> String.length r + String.length pre = String.length s.
Proof.
  induction pre as [|a pre IH]; intros s r H; simpl in *.
  - injection H as ->. lia.
  - destruct s as [|b s]; [discriminate|]. destruct (Ascii.eqb a b); [|discriminate].
    apply IH in H. simpl. lia.
Qed.

Lemma expect_length what s msg r :
  expect what s msg = Ok r -> String.length r + String.length what = String.length s.
Proof.
  unfold expect. destruct (stripPrefix what s) as [r'|] eqn:E; [|discriminate].
  intros [= <-]. now apply stripPrefix_length.
Qed.

Lemma consTo_rest c res k r :
  consTo c res = Ok (k, r) -> exists k', res = Ok (k', r).
Proof.
  destruct res as [[k' r']|e]; simpl; [|discriminate]. intros [= _ <-]. eauto.
Qed.

Lemma lexQuote_length n : forall s k r,
  String.length s <= n -> lexQuote s = Ok (k, r) -> String.length r < String.length s.
Proof.
  induction n as [|n IH]; intros s k r Hn H.
  - destruct s; [discriminate|simpl in Hn; lia].
  - destruct s as [|c s1]; [discriminate|]. simpl in Hn. cbn [lexQuote] in H.
    destruct (Ascii.eqb c dquote); [injection H as _ <-; simpl; lia|].
    destruct (Ascii.eqb c newline); [discriminate|].
    destruct (Ascii.eqb c backslash).
    + destruct s1 as [|e s2]; [discriminate|]. simpl in Hn.
      destruct (unescape e).
      * apply consTo_rest in H. destruct H as [k' H].
        apply IH in H; [simpl; lia|lia].
      * destruct (Ascii.eqb e "x"); [|discriminate].
        destruct s2 as [|h1 [|h2 s3]]; try discriminate.
        destruct (hexVal h1); [|discriminate]. destruct (hexVal h2); [|discriminate].
        apply consTo_rest in H. destruct H as [k' H]. simpl in Hn.
        apply IH in H; [simpl; lia|lia].
    + apply consTo_rest in H. destruct H as [k' H].
      apply IH in H; [simpl; lia|lia].
Qed.

Lemma lexFields_length s : forall cur acc ks r,
  lexFields s cur acc = Ok (ks, r) -> String.length r <= String.length s.
Proof.
  induction s as [|c s IH]; intros cur acc ks r H; [discriminate|].
  cbn [lexFields] in H. destruct (isAlphaNumeric c).
  - destruct cur.
    + destruct (isDigit c); [discriminate|]. apply IH in H. simpl. lia.
    + apply IH in H. simpl. lia.
  - destruct cur; [discriminate|].
    destruct (Ascii.eqb c ".").
    + apply IH in H. simpl. lia.
    + injection H as _ <-. lia.
Qed.

Lemma parseAction_length s n rest :
  parseAction s = Ok (n, rest) -> String.length rest < String.length s.
Proof.
  unfold parseAction. pose proof (skipSpace_length s) as Hs.
  destruct (skipSpace s) as [|c r]; [discriminate|]. simpl in Hs.
  destruct (Ascii.eqb c ".").
  - destruct (lexFields r "" []) as [[ks r1]|] eqn:E1; [|discriminate]. cbn [bind fst snd].
    destruct (expect "}}" (skipSpace r1) _) as [r2|] eqn:E2; [|discriminate]. cbn [bind].
    intros [= _ <-]. apply lexFields_length in E1. apply expect_length in E2.
    pose proof (skipSpace_length r1). simpl in E2. lia.
  - destruct (Ascii.eqb c dquote); [|discriminate].
    destruct (lexQuote r) as [[k r1]|] eqn:E1; [|discriminate]. cbn [bind fst snd].
    destruct (expect "|" (skipSpace r1) _) as [r2|] eqn:E2; [|discriminate]. cbn [bind].
    destruct (expect "secret" (skipSpace r2) _) as [r3|] eqn:E3; [|discriminate]. cbn [bind].
    destruct (expect "}}" (skipSpace r3) _) as [r4|] eqn:E4; [|discriminate]. cbn [bind].
    intros [= _ <-]. apply (lexQuote_length _ _ _ _ (le_n _)) in E1.
    apply expect_length in E2, E3, E4.
    pose proof (skipSpace_length r1). pose proof (skipSpace_length r2).
    pose proof (skipSpace_length r3). simpl in E2, E3, E4. lia.
Qed.

Lemma lexText_length s : forall t r,
  lexText s = (t, Some r) -> String.length r < String.length s.
Proof.
  induction s as [|c s IH]; intros t r H; [discriminate|].
  cbn [lexText] in H. destruct (Ascii.eqb c "{").
  - destruct s as [|d s']; [discriminate|].
    destruct (Ascii.eqb d "{").
    + injection H as _ <-. simpl. lia.
    + destruct (lexText (String d s')) as [t0 k0]. injection H as _ ->.
      specialize (IH _ _ eq_refl). simpl in *. lia.
  - destruct (lexText s) as [t0 k0]. injection H as _ ->.
    specialize (IH _ _ eq_refl). simpl. lia.
Qed.

Lemma parseLoop_rounds fuel : forall s fuel',
  String.length s <= fuel -> String.length s <= fuel' ->
  parseLoop fuel s = parseLoop fuel' s.
Proof.
  induction fuel as [|fuel IH]; intros s fuel' H H'.
  - destruct s; [|simpl in H; lia]. now destruct fuel'.
  - destruct fuel' as [|fuel'].
    + destruct s; [reflexivity|simpl in H'; lia].
    + cbn [parseLoop]. destruct (lexText s) as [t [r|]] eqn:EL; [|reflexivity].
      apply lexText_length in EL.
      destruct (parseAction r) as [[n rest]|] eqn:EA; [|reflexivity].
      apply parseAction_length in EA. cbn [bind fst snd].
      rewrite (IH rest fuel') by lia. reflexivity.
Qed.

(** Any number of rounds from the length of the text on gives the parse. *)
Lemma Parse_rounds text fuel :
  String.length text <= fuel -> parseLoop fuel text = Parse text.
Proof.
  intros H. unfold Parse. apply parseLoop_rounds; lia.
Qed.

End FuelFacts.

(** ** Rendering *)

Section RenderFacts.

Import Template.

Lemma evalFieldChain_absent ident : forall m,
  lookupKey m ident = None -> exists e, evalFieldChain (Map m) ident = Fail e.
Proof.
  induction ident as [|k rest IH]; intros m H; simpl in *; [discriminate|].
  destruct (getKey k m) as [v|]; [|eauto].
  destruct rest as [|k' rest']; [discriminate|].
  destruct v as [s|m']; [simpl; eauto|].
  apply IH, H.
Qed.

Lemma Execute_node_fails funcs data n e : forall tmpl,
  In n tmpl -> evalNode funcs data n = Fail e ->
  exists e', Execute funcs tmpl data = Fail e'.
Proof.
  induction tmpl as [|n0 rest IH]; intros Hin Hn; [contradiction|]. simpl.
  destruct Hin as [->|Hin].
  - rewrite Hn. simpl. eauto.
  - destruct (evalNode funcs data n0); simpl; [|eauto].
    destruct (IH Hin Hn) as [e' ->]. simpl. eauto.
Qed.

(** C8. A template that looks up a key the context does not hold fails in
    execution: [renderAndWrite] returns the execute error for that file and
    the file system is the one it was given, so nothing is written in the
    place of the key. *)
Theorem missing_key_is_execute_error name destPath content tmpl ident data secretFn dryRun fs :
  Parse content = Ok tmpl ->
  In (FieldNode ident) tmpl ->
  lookupKey data ident = None ->
  (exists e, Execute secretFn tmpl data = Fail e)
  /\ exists e,
      Processor.renderAndWrite name destPath content data secretFn dryRun fs
      = (fs, Some (Wrapf "failed to execute template %s: %w" [pathString name] e)).
Proof.
  intros HP Hin Habs.
  destruct (evalFieldChain_absent _ _ Habs) as [e0 He0].
  assert (Hn : evalNode secretFn data (FieldNode ident) = Fail e0)
    by (simpl; now rewrite He0).
  destruct (Execute_node_fails _ _ _ _ _ Hin Hn) as [e He].
  split; [eauto|]. exists e.
  unfold Processor.renderAndWrite. rewrite HP, He. now destruct dryRun.
Qed.

End RenderFacts.

Lemma missing_key_is_execute_error_witness :
  (exists e, Template.Execute Cmd.passThrough
               [Template.TextNode "v = "; Template.FieldNode ["missing"]]
               Examples.someContext = Fail e)
  /\ exists e,
      Processor.renderAndWrite ["repo"; "b.conf"] ["repo"; "b.conf"] "v = {{ .missing }}"
        Examples.someContext Cmd.passThrough false Examples.brokenRepo
      = (Examples.brokenRepo,
         Some (Wrapf "failed to execute template %s: %w" ["repo/b.conf"] e)).
Proof.
  apply (missing_key_is_execute_error ["repo"; "b.conf"] ["repo"; "b.conf"]
           "v = {{ .missing }}" _ ["missing"]).
  - reflexivity.
  - simpl. auto.
  - reflexivity.
Defined.

(** ** The diff engine *)

(** C2, as the code has it.  A against B with deletions reports b modified
    and c deleted; B against A without deletions reports b modified and c
    new, and [getDiffs] returns both as changes. *)
Theorem compare_A_B Match :
  Cmd.compareDirs Match Examples.treesAB ["A"] ["B"] [] true []
  = ([Cmd.DiffLine Cmd.Modified "b"; Cmd.DiffLine Cmd.Deleted "c"], None)
  /\ Cmd.compareDirs Match Examples.treesAB ["B"] ["A"] [] false []
     = ([Cmd.DiffLine Cmd.Modified "b"; Cmd.DiffLine Cmd.New "c"], None)
  /\ Cmd.getDiffs Match Examples.treesAB ["B"] ["A"] [] []
     = (([Cmd.DiffLine Cmd.Modified "b"; Cmd.DiffLine Cmd.New "c"], [["b"]; ["c"]]), None).
Proof.
  repeat split.
Qed.

(** C2 as stated fails: the second comparison does not yield b alone. *)
Lemma compare_B_A_counterexample :
  ~ (forall Match,
       Cmd.compareDirs Match Examples.treesAB ["A"] ["B"] [] true []
       = ([Cmd.DiffLine Cmd.Modified "b"; Cmd.DiffLine Cmd.Deleted "c"], None)
       /\ Cmd.compareDirs Match Examples.treesAB ["B"] ["A"] [] false []
          = ([Cmd.DiffLine Cmd.Modified "b"], None)).
Proof.
  intros H. destruct (H Examples.literalMatch) as [_ H2].
  vm_compute in H2. discriminate.
Qed.

(** ** Ignore patterns *)

Ltac callbackCases :=
  repeat match goal with
         | |- context [match ?e with Some _ => _ | None => _ end] => destruct e
         | |- context [match Rel ?a ?b with Ok _ => _ | Fail _ => _ end] => destruct (Rel a b)
         | |- context [if Cmd.isIgnored ?m ?r ?i then _ else _] =>
             let E := fresh "EI" in destruct (Cmd.isIgnored m r i) eqn:E
         | |- context [if ?b then _ else _] => destruct b
         end.


Section IgnoreFacts.

Import Cmd.

Variable Match : string -> string -> bool * option error.
Variable ignores : list string.

Lemma forEachFile_inv (S : Type) (f : path -> S -> S * option error) (I : S -> Prop) :
  (forall p s, I s -> I (fst (f p s))) ->
  forall ps s, I s -> I (fst (forEachFile f ps s)).
Proof.
  intros Hf. induction ps as [|p ps IH]; intros s Hs; simpl; [exact Hs|].
  pose proof (Hf p s Hs) as H1.
  destruct (f p s) as [s1 [e|]]; simpl in *; auto.
Qed.

Lemma walkDir_inv (S : Type) fn (I : S -> Prop) :
  (forall p d e s, I s -> I (fst (fn p d e s))) ->
  (forall n p name s, I s -> I (fst (walkDir (S := S) fn p name n s)))
  /\ (forall es p s, I s -> I (fst (walkEntries (S := S) fn p es s))).
Proof.
  intros Hfn. apply node_dirents_ind.
  - intros c m p name s Hs. simpl. now apply Hfn.
  - intros es IH p name s Hs. simpl.
    pose proof (Hfn p {| IsDir := true; Name := name |} None s Hs) as H1.
    destruct (fn p {| IsDir := true; Name := name |} None s) as [s1 [| |e]];
      simpl in *; auto.
  - intros p s Hs. exact Hs.
  - intros x n IHn rest IHrest p s Hs. simpl.
    pose proof (IHn (p ++ [x]) x s Hs) as H1.
    destruct (walkDir fn (p ++ [x]) x n s) as [s1 [| |e]]; simpl in *; auto.
Qed.

(** What every call of the callback keeps, the walk keeps. *)
Lemma WalkDir_inv (S : Type) fn (I : S -> Prop) :
  (forall p d e s, I s -> I (fst (fn p d e s))) ->
  forall fs root s, I s -> I (fst (WalkDir (S := S) fn fs root s)).
Proof.
  intros Hfn fs root s Hs. unfold WalkDir.
  destruct (Stat fs root) as [n|err].
  - pose proof (proj1 (walkDir_inv S fn I Hfn) n root (Base root) s Hs) as H1.
    destruct (walkDir fn root (Base root) n s) as [s1 [| |e]]; exact H1.
  - pose proof (Hfn root {| IsDir := false; Name := Base root |} (Some err) s Hs) as H1.
    destruct (fn root _ (Some err) s) as [s1 [| |e]]; exact H1.
Qed.

Lemma Forall_snoc (A : Type) (P : A -> Prop) l x : Forall P l -> P x -> Forall P (l ++ [x]).
Proof.
  intros Hl Hx. apply Forall_app. split; [exact Hl|]. now constructor.
Qed.

Lemma compareDirs_unignored fs sourceDir targetDir checkAll out :
  Forall (unignored Match ignores) out ->
  Forall (unignored Match ignores) (fst (compareDirs Match fs sourceDir targetDir ignores checkAll out)).
Proof.
  intros Hout. unfold compareDirs.
  match goal with
  | |- context [WalkDir ?fn fs sourceDir out] =>
      assert (H1 : Forall (unignored Match ignores) (fst (WalkDir fn fs sourceDir out)));
      [|destruct (WalkDir fn fs sourceDir out) as [out1 [e|]]; [exact H1|]]
  end.
  { apply WalkDir_inv; [|exact Hout]. clear. intros p d e s Hs.
    callbackCases; simpl; auto using Forall_snoc. }
  simpl in H1. destruct checkAll; [|exact H1].
  apply WalkDir_inv; [|exact H1]. clear. intros p d e s Hs.
  callbackCases; simpl; auto using Forall_snoc.
Qed.

Lemma getDiffs_unignored fs sourceDir targetDir out :
  Forall (unignored Match ignores) out ->
  Forall (unignored Match ignores) (fst (fst (getDiffs Match fs sourceDir targetDir ignores out)))
  /\ Forall (unignoredChange Match ignores) (snd (fst (getDiffs Match fs sourceDir targetDir ignores out))).
Proof.
  intros Hout. unfold getDiffs.
  apply (WalkDir_inv (list event * paths) _
           (fun s => Forall (unignored Match ignores) (fst s) /\ Forall (unignoredChange Match ignores) (snd s)));
    [|split; [exact Hout|constructor]].
  clear. intros p d e [evs chs] [Hs Hc]. simpl in *.
  callbackCases; simpl; auto using Forall_snoc.
Qed.

Variable Repo : Type.
Variable Checkout : path -> string -> gitState Repo -> gitState Repo * option error.

Lemma listCmd_unmanaged cfg host listAll (w : World Repo) :
  root_ignore cfg = ignores ->
  Forall (unmanagedOk Match ignores (homeDirOf cfg host)) (stdout w) ->
  Forall (unmanagedOk Match ignores (homeDirOf cfg host))
         (stdout (fst (listCmd Match Checkout cfg host listAll w))).
Proof.
  intros Hig Hout. unfold listCmd, andThen, gitOp, fail.
  destruct (Checkout (localDirOf cfg host) "main" (git w)) as [g [e|]]; simpl; [exact Hout|].
  match goal with
  | |- context [WalkDir ?fn ?t ?r ?o] =>
      assert (H1 : Forall (unmanagedOk Match ignores (homeDirOf cfg host)) (fst (WalkDir fn t r o)));
      [|destruct (WalkDir fn t r o) as [out1 [e|]]; [exact H1|]]
  end.
  { apply WalkDir_inv; [|exact Hout]. clear. intros p d e s Hs.
    callbackCases; simpl; auto; apply Forall_snoc; simpl; auto. }
  simpl in H1. destruct listAll; [|exact H1]. simpl.
  match goal with
  | |- context [WalkDir ?fn ?t ?r ?o] =>
      assert (H2 : Forall (unmanagedOk Match ignores (homeDirOf cfg host)) (fst (WalkDir fn t r o)));
      [|destruct (WalkDir fn t r o) as [out2 [e|]]; exact H2]
  end.
  apply WalkDir_inv; [|exact H1]. rewrite Hig. clear. intros p d e s Hs.
  destruct e; [exact Hs|]. destruct (IsDir d); [destruct (_ =? _)%string; exact Hs|].
  destruct (Rel (homeDirOf cfg host) p) as [rel|] eqn:ER; [|exact Hs].
  destruct (isIgnored Match (pathString rel) ignores) eqn:EI; [exact Hs|].
  destruct (notExist _ _); [|exact Hs].
  simpl. apply Forall_snoc; [exact Hs|]. simpl. eauto.
Qed.

End IgnoreFacts.

(** C3, as the code has it.  A relative path that matches an ignore pattern
    is on no line of a diff report, in either walk of [compareDirs] and in
    [getDiffs], it is not among the changes [getDiffs] returns, and the
    listing does not report it as unmanaged.  (The listing of the tracked
    files applies no ignore pattern.) *)
Theorem ignored_path_not_reported Match fs sourceDir targetDir ignores checkAll rel :
  Cmd.isIgnored Match rel ignores = true ->
  (forall c, ~ In (Cmd.DiffLine c rel)
               (fst (Cmd.compareDirs Match fs sourceDir targetDir ignores checkAll [])))
  /\ (forall c, ~ In (Cmd.DiffLine c rel)
                  (fst (fst (Cmd.getDiffs Match fs sourceDir targetDir ignores []))))
  /\ (forall r, In r (snd (fst (Cmd.getDiffs Match fs sourceDir targetDir ignores []))) ->
                pathString r <> rel)
  /\ (forall Repo Checkout cfg host listAll (w : Cmd.World Repo) p r,
        Cmd.root_ignore cfg = ignores -> Cmd.stdout w = [] ->
        Rel (Cmd.homeDirOf cfg host) p = Ok r -> pathString r = rel ->
        ~ In (Cmd.ListLine Cmd.UNMANAGED p)
             (Cmd.stdout (fst (Cmd.listCmd Match Checkout cfg host listAll w)))).
Proof.
  intros Hig. repeat split.
  - intros c Hin.
    pose proof (compareDirs_unignored Match ignores fs sourceDir targetDir checkAll []
                  (Forall_nil _)) as H.
    rewrite Forall_forall in H. specialize (H _ Hin). simpl in H. congruence.
  - intros c Hin.
    pose proof (proj1 (getDiffs_unignored Match ignores fs sourceDir targetDir []
                         (Forall_nil _))) as H.
    rewrite Forall_forall in H. specialize (H _ Hin). simpl in H. congruence.
  - intros r Hin Heq.
    pose proof (proj2 (getDiffs_unignored Match ignores fs sourceDir targetDir []
                         (Forall_nil _))) as H.
    rewrite Forall_forall in H. specialize (H _ Hin). unfold Cmd.unignoredChange in H.
    congruence.
  - intros Repo Checkout cfg host listAll w p r Hcfg Hout Hrel Hr Hin.
    pose proof (listCmd_unmanaged Match ignores Repo Checkout cfg host listAll w Hcfg) as H.
    rewrite Hout in H. specialize (H (Forall_nil _)).
    rewrite Forall_forall in H. specialize (H _ Hin). simpl in H.
    destruct H as (rel' & Hrel' & Hig'). congruence.
Qed.

Lemma ignored_path_not_reported_witness :
  (forall c, ~ In (Cmd.DiffLine c "b")
               (fst (Cmd.compareDirs Examples.literalMatch Examples.treesAB
                       ["A"] ["B"] ["b"] true [])))
  /\ (forall c, ~ In (Cmd.DiffLine c "b")
                  (fst (fst (Cmd.getDiffs Examples.literalMatch Examples.treesAB
                               ["A"] ["B"] ["b"] []))))
  /\ (forall r, In r (snd (fst (Cmd.getDiffs Examples.literalMatch Examples.treesAB
                                  ["A"] ["B"] ["b"] []))) ->
                pathString r <> "b")
  /\ (forall Repo Checkout cfg host listAll (w : Cmd.World Repo) p r,
        Cmd.root_ignore cfg = ["b"] -> Cmd.stdout w = [] ->
        Rel (Cmd.homeDirOf cfg host) p = Ok r -> pathString r = "b" ->
        ~ In (Cmd.ListLine Cmd.UNMANAGED p)
             (Cmd.stdout (fst (Cmd.listCmd Examples.literalMatch Checkout cfg host listAll w)))).
Proof.
  apply (ignored_path_not_reported Examples.literalMatch Examples.treesAB
           ["A"] ["B"] ["b"] true "b").
  reflexivity.
Defined.

(** C3 as stated fails for the listing: a tracked file on the ignore list is
    listed. *)
Lemma ignored_path_listed_counterexample :
  Cmd.isIgnored Examples.literalMatch "ignored.txt" (Cmd.root_ignore Examples.ignoringConfig)
  = true
  /\ In (Cmd.ListLine Cmd.PRESENT ["home"; "ignored.txt"])
        (Cmd.stdout (fst (Cmd.listCmd Examples.literalMatch Examples.checkoutOk
                            Examples.ignoringConfig Examples.thisHost true
                            (Examples.startIn Examples.ignoredTracked)))).
Proof.
  split; [reflexivity|]. vm_compute. auto.
Qed.

(** ** The convergence wait *)

Section WaitFacts.

Import Cmd.

Variable Repo : Type.
Variable PlainOpen : path -> gitState Repo -> option error.
Variable WorktreePull : gitState Repo -> gitState Repo * option error.
Variable HeadMessage : gitState Repo -> result string.
Variable localDir : path.
Variable mainID : string.

Local Notation "'headID'" := (GetHeadID PlainOpen HeadMessage localDir).
Local Notation "'pulled'" := (afterPulls PlainOpen WorktreePull localDir).
Local Notation "'wait'" := (waitLoop PlainOpen WorktreePull HeadMessage localDir mainID).

Lemma countSleeps_app a b : countSleeps (a ++ b) = countSleeps a + countSleeps b.
Proof.
  induction a as [|e a IH]; simpl; [reflexivity|]. destruct e; simpl; auto.
Qed.

(** One round that did not match: a pause, a pull, and the next round. *)
Lemma waitLoop_retry rounds (w : World Repo) m :
  headID (git w) = Ok m -> m <> mainID ->
  exists w1,
    wait (S rounds) w = wait rounds w1
    /\ git w1 = fst (Pull PlainOpen WorktreePull localDir (git w))
    /\ countSleeps (stdout w1) = S (countSleeps (stdout w)).
Proof.
  intros Hm Hne. simpl. rewrite Hm.
  apply String.eqb_neq in Hne. rewrite Hne.
  unfold andThen, say, pullWithWarning, andThen, gitOp, say, ret, withGit, git. simpl.
  destruct (Pull PlainOpen WorktreePull localDir (repo w, fs w)) as [g [e|]]; simpl;
    eexists; (split; [reflexivity|]); simpl; (split; [now destruct g|]);
    rewrite !countSleeps_app; simpl; lia.
Qed.

Lemma waitLoop_exact k : forall (w : World Repo),
  (forall i, i < k -> exists m, headID (pulled i (git w)) = Ok m /\ m <> mainID) ->
  headID (pulled k (git w)) = Ok mainID ->
  (forall rounds, k < rounds ->
     exists w', wait rounds w = (w', Val tt)
                /\ git w' = pulled k (git w)
                /\ countSleeps (stdout w') = countSleeps (stdout w) + k)
  /\ (forall rounds, rounds <= k -> snd (wait rounds w) = Waiting).
Proof.
  induction k as [|k IH]; intros w Hbefore Hat.
  - split.
    + intros [|r] Hr; [lia|]. simpl in *. rewrite Hat, String.eqb_refl.
      eexists. split; [reflexivity|]. simpl. split; [reflexivity|].
      rewrite countSleeps_app. simpl. lia.
    + intros rounds Hr. assert (rounds = 0) as -> by lia. reflexivity.
  - destruct (Hbefore 0 ltac:(lia)) as (m & Hm & Hne). simpl in Hm.
    assert (Hstep : forall r, exists w1,
      wait (S r) w = wait r w1
      /\ git w1 = fst (Pull PlainOpen WorktreePull localDir (git w))
      /\ countSleeps (stdout w1) = S (countSleeps (stdout w)))
      by (intros r; eapply waitLoop_retry; eauto).
    split.
    + intros [|r] Hr; [lia|].
      destruct (Hstep r) as (w1 & -> & Hg & Hs).
      destruct (IH w1) as [IH1 _].
      * intros i Hi. rewrite Hg. apply (Hbefore (S i)). lia.
      * rewrite Hg. exact Hat.
      * destruct (IH1 r ltac:(lia)) as (w' & Hw' & Hg' & Hs').
        exists w'. split; [exact Hw'|]. split.
        -- rewrite Hg', Hg. reflexivity.
        -- rewrite Hs', Hs. lia.
    + intros [|r] Hr; [reflexivity|].
      destruct (Hstep r) as (w1 & -> & Hg & Hs).
      destruct (IH w1) as [_ IH2].
      * intros i Hi. rewrite Hg. apply (Hbefore (S i)). lia.
      * rewrite Hg. exact Hat.
      * apply IH2. lia.
Qed.

(** C7. The loop is entered only with the wait flag set and a main marker
    that is not empty.  When the fork marker first equals the main marker
    after [k] pulls, the loop returns once it may enter its body more than
    [k] times, having paused [k] times and pulled [k] times, and it has not
    returned within [k] or fewer rounds; what the pulls answer does not
    matter. *)
Theorem wait_loop_converges k (w : World Repo) :
  (forall i, i < k -> exists m, headID (pulled i (git w)) = Ok m /\ m <> mainID) ->
  headID (pulled k (git w)) = Ok mainID ->
  (forall rounds, k < rounds ->
     exists w', wait rounds w = (w', Val tt)
                /\ git w' = pulled k (git w)
                /\ countSleeps (stdout w') = countSleeps (stdout w) + k)
  /\ (forall rounds, rounds <= k -> snd (wait rounds w) = Waiting)
  /\ (forall updateWait rounds,
        updateWait = false \/ mainID = EmptyString ->
        waitForFork PlainOpen WorktreePull HeadMessage updateWait localDir mainID rounds w
        = (w, Val tt))
  /\ (forall rounds,
        mainID <> EmptyString ->
        waitForFork PlainOpen WorktreePull HeadMessage true localDir mainID rounds w
        = wait rounds (fst (say (Printf "Waiting for fork to sync with main ID..." []) w))).
Proof.
  intros Hbefore Hat.
  destruct (waitLoop_exact k w Hbefore Hat) as [H1 H2].
  split; [exact H1|]. split; [exact H2|]. split.
  - intros updateWait rounds [->| ->]; [reflexivity|].
    unfold waitForFork. simpl. now rewrite andb_false_r.
  - intros rounds Hne. unfold waitForFork.
    apply String.eqb_neq in Hne. rewrite Hne. reflexivity.
Qed.

End WaitFacts.

Lemma wait_loop_converges_witness :
  (forall rounds, 2 < rounds ->
     exists w',
       Cmd.waitLoop Examples.scriptedOpen Examples.scriptedPull Examples.scriptedHead
         ["local"] "id-2" rounds Examples.convergingWorld = (w', Cmd.Val tt)
       /\ Cmd.git w'
          = Cmd.afterPulls Examples.scriptedOpen Examples.scriptedPull ["local"] 2
              (Cmd.git Examples.convergingWorld)
       /\ Cmd.countSleeps (Cmd.stdout w')
          = Cmd.countSleeps (Cmd.stdout Examples.convergingWorld) + 2)
  /\ (forall rounds, rounds <= 2 ->
        snd (Cmd.waitLoop Examples.scriptedOpen Examples.scriptedPull Examples.scriptedHead
               ["local"] "id-2" rounds Examples.convergingWorld) = Cmd.Waiting)
  /\ (forall updateWait rounds,
        updateWait = false \/ "id-2" = EmptyString ->
        Cmd.waitForFork Examples.scriptedOpen Examples.scriptedPull Examples.scriptedHead
          updateWait ["local"] "id-2" rounds Examples.convergingWorld
        = (Examples.convergingWorld, Cmd.Val tt))
  /\ (forall rounds,
        "id-2" <> EmptyString ->
        Cmd.waitForFork Examples.scriptedOpen Examples.scriptedPull Examples.scriptedHead
          true ["local"] "id-2" rounds Examples.convergingWorld
        = Cmd.waitLoop Examples.scriptedOpen Examples.scriptedPull Examples.scriptedHead
            ["local"] "id-2" rounds
            (fst (Cmd.say (Cmd.Printf "Waiting for fork to sync with main ID..." [])
                    Examples.convergingWorld))).
Proof.
  apply (wait_loop_converges (list string) Examples.scriptedOpen Examples.scriptedPull
           Examples.scriptedHead ["local"] "id-2" 2 Examples.convergingWorld).
  - intros i Hi. destruct i as [|[|i]]; [| |lia].
    + exists "id-0". split; [reflexivity|discriminate].
    + exists "id-1". split; [reflexivity|discriminate].
  - reflexivity.
Defined.

(** ** Applying a diff *)

Section ApplyFacts.

Import Cmd.

Lemma stat_Chmod_same p : forall fs c m0 m,
  Stat fs p = Ok (File c m0) ->
  exists fs', Chmod fs p m = Ok fs' /\ Stat fs' p = Ok (File c m).
Proof.
  induction p as [|x p' IH]; intros fs c m0 m H; simpl in *.
  - injection H as ->. eauto.
  - destruct fs as [|es]; [discriminate|].
    destruct (find x es) as [n|] eqn:F; [|discriminate].
    destruct (IH n c m0 m H) as (n' & -> & Hn'). simpl.
    eexists. split; [reflexivity|]. simpl. now rewrite find_set_same.
Qed.

(** A copy that succeeds leaves the destination with the mode of the source
    and, when the two are different files, with its content. *)
Lemma copyFile_mode src dst fs fs' c m :
  Stat fs src = Ok (File c m) ->
  copyFile src dst fs = (fs', None) ->
  exists c', Stat fs' dst = Ok (File c' m) /\ (src <> dst -> c' = c).
Proof.
  intros Hsrc. unfold copyFile.
  destruct (MkdirAll fs (Dir' dst)) as [fs1|] eqn:HM; [|discriminate].
  pose proof (stat_MkdirAll_file _ _ _ _ _ _ HM Hsrc) as H1. rewrite H1.
  unfold Create, WriteFile.
  destruct (createTrunc fs1 dst "" mode0666) as [fs2|] eqn:HC; [|discriminate].
  assert (H2 : exists c2, Stat fs2 src = Ok (File c2 m) /\ (src <> dst -> c2 = c)).
  { destruct (list_eq_dec string_dec src dst) as [->|Hne].
    - pose proof (stat_createTrunc_same _ _ _ _ _ HC) as HS. rewrite H1 in HS.
      exists EmptyString. split; [exact HS|congruence].
    - exists c. split; [|reflexivity]. eapply stat_createTrunc_other; eauto. }
  destruct H2 as (c2 & H2 & Hc2). unfold ReadFile. rewrite H2.
  destruct (createTrunc fs2 dst c2 mode0666) as [fs3|] eqn:HW; [|discriminate].
  assert (H3 : Stat fs3 src = Ok (File c2 m)).
  { destruct (list_eq_dec string_dec src dst) as [->|Hne].
    - pose proof (stat_createTrunc_same _ _ _ _ _ HW) as HS. now rewrite H2 in HS.
    - eapply stat_createTrunc_other; eauto. }
  rewrite H3. simpl.
  pose proof (stat_createTrunc_same _ _ _ _ _ HW) as H4.
  destruct (stat_Chmod_same _ _ _ _ m H4) as (fs4 & -> & H5).
  intros [= <-]. eauto.
Qed.

Variable Repo : Type.

Lemma applyDiffs_app localDir homeDir pre : forall post (w : World Repo),
  applyDiffs localDir homeDir (pre ++ post) w
  = andThen (applyDiffs localDir homeDir pre)
            (fun _ => applyDiffs localDir homeDir post) w.
Proof.
  induction pre as [|rel pre IH]; intros post w; [reflexivity|].
  simpl. unfold andThen, say, fsOp, fail. simpl.
  destruct (copyFile (Join localDir rel) (Join homeDir rel) (fs w)) as [fs1 [e|]]; simpl;
    [reflexivity|].
  rewrite IH. reflexivity.
Qed.

(** The changes [getDiffs] returns are the paths of the lines it prints, in
    the order it prints them. *)
Lemma getDiffs_order Match fs sourceDir targetDir ignores :
  map pathString (snd (fst (getDiffs Match fs sourceDir targetDir ignores [])))
  = diffRels (fst (fst (getDiffs Match fs sourceDir targetDir ignores []))).
Proof.
  unfold getDiffs.
  apply (WalkDir_inv (list event * paths) _
           (fun s => map pathString (snd s) = diffRels (fst s))); [|reflexivity].
  clear. intros p d e [evs chs] H. simpl in *.
  assert (K : forall c r, diffRels (evs ++ [DiffLine c r]) = diffRels evs ++ [r]).
  { intros c r. clear. induction evs as [|e0 evs IH]; simpl; [reflexivity|].
    destruct e0; simpl; now rewrite ?IH. }
  callbackCases; simpl; auto; now rewrite map_app, K, H.
Qed.

(** C9, as the code has it.  The entries are copied in the order of the
    report; a copy gives the destination the mode of the fork file; when the
    copy of an entry fails, the world is the one the copies before it left,
    with what the failed copy had done, the entries after it are not
    touched, and the error names the entry that failed and no other. *)
Theorem apply_stops_at_first_failure localDir homeDir pre rel post
    (w w1 : World Repo) fsErr err :
  applyDiffs localDir homeDir pre w = (w1, Val tt) ->
  copyFile (Join localDir rel) (Join homeDir rel) (fs w1) = (fsErr, Some err) ->
  applyDiffs localDir homeDir (pre ++ rel :: post) w
  = ({| repo := repo w1; fs := fsErr; stdin := stdin w1;
        stdout := stdout w1 ++ [Printf "Updating %s..." [pathString rel]] |},
     Err (Wrapf "failed to update %s: %w" [pathString rel] err))
  /\ (forall src dst fs0 fs' c m,
        Stat fs0 src = Ok (File c m) ->
        copyFile src dst fs0 = (fs', None) ->
        exists c', Stat fs' dst = Ok (File c' m) /\ (src <> dst -> c' = c))
  /\ (forall Match fs0 ignores,
        map pathString (snd (fst (getDiffs Match fs0 localDir homeDir ignores [])))
        = diffRels (fst (fst (getDiffs Match fs0 localDir homeDir ignores [])))).
Proof.
  intros Hpre Hcopy. split; [|split].
  - rewrite applyDiffs_app. unfold andThen at 1. rewrite Hpre. simpl.
    unfold andThen, say, fsOp, fail. simpl. now rewrite Hcopy.
  - intros. eapply copyFile_mode; eauto.
  - intros. apply getDiffs_order.
Qed.

End ApplyFacts.

Lemma apply_stops_at_first_failure_witness :
  exists w1 fsErr err,
    Cmd.applyDiffs ["local"] ["home"] ([["a"]] ++ ["x"] :: [["z"]])
      (Examples.startIn Examples.blockedHome)
    = ({| Cmd.repo := Cmd.repo w1; Cmd.fs := fsErr; Cmd.stdin := Cmd.stdin w1;
          Cmd.stdout := Cmd.stdout w1 ++ [Cmd.Printf "Updating %s..." ["x"]] |},
       Cmd.Err (Wrapf "failed to update %s: %w" ["x"] err))
    /\ Stat fsErr ["home"; "a"] = Ok (File "1" Examples.mode0600).
Proof.
  eexists _, _, _. split.
  - refine (proj1 (apply_stops_at_first_failure unit ["local"] ["home"] [["a"]] ["x"] [["z"]]
                     (Examples.startIn Examples.blockedHome) _ _ _ _ _)).
    + vm_compute. reflexivity.
    + vm_compute. reflexivity.
  - vm_compute. reflexivity.
Defined.

(** C9 as stated fails in its last clause: [z] is a change that was not
    applied, and neither the error nor the output of the copy loop names
    it. *)
Lemma apply_report_counterexample :
  let diffs := snd (fst (Cmd.getDiffs Examples.literalMatch Examples.blockedHome
                           ["local"] ["home"] [] [])) in
  let run := Cmd.applyDiffs ["local"] ["home"] diffs (Examples.startIn Examples.blockedHome) in
  diffs = [["a"]; ["x"]; ["z"]]
  /\ Cmd.notExist (Cmd.fs (fst run)) ["home"; "z"] = true
  /\ exists e, snd run = Cmd.Err e
               /\ ~ In "z" (Cmd.namedIn e)
               /\ Cmd.stdout (fst run)
                  = [Cmd.Printf "Updating %s..." ["a"]; Cmd.Printf "Updating %s..." ["x"]].
Proof.
  vm_compute. split; [reflexivity|]. split; [reflexivity|].
  eexists. split; [reflexivity|]. split; [|reflexivity].
  simpl. intros [H|[]]. discriminate.
Qed.

(** ** The pass-through resolver *)

Section PassThroughFacts.

Import Template.

Lemma append_assoc (a b c : string) : ((a ++ b) ++ c = a ++ (b ++ c))%string.
Proof.
  induction a as [|x a IH]; simpl; [reflexivity|]. now rewrite IH.
Qed.

Lemma length_append (a b : string) :
  String.length (a ++ b) = String.length a + String.length b.
Proof.
  induction a as [|x a IH]; simpl; [reflexivity|]. now rewrite IH.
Qed.

Lemma lexText_plain t : forall r,
  plain t = true -> lexText (t ++ String "{" (String "{" r)) = (t, Some r).
Proof.
  induction t as [|c t IH]; intros r Hp; [reflexivity|].
  cbn [plain] in Hp. cbn [append lexText].
  destruct (Ascii.eqb c "{") eqn:Ec.
  - destruct t as [|d t']; [discriminate|].
    apply andb_prop in Hp. destruct Hp as [Hd Ht].
    apply negb_true_iff in Hd. cbn [append]. rewrite Hd.
    change (String d (t' ++ String "{" (String "{" r)))%string
      with (String d t' ++ String "{" (String "{" r))%string.
    now rewrite (IH r Ht).
  - now rewrite (IH r Hp).
Qed.

Lemma lexText_noDelim t : noDelim t = true -> lexText t = (t, None).
Proof.
  induction t as [|c t IH]; intros Hp; [reflexivity|].
  cbn [noDelim] in Hp. cbn [lexText].
  destruct (Ascii.eqb c "{") eqn:Ec.
  - destruct t as [|d t']; [reflexivity|].
    apply andb_prop in Hp. destruct Hp as [Hd Ht].
    apply negb_true_iff in Hd. rewrite Hd. now rewrite (IH Ht).
  - now rewrite (IH Hp).
Qed.

(** A quoted character reads back as the character. *)
Lemma lexQuote_quoteChar c s : lexQuote (quoteChar c ++ s) = consTo c (lexQuote s).
Proof.
  destruct c as [[] [] [] [] [] [] [] []]; reflexivity.
Qed.

Lemma lexQuote_quoteBody k : forall rest,
  lexQuote (quoteBody k ++ String dquote rest) = Ok (k, rest).
Proof.
  induction k as [|c k IH]; intros rest; [reflexivity|].
  cbn [quoteBody]. rewrite append_assoc, lexQuote_quoteChar, IH. reflexivity.
Qed.

Lemma placeholder_shape k rest :
  (" " ++ Quote k ++ " | secret }}" ++ rest)%string
  = String " " (String dquote (quoteBody k ++ String dquote (" | secret }}" ++ rest))).
Proof.
  unfold Quote. cbn [append]. now rewrite append_assoc.
Qed.

Lemma parseAction_placeholder k rest :
  parseAction (" " ++ Quote k ++ " | secret }}" ++ rest) = Ok (SecretNode k, rest).
Proof.
  unfold parseAction. rewrite placeholder_shape.
  set (body := (quoteBody k ++ String dquote (" | secret }}" ++ rest))%string).
  replace (skipSpace (String " " (String dquote body))) with (String dquote body)
    by reflexivity.
  cbv iota beta.
  replace (Ascii.eqb dquote ".") with false by reflexivity.
  replace (Ascii.eqb dquote dquote) with true by reflexivity.
  cbv iota. unfold body. rewrite lexQuote_quoteBody. reflexivity.
Qed.

Lemma fileOf_cons t k rest tail :
  fileOf ((t, k) :: rest) tail
  = (t ++ String "{" (String "{" (" " ++ Quote k ++ " | secret }}" ++ fileOf rest tail)))%string.
Proof.
  cbn [fileOf]. unfold placeholder. f_equal.
  change ("{{ " ++ Quote k ++ " | secret }}")%string
    with (String "{" (String "{" (" " ++ (Quote k ++ " | secret }}"))))%string.
  cbn [append]. now rewrite append_assoc.
Qed.

(** A file of text and placeholders parses to its text and secret nodes. *)
Lemma parseLoop_fileOf tail : noDelim tail = true ->
  forall segs fuel,
  Forall (fun seg => plain (fst seg) = true) segs ->
  length segs <= fuel ->
  parseLoop fuel (fileOf segs tail) = Ok (nodesOf segs tail).
Proof.
  intros Htail. induction segs as [|[t k] rest IH]; intros fuel Hsegs Hfuel.
  - cbn [fileOf nodesOf]. destruct fuel; cbn [parseLoop]; now rewrite lexText_noDelim.
  - inversion Hsegs as [|? ? Ht Hrest]; subst. simpl in Ht, Hfuel.
    destruct fuel as [|fuel]; [lia|].
    rewrite fileOf_cons. cbn [parseLoop]. rewrite (lexText_plain _ _ Ht).
    rewrite parseAction_placeholder. cbn [bind fst snd].
    rewrite IH by (auto; lia). reflexivity.
Qed.

Lemma length_fileOf segs tail : length segs <= String.length (fileOf segs tail).
Proof.
  induction segs as [|[t k] rest IH]; [simpl; lia|].
  rewrite fileOf_cons, length_append. cbn [String.length].
  rewrite !length_append. cbn [length]. lia.
Qed.

Lemma Parse_fileOf segs tail :
  Forall (fun seg => plain (fst seg) = true) segs -> noDelim tail = true ->
  Parse (fileOf segs tail) = Ok (nodesOf segs tail).
Proof.
  intros Hsegs Htail. unfold Parse. apply parseLoop_fileOf; auto using length_fileOf.
Qed.

Lemma Execute_textNode funcs t tmpl data :
  Execute funcs (textNode t ++ tmpl) data
  = (out <- Execute funcs tmpl data ;; Ok (t ++ out)%string).
Proof.
  destruct t; simpl.
  - destruct (Execute funcs tmpl data); reflexivity.
  - destruct (Execute funcs tmpl data); reflexivity.
Qed.

Lemma Execute_nodesOf segs tail data :
  Execute Cmd.passThrough (nodesOf segs tail) data = Ok (fileOf segs tail).
Proof.
  induction segs as [|[t k] rest IH].
  - cbn [nodesOf fileOf]. destruct tail as [|c t]; [reflexivity|].
    simpl. f_equal. f_equal. clear. induction t as [|d t IH]; [reflexivity|].
    simpl. now rewrite IH.
  - cbn [nodesOf fileOf]. rewrite Execute_textNode.
    cbn [Execute evalNode]. unfold Cmd.passThrough at 1. cbn [bind].
    rewrite IH. reflexivity.
Qed.

Lemma createTrunc_same p : forall fs c m perm,
  Stat fs p = Ok (File c m) -> createTrunc fs p c perm = Ok fs.
Proof.
  induction p as [|x p' IH]; intros fs c m perm H; simpl in *.
  - now injection H as ->.
  - destruct fs as [|es]; [discriminate|].
    destruct (find x es) as [n|] eqn:F; [|discriminate].
    rewrite (IH n c m perm H). simpl. now rewrite set_same.
Qed.


End PassThroughFacts.



(** ** Reifying twice without secrets *)

Section ShapeFacts.

Lemma find_shapeIn x es :
  find x (shapeIn es) = match find x es with Some n => Some (shape n) | None => None end.
Proof.
  induction es as [|y n rest IH]; simpl; [reflexivity|].
  destruct (String.eqb x y); auto.
Qed.

Lemma shapeIn_set x n n' es :
  find x es = Some n -> shape n' = shape n -> shapeIn (set x n' es) = shapeIn es.
Proof.
  intros F Hs. unfold set. rewrite F. revert F.
  induction es as [|y k rest IH]; simpl; [discriminate|].
  destruct (String.eqb x y); simpl.
  - intros [= ->]. now rewrite Hs.
  - intros F. now rewrite IH.
Qed.

Lemma createTrunc_shape p : forall fs fs' c m data perm,
  Stat fs p = Ok (File c m) -> createTrunc fs p data perm = Ok fs' -> shape fs' = shape fs.
Proof.
  induction p as [|x p' IH]; intros fs fs' c m data perm HS H; simpl in *.
  - injection HS as ->. now injection H as <-.
  - destruct fs as [|es]; [discriminate|].
    destruct (find x es) as [n|] eqn:F; [|discriminate].
    destruct (createTrunc n p' data perm) as [n'|] eqn:E; [|discriminate].
    simpl in H. injection H as <-. simpl. f_equal.
    eapply shapeIn_set; eauto.
Qed.

Lemma createTrunc_existing p : forall fs c m data perm,
  Stat fs p = Ok (File c m) -> exists fs', createTrunc fs p data perm = Ok fs'.
Proof.
  induction p as [|x p' IH]; intros fs c m data perm HS; simpl in *.
  - injection HS as ->. eauto.
  - destruct fs as [|es]; [discriminate|].
    destruct (find x es) as [n|] eqn:F; [|discriminate].
    destruct (IH n c m data perm HS) as [n' ->]. simpl. eauto.
Qed.

Lemma Stat_shape p : forall fs,
  match Stat fs p with
  | Ok n => Stat (shape fs) p = Ok (shape n)
  | Fail _ => exists e, Stat (shape fs) p = Fail e
  end.
Proof.
  induction p as [|x p' IH]; intros fs; simpl; [reflexivity|].
  destruct fs as [|es]; simpl; [eauto|].
  rewrite find_shapeIn. destruct (find x es) as [n|]; [apply IH|eauto].
Qed.

Lemma walkFiles_shape :
  (forall n p name, walkFiles p name (shape n) = walkFiles p name n)
  /\ (forall es p, walkFilesIn p (shapeIn es) = walkFilesIn p es).
Proof.
  apply node_dirents_ind; simpl; intros.
  - reflexivity.
  - destruct (String.eqb name ".git"); auto.
  - reflexivity.
  - now rewrite H, H0.
Qed.

Lemma filesUnder_shape fs root : filesUnder (shape fs) root = filesUnder fs root.
Proof.
  unfold filesUnder. pose proof (Stat_shape root fs) as H.
  destruct (Stat fs root) as [n|e].
  - rewrite H. apply walkFiles_shape.
  - destruct H as [e' ->]. reflexivity.
Qed.

Lemma Stat_same_shape fs fs' root n :
  shape fs' = shape fs -> Stat fs root = Ok n -> exists n', Stat fs' root = Ok n'.
Proof.
  intros Hs H. pose proof (Stat_shape root fs) as H1. pose proof (Stat_shape root fs') as H2.
  rewrite H in H1. destruct (Stat fs' root) as [n'|e]; [eauto|].
  destruct H2 as [e' H2]. congruence.
Qed.

End ShapeFacts.

Section ParseFacts.

Import Template.

Lemma lexText_other d r :
  Ascii.eqb d "{" = false ->
  lexText (String d r) = (String d (fst (lexText r)), snd (lexText r)).
Proof.
  intros Hd. cbn [lexText]. rewrite Hd. now destruct (lexText r).
Qed.

Lemma lexText_brace d r :
  Ascii.eqb d "{" = false ->
  lexText (String "{" (String d r))
  = (String "{" (fst (lexText (String d r))), snd (lexText (String d r))).
Proof.
  intros Hd. cbn [lexText]. change (Ascii.eqb "{" "{") with true. cbv iota. rewrite Hd.
  now destruct (lexText r).
Qed.

Lemma eqb_brace c : Ascii.eqb c "{" = true -> c = "{"%char.
Proof. apply Ascii.eqb_eq. Qed.

(** The text the lexer cuts before a delimiter can stand before a
    placeholder, and the text it returns at the end holds no delimiter. *)
Lemma lexText_cut s : forall t k,
  lexText s = (t, k) ->
  match k with
  | Some _ => plain t = true
  | None => noDelim t = true
  end.
Proof.
  induction s as [|c r IH]; intros t k H.
  - cbn in H. injection H as <- <-. reflexivity.
  - destruct (Ascii.eqb c "{") eqn:Ec.
    + apply eqb_brace in Ec. subst c. destruct r as [|d r'].
      * cbn in H. injection H as <- <-. reflexivity.
      * destruct (Ascii.eqb d "{") eqn:Ed.
        -- cbn [lexText] in H. change (Ascii.eqb "{" "{") with true in H. cbv iota in H.
           rewrite Ed in H. injection H as <- <-. reflexivity.
        -- rewrite (lexText_brace _ _ Ed) in H.
           destruct (lexText (String d r')) as [t0 k0] eqn:E0. cbn [fst snd] in H.
           injection H as <- <-.
           pose proof (IH _ _ eq_refl) as HI.
           rewrite (lexText_other _ _ Ed) in E0. injection E0 as <- <-.
           destruct (snd (lexText r')); cbn [plain noDelim] in HI |- *;
             change (Ascii.eqb "{" "{") with true; cbv iota;
             rewrite Ed in HI |- *; exact HI.
    + rewrite (lexText_other _ _ Ec) in H. injection H as <- <-.
      pose proof (IH _ _ (surjective_pairing _)) as HI.
      destruct (snd (lexText r)); cbn [plain noDelim]; rewrite Ec; exact HI.
Qed.

Lemma parseAction_kind s n rest :
  parseAction s = Ok (n, rest) -> isField n = true \/ exists k, n = SecretNode k.
Proof.
  unfold parseAction. destruct (skipSpace s) as [|c r]; [discriminate|].
  destruct (Ascii.eqb c ".").
  - destruct (lexFields r "" []) as [fr|]; [|discriminate]. cbn [bind].
    destruct (expect _ _ _); [|discriminate]. cbn [bind]. intros [= <- _]. now left.
  - destruct (Ascii.eqb c dquote); [|discriminate].
    destruct (lexQuote r) as [kr|]; [|discriminate]. cbn [bind].
    destruct (expect _ _ _); [|discriminate]. cbn [bind].
    destruct (expect _ _ _); [|discriminate]. cbn [bind].
    destruct (expect _ _ _); [|discriminate]. cbn [bind].
    intros [= <- _]. right. eauto.
Qed.

Lemma noField_app a b : noField (a ++ b) = noField a && noField b.
Proof. apply forallb_app. Qed.

(** A template without lookups is the template of a file of text and
    placeholders. *)
Lemma parseLoop_secretOnly fuel : forall s tmpl,
  parseLoop fuel s = Ok tmpl -> noField tmpl = true ->
  exists segs tail,
    tmpl = nodesOf segs tail
    /\ Forall (fun seg => plain (fst seg) = true) segs
    /\ noDelim tail = true.
Proof.
  induction fuel as [|fuel IH]; intros s tmpl H Hnf.
  - cbn [parseLoop] in H. destruct (lexText s) as [t [r|]] eqn:EL; [discriminate|].
    injection H as <-. exists [], t. repeat split; [constructor|].
    exact (lexText_cut _ _ _ EL).
  - cbn [parseLoop] in H. destruct (lexText s) as [t [r|]] eqn:EL.
    + destruct (parseAction r) as [[n rest]|] eqn:EA; [|discriminate]. cbn [bind fst snd] in H.
      destruct (parseLoop fuel rest) as [nodes|] eqn:EP; [|discriminate]. cbn [bind] in H.
      injection H as <-. rewrite noField_app in Hnf.
      apply andb_prop in Hnf. destruct Hnf as [_ Hnf]. cbn [noField forallb] in Hnf.
      apply andb_prop in Hnf. destruct Hnf as [Hn Hnodes].
      destruct (parseAction_kind _ _ _ EA) as [Hf|[k ->]];
        [rewrite Hf in Hn; discriminate|].
      destruct (IH _ _ EP Hnodes) as (segs & tail & -> & Hsegs & Htail).
      exists ((t, k) :: segs), tail. repeat split; [|exact Htail].
      constructor; [exact (lexText_cut _ _ _ EL)|exact Hsegs].
    + injection H as <-. exists [], t. repeat split; [constructor|].
      exact (lexText_cut _ _ _ EL).
Qed.

Lemma noField_textNode t : noField (textNode t) = true.
Proof. now destruct t. Qed.

Lemma noField_nodesOf segs tail : noField (nodesOf segs tail) = true.
Proof.
  induction segs as [|[t k] rest IH]; cbn [nodesOf].
  - apply noField_textNode.
  - rewrite noField_app, noField_textNode. cbn [noField forallb isField negb andb].
    exact IH.
Qed.

End ParseFacts.

Section IdempotenceFacts.

Import Template Processor.

Variable data : fields.

Local Notation "'secretOnly'" := Cmd.secretOnly.
Local Notation "'stable'" := (Cmd.stable data).
Local Notation "'fileWith'" := Cmd.fileWith.

Lemma stable_secretOnly c : stable c -> secretOnly c.
Proof. intros (tmpl & HP & Hnf & _). exists tmpl. auto. Qed.

(** What a template without lookups renders to is stable. *)
Lemma render_secretOnly c tmpl :
  Parse c = Ok tmpl -> noField tmpl = true ->
  exists out, Execute Cmd.passThrough tmpl data = Ok out /\ stable out.
Proof.
  intros HP Hnf. unfold Parse in HP.
  destruct (parseLoop_secretOnly _ _ _ HP Hnf) as (segs & tail & -> & Hsegs & Htail).
  exists (fileOf segs tail). split; [apply Execute_nodesOf|].
  exists (nodesOf segs tail). split; [now apply Parse_fileOf|].
  split; [apply noField_nodesOf|apply Execute_nodesOf].
Qed.

Lemma ReadFile_file fs p c m : Stat fs p = Ok (File c m) -> ReadFile fs p = Ok c.
Proof. unfold ReadFile. now intros ->. Qed.

Lemma ReadFile_inv fs p c : ReadFile fs p = Ok c -> exists m, Stat fs p = Ok (File c m).
Proof.
  unfold ReadFile. destruct (Stat fs p) as [[c' m|es]|e].
  - intros [= ->]. eauto.
  - discriminate.
  - destruct e; discriminate.
Qed.

(** Rewriting one file without lookups: it becomes stable, it keeps its
    mode, the tree keeps its shape and the other files are untouched. *)
Lemma processFile_secretOnly fs p :
  fileWith secretOnly fs p ->
  exists fs',
    processFile p data Cmd.passThrough false fs = (fs', None)
    /\ fileWith stable fs' p
    /\ shape fs' = shape fs
    /\ (forall q c m, q <> p -> Stat fs q = Ok (File c m) -> Stat fs' q = Ok (File c m)).
Proof.
  intros (c & m & HS & tmpl & HP & Hnf).
  destruct (render_secretOnly c tmpl HP Hnf) as (out & HE & Hst).
  destruct (createTrunc_existing p fs c m out m HS) as [fs' HW].
  exists fs'. unfold processFile, renderAndWrite, WriteFile.
  rewrite (ReadFile_file _ _ _ _ HS), HP, HE, HS. cbn [Mode]. rewrite HW.
  split; [reflexivity|]. split; [|split].
  - exists out, m. split; [|exact Hst].
    pose proof (stat_createTrunc_same _ _ _ _ _ HW) as H. now rewrite HS in H.
  - eapply createTrunc_shape; eauto.
  - intros q c' m' Hq Hq'. eapply stat_createTrunc_other; eauto.
Qed.

Lemma processFile_stable fs p :
  fileWith stable fs p -> processFile p data Cmd.passThrough false fs = (fs, None).
Proof.
  intros (c & m & HS & tmpl & HP & Hnf & HE).
  unfold processFile, renderAndWrite, WriteFile.
  rewrite (ReadFile_file _ _ _ _ HS), HP, HE, HS. cbn [Mode].
  now rewrite (createTrunc_same _ _ _ _ _ HS).
Qed.

Lemma processFile_dry_secretOnly fs p :
  fileWith secretOnly fs p -> processFile p data Cmd.passThrough true fs = (fs, None).
Proof.
  intros (c & m & HS & tmpl & HP & Hnf).
  destruct (render_secretOnly c tmpl HP Hnf) as (out & HE & _).
  unfold processFile, renderAndWrite.
  now rewrite (ReadFile_file _ _ _ _ HS), HP, HE.
Qed.

Lemma fileWith_frame (P : string -> Prop) fs fs' p q :
  (forall q c m, q <> p -> Stat fs q = Ok (File c m) -> Stat fs' q = Ok (File c m)) ->
  q <> p -> fileWith P fs q -> fileWith P fs' q.
Proof.
  intros Hfr Hq (c & m & HS & HP). exists c, m. split; [eapply Hfr; eauto|exact HP].
Qed.

Lemma forEachFile_dry_secretOnly ps : forall fs,
  (forall p, In p ps -> fileWith secretOnly fs p) ->
  forEachFile (fun p => processFile p data Cmd.passThrough true) ps fs = (fs, None).
Proof.
  induction ps as [|p ps IH]; intros fs H; [reflexivity|]. cbn [forEachFile].
  rewrite processFile_dry_secretOnly by (apply H; now left).
  apply IH. intros q Hq. apply H. now right.
Qed.

Lemma forEachFile_stable ps : forall fs,
  (forall p, In p ps -> fileWith stable fs p) ->
  forEachFile (fun p => processFile p data Cmd.passThrough false) ps fs = (fs, None).
Proof.
  induction ps as [|p ps IH]; intros fs H; [reflexivity|]. cbn [forEachFile].
  rewrite processFile_stable by (apply H; now left).
  apply IH. intros q Hq. apply H. now right.
Qed.

(** The commit pass over files without lookups leaves every one of them
    stable. *)
Lemma forEachFile_secretOnly all ps : forall fs,
  incl ps all ->
  (forall p, In p all -> fileWith secretOnly fs p) ->
  exists fs',
    forEachFile (fun p => processFile p data Cmd.passThrough false) ps fs = (fs', None)
    /\ shape fs' = shape fs
    /\ (forall p, In p all -> fileWith secretOnly fs' p)
    /\ (forall q, In q ps \/ fileWith stable fs q -> fileWith stable fs' q).
Proof.
  induction ps as [|p ps IH]; intros fs Hincl Hall.
  - exists fs. repeat split; auto. intros q [[]|H]; exact H.
  - assert (Hp : In p all) by (apply Hincl; now left).
    destruct (processFile_secretOnly fs p (Hall p Hp)) as (fs1 & H1 & Hst & Hsh & Hfr).
    assert (Hall1 : forall q, In q all -> fileWith secretOnly fs1 q).
    { intros q Hq. destruct (list_eq_dec string_dec q p) as [->|Hne].
      - destruct Hst as (c & m & HS & Hc). exists c, m. auto using stable_secretOnly.
      - eapply fileWith_frame; eauto. }
    destruct (IH fs1) as (fs' & H' & Hsh' & Hall' & Hst'); auto.
    { intros q Hq. apply Hincl. now right. }
    exists fs'. cbn [forEachFile]. rewrite H1. split; [exact H'|].
    split; [congruence|]. split; [exact Hall'|].
    intros q Hq. apply Hst'.
    destruct (list_eq_dec string_dec q p) as [->|Hne]; [now right|].
    destruct Hq as [[->|Hq]|Hq]; [congruence|now left|].
    right. eapply fileWith_frame; eauto.
Qed.


End IdempotenceFacts.



(** ** Runs of the repository's tests and of the specification's scenario *)

Example reify_with_secret :
  let r := Cmd.reifyCmd Examples.plainConfig ["root"] true
             (Examples.secretRepo (Some "KEY=MySecret")) in
  snd r = None /\ ReadFile (fst r) ["root"; "file.txt"] = Ok "Val: MySecret".
Proof. vm_compute. auto. Qed.

Example reify_without_secret :
  Cmd.reifyCmd Examples.plainConfig ["root"] false (Examples.secretRepo None)
  = (Examples.secretRepo None, None).
Proof. vm_compute. reflexivity. Qed.

Example reify_missing_store :
  Cmd.reifyCmd Examples.plainConfig ["root"] true (Examples.secretRepo None)
  = (Examples.secretRepo None,
     Some (Wrapf "failed to read .env at %s: %w" ["root/.env"]
             (PathError "open" ENOENT))).
Proof. vm_compute. reflexivity. Qed.

Example reify_missing_key :
  exists cause,
    Cmd.reifyCmd Examples.plainConfig ["root"] true
      (Examples.secretRepo (Some "OTHER=MySecret"))
    = (Examples.secretRepo (Some "OTHER=MySecret"),
       Some (Wrapf "dry-run failed: %w" []
               (Wrapf "failed to execute template %s: %w" ["root/file.txt"] cause)))
    /\ In "KEY" (Cmd.namedIn cause).
Proof. eexists. split; [vm_compute; reflexivity|]. simpl. auto. Qed.

Example head_marker :
  Gitops.headIDOf (Cmd.GenerateCommitMessage "Update .bashrc via scadu edit" "0b7e-41")
  = "0b7e-41".
Proof. vm_compute. reflexivity. Qed.

Example head_without_marker : Gitops.headIDOf "Initial" = EmptyString.
Proof. vm_compute. reflexivity. Qed.

Example check_local_status :
  Cmd.compareDirs Examples.literalMatch Examples.checkTree ["local"] ["home"]
    ["ignored.txt"] true []
  = ([Cmd.DiffLine Cmd.Modified "file2.conf";
      Cmd.DiffLine Cmd.New "missing_in_home.txt";
      Cmd.DiffLine Cmd.Deleted "extra.txt"], None).
Proof. vm_compute. reflexivity. Qed.

Example update_with_changes :
  let r := Cmd.updateCmd Examples.literalMatch Examples.checkoutOk Examples.quietOpen
             Examples.quietPush Examples.quietPull Examples.quietHead
             Examples.plainConfig Examples.thisHost false 0 Examples.updateWorld in
  snd r = Cmd.Val tt
  /\ ReadFile (Cmd.fs (fst r)) ["home"; "file.txt"] = Ok "v2"
  /\ Cmd.diffRels (Cmd.stdout (fst r)) = ["file.txt"].
Proof. vm_compute. auto. Qed.

(** * Further properties of the code *)

(** ** The files a walk reaches *)

Section WalkPaths.

Lemma hasName_find x es c : find x es = Some c -> hasName x es = true.
Proof.
  induction es as [|y n rest IH]; simpl; [discriminate|].
  destruct (String.eqb x y); [reflexivity|exact IH].
Qed.

Lemma removelast_cons_git x rel name :
  outsideGit name rel -> (rel <> [] -> x <> ".git") ->
  ~ In ".git" (removelast (x :: rel)).
Proof.
  intros [Hg _] Hx. destruct rel as [|y r]; [simpl; tauto|].
  change (removelast (x :: y :: r)) with (x :: removelast (y :: r)).
  intros [H|H]; [apply Hx; [discriminate|congruence]|contradiction].
Qed.

(** Every path of a walk lies under the root of the walk and passes through
    no directory named [.git]. *)
Lemma walkFiles_paths :
  (forall n p name q, In q (walkFiles p name n) ->
     exists rel, q = p ++ rel /\ outsideGit name rel)
  /\ (forall es p q, In q (walkFilesIn p es) ->
       exists x rel, q = p ++ x :: rel /\ hasName x es = true
                     /\ ~ In ".git" (removelast (x :: rel))).
Proof.
  apply node_dirents_ind.
  - intros c m p name q [<-|[]]. exists []. rewrite app_nil_r.
    split; [reflexivity|]. split; [simpl; tauto|congruence].
  - intros es IH p name q Hin. simpl in Hin.
    destruct (String.eqb name ".git") eqn:E; [contradiction|].
    destruct (IH _ _ Hin) as (x & rel & -> & _ & Hg).
    exists (x :: rel). split; [reflexivity|]. split; [exact Hg|].
    intros _. now apply String.eqb_neq.
  - intros p q [].
  - intros x n IHn rest IHrest p q Hin. simpl in Hin.
    apply in_app_or in Hin. destruct Hin as [Hin|Hin].
    + destruct (IHn _ _ _ Hin) as (rel & -> & Hout).
      exists x, rel. rewrite <- app_assoc. split; [reflexivity|].
      split; [simpl; now rewrite String.eqb_refl|].
      eapply removelast_cons_git; [exact Hout|]. apply Hout.
    + destruct (IHrest _ _ Hin) as (y & rel & -> & Hy & Hg).
      exists y, rel. split; [reflexivity|]. split; [|exact Hg].
      simpl. rewrite Hy. apply orb_true_r.
Qed.

Lemma find_distinct x es c :
  distinctIn es = true -> find x es = Some c -> distinctNames c = true.
Proof.
  induction es as [|y n rest IH]; simpl; [discriminate|].
  intros Hd. apply andb_prop in Hd. destruct Hd as [Hd Hrest].
  apply andb_prop in Hd. destruct Hd as [_ Hn].
  destruct (String.eqb x y); [now intros [= <-]|auto].
Qed.

Lemma Stat_distinct p : forall fs n,
  distinctNames fs = true -> Stat fs p = Ok n -> distinctNames n = true.
Proof.
  induction p as [|x p IH]; intros fs n Hd H; simpl in H.
  - now injection H as <-.
  - destruct fs as [|es]; [discriminate|].
    destruct (find x es) as [c|] eqn:F; [|discriminate].
    eapply IH; [|exact H]. eapply find_distinct; eauto.
Qed.

Lemma Stat_app a : forall fs b,
  Stat fs (a ++ b) = (n <- Stat fs a ;; Stat n b).
Proof.
  induction a as [|x a IH]; intros fs b; [reflexivity|]. simpl.
  destruct fs as [|es]; [reflexivity|].
  destruct (find x es); [apply IH|reflexivity].
Qed.

(** In a tree of distinct names every path of a walk is a regular file. *)
Lemma walkFiles_sound :
  (forall n p name q, distinctNames n = true -> In q (walkFiles p name n) ->
     exists rel c m, q = p ++ rel /\ Stat n rel = Ok (File c m))
  /\ (forall es p q, distinctIn es = true -> In q (walkFilesIn p es) ->
       exists x rel c m, q = p ++ x :: rel /\ Stat (Dir es) (x :: rel) = Ok (File c m)).
Proof.
  apply node_dirents_ind.
  - intros c m p name q _ [<-|[]]. exists [], c, m. now rewrite app_nil_r.
  - intros es IH p name q Hd Hin. simpl in Hin, Hd.
    destruct (String.eqb name ".git"); [contradiction|].
    destruct (IH _ _ Hd Hin) as (x & rel & c & m & -> & HS). eauto.
  - intros p q _ [].
  - intros x n IHn rest IHrest p q Hd Hin. simpl in Hin, Hd.
    apply andb_prop in Hd. destruct Hd as [Hd Hrest].
    apply andb_prop in Hd. destruct Hd as [Hx Hn]. apply negb_true_iff in Hx.
    apply in_app_or in Hin. destruct Hin as [Hin|Hin].
    + destruct (IHn _ _ _ Hn Hin) as (rel & c & m & -> & HS).
      exists x, rel, c, m. rewrite <- app_assoc. split; [reflexivity|].
      simpl. now rewrite String.eqb_refl.
    + destruct (IHrest _ _ Hrest Hin) as (y & rel & c & m & -> & HS).
      exists y, rel, c, m. split; [reflexivity|]. simpl in HS |- *.
      destruct (find y rest) as [k|] eqn:F; [|discriminate].
      destruct (String.eqb y x) eqn:E; [|exact HS].
      apply String.eqb_eq in E. subst y.
      rewrite (hasName_find _ _ _ F) in Hx. discriminate.
Qed.

Lemma walkFilesIn_find x es c p q :
  find x es = Some c -> In q (walkFiles (p ++ [x]) x c) -> In q (walkFilesIn p es).
Proof.
  induction es as [|y n rest IH]; simpl; [discriminate|].
  destruct (String.eqb x y) eqn:E.
  - apply String.eqb_eq in E. subst y. intros [= <-] H. apply in_or_app. now left.
  - intros F H. apply in_or_app. right. auto.
Qed.

(** Every regular file under the root that lies under no [.git] directory
    is a path of the walk. *)
Lemma walkFiles_complete rel : forall n p name c m,
  Stat n rel = Ok (File c m) -> outsideGit name rel -> In (p ++ rel) (walkFiles p name n).
Proof.
  induction rel as [|x rel IH]; intros n p name c m HS [Hg Hname].
  - simpl in HS. injection HS as ->. rewrite app_nil_r. now left.
  - simpl in HS. destruct n as [|es]; [discriminate|].
    destruct (find x es) as [k|] eqn:F; [|discriminate].
    simpl. assert (Hn : name <> ".git") by (apply Hname; discriminate).
    apply String.eqb_neq in Hn. rewrite Hn.
    eapply walkFilesIn_find; [exact F|].
    replace (p ++ x :: rel) with ((p ++ [x]) ++ rel) by (now rewrite <- app_assoc).
    eapply IH; [exact HS|].
    destruct rel as [|y r]; [split; [simpl; tauto|congruence]|].
    change (removelast (x :: y :: r)) with (x :: removelast (y :: r)) in Hg.
    split; [intros H; apply Hg; now right|].
    intros _ ->. apply Hg. now left.
Qed.

Lemma walkFiles_NoDup :
  (forall n p name, distinctNames n = true -> NoDup (walkFiles p name n))
  /\ (forall es p, distinctIn es = true -> NoDup (walkFilesIn p es)).
Proof.
  apply node_dirents_ind.
  - intros c m p name _. repeat constructor. intros [].
  - intros es IH p name Hd. simpl. destruct (String.eqb name ".git"); [constructor|].
    now apply IH.
  - intros p _. constructor.
  - intros x n IHn rest IHrest p Hd. simpl in Hd |- *.
    apply andb_prop in Hd. destruct Hd as [Hd Hrest].
    apply andb_prop in Hd. destruct Hd as [Hx Hn]. apply negb_true_iff in Hx.
    apply NoDup_app; auto.
    intros q H1 H2.
    destruct (proj1 walkFiles_paths _ _ _ _ H1) as (rel & -> & _).
    destruct (proj2 walkFiles_paths _ _ _ H2) as (y & rel' & Heq & Hy & _).
    rewrite <- app_assoc in Heq. apply app_inv_head in Heq.
    injection Heq as -> _. congruence.
Qed.

Lemma filesUnder_NoDup fs root :
  distinctNames fs = true -> NoDup (filesUnder fs root).
Proof.
  intros Hd. unfold filesUnder. destruct (Stat fs root) as [n|e] eqn:Hroot; [|constructor].
  apply walkFiles_NoDup. eapply Stat_distinct; eauto.
Qed.


End WalkPaths.


(** ** Reify: the validation pass and the commit pass *)

Section ReifyFacts.

Import Template Processor.

Variable data : fields.
Variable secretFn : SecretFn.

(** What the commit of one file does to the tree, whatever it returns. *)
Lemma processFile_commit p fs fs' r :
  processFile p data secretFn false fs = (fs', r) ->
  shape fs' = shape fs
  /\ (forall q c m, q <> p -> Stat fs q = Ok (File c m) -> Stat fs' q = Ok (File c m))
  /\ (forall c m, Stat fs p = Ok (File c m) -> exists c', Stat fs' p = Ok (File c' m))
  /\ (r = None ->
      exists c m tmpl out,
        Stat fs p = Ok (File c m) /\ Parse c = Ok tmpl
        /\ Execute secretFn tmpl data = Ok out /\ Stat fs' p = Ok (File out m)).
Proof.
  unfold processFile, renderAndWrite. intros H.
  assert (Hsame : fs' = fs -> r <> None ->
    shape fs' = shape fs
    /\ (forall q c m, q <> p -> Stat fs q = Ok (File c m) -> Stat fs' q = Ok (File c m))
    /\ (forall c m, Stat fs p = Ok (File c m) -> exists c', Stat fs' p = Ok (File c' m))
    /\ (r = None ->
        exists c m tmpl out,
          Stat fs p = Ok (File c m) /\ Parse c = Ok tmpl
          /\ Execute secretFn tmpl data = Ok out /\ Stat fs' p = Ok (File out m))).
  { intros -> Hr. repeat split; eauto. intros ->. congruence. }
  destruct (ReadFile fs p) as [c|e0] eqn:HR;
    [|injection H as <- <-; apply Hsame; [reflexivity|discriminate]].
  destruct (ReadFile_inv _ _ _ HR) as [m HS].
  destruct (Parse c) as [tmpl|e0] eqn:HP;
    [|injection H as <- <-; apply Hsame; [reflexivity|discriminate]].
  destruct (Execute secretFn tmpl data) as [out|e0] eqn:HE;
    [|injection H as <- <-; apply Hsame; [reflexivity|discriminate]].
  rewrite HS in H. cbn [Mode] in H. unfold WriteFile in H.
  destruct (createTrunc_existing p fs c m out m HS) as [fs1 HW]. rewrite HW in H.
  injection H as <- <-.
  pose proof (stat_createTrunc_same _ _ _ _ _ HW) as Hp. rewrite HS in Hp.
  split; [eapply createTrunc_shape; eauto|]. split; [|split].
  - intros q c' m' Hq Hq'. eapply stat_createTrunc_other; eauto.
  - intros c' m' HS'. rewrite HS in HS'. injection HS' as <- <-. eauto.
  - intros _. exists c, m, tmpl, out. auto.
Qed.

Lemma forEachFile_commit ps : forall fs fs' r,
  forEachFile (fun p => processFile p data secretFn false) ps fs = (fs', r) ->
  shape fs' = shape fs
  /\ (forall q c m, ~ In q ps -> Stat fs q = Ok (File c m) -> Stat fs' q = Ok (File c m))
  /\ (forall q c m, Stat fs q = Ok (File c m) -> exists c', Stat fs' q = Ok (File c' m)).
Proof.
  induction ps as [|p ps IH]; intros fs fs' r H.
  - injection H as <- <-. eauto.
  - cbn [forEachFile] in H.
    destruct (processFile p data secretFn false fs) as [fs1 r1] eqn:H1.
    destruct (processFile_commit _ _ _ _ H1) as (Hsh & Hfr & Hp & _).
    assert (Hmode1 : forall q c m, Stat fs q = Ok (File c m) ->
                                   exists c', Stat fs1 q = Ok (File c' m)).
    { intros q c m HS. destruct (list_eq_dec string_dec q p) as [->|Hne]; eauto. }
    destruct r1 as [e|].
    + injection H as <- <-. split; [exact Hsh|]. split; [|exact Hmode1].
      intros q c m Hq. apply Hfr. intros ->. apply Hq. now left.
    + destruct (IH _ _ _ H) as (Hsh' & Hfr' & Hmode').
      split; [congruence|]. split.
      * intros q c m Hq HS. apply Hfr'; [intros Hin; apply Hq; now right|].
        apply Hfr; [intros ->; apply Hq; now left|exact HS].
      * intros q c m HS. destruct (Hmode1 _ _ _ HS) as [c1 HS1]. eauto.
Qed.


(** X1. A dry run returns the tree it was given, and the error it returns
    is the error the run that writes returns, with the tree untouched. *)
Theorem Reify_dry_run_predicts root fs :
  fst (Reify root data secretFn true fs) = fs
  /\ (forall e, snd (Reify root data secretFn true fs) = Some e ->
        Reify root data secretFn false fs = (fs, Some e)).
Proof.
  unfold Reify.
  pose proof (walkAndProcess_dry data secretFn root fs) as Hdry.
  destruct (walkAndProcess root data secretFn true fs) as [fs1 [e|]]; simpl in *; subst fs1.
  - split; [reflexivity|]. now intros e0 [= <-].
  - split; [reflexivity|]. discriminate.
Qed.

Lemma forEachFile_dry_each ps : forall fs,
  forEachFile (fun p => processFile p data secretFn true) ps fs = (fs, None) ->
  forall p, In p ps -> processFile p data secretFn true fs = (fs, None).
Proof.
  induction ps as [|q ps IH]; intros fs H p Hin; [contradiction|].
  cbn [forEachFile] in H. pose proof (processFile_dry data secretFn q fs) as Hq.
  destruct (processFile q data secretFn true fs) as [fs1 [e|]] eqn:E; simpl in Hq; subst fs1;
    [discriminate|].
  destruct Hin as [<-|Hin]; [exact E|]. now apply IH.
Qed.

Lemma processFile_dry_ok p fs :
  processFile p data secretFn true fs = (fs, None) ->
  exists c m tmpl out,
    Stat fs p = Ok (File c m) /\ Parse c = Ok tmpl /\ Execute secretFn tmpl data = Ok out.
Proof.
  unfold processFile, renderAndWrite.
  destruct (ReadFile fs p) as [c|] eqn:HR; [|discriminate].
  destruct (ReadFile_inv _ _ _ HR) as [m HS].
  destruct (Parse c) as [tmpl|] eqn:HP; [|discriminate].
  destruct (Execute secretFn tmpl data) as [out|] eqn:HE; [|discriminate].
  intros _. exists c, m, tmpl, out. auto.
Qed.

(** The commit pass over files that validated, each reached once. *)
Lemma forEachFile_commit_ok orig ps : forall fs,
  NoDup ps ->
  (forall p, In p ps -> Stat fs p = Stat orig p) ->
  (forall p, In p ps -> processFile p data secretFn true orig = (orig, None)) ->
  exists fs',
    forEachFile (fun p => processFile p data secretFn false) ps fs = (fs', None)
    /\ forall p, In p ps ->
         exists c m tmpl out,
           Stat orig p = Ok (File c m) /\ Parse c = Ok tmpl
           /\ Execute secretFn tmpl data = Ok out /\ Stat fs' p = Ok (File out m).
Proof.
  induction ps as [|p ps IH]; intros fs Hnd Hsame Hok.
  - exists fs. split; [reflexivity|]. intros p [].
  - inversion Hnd as [|? ? Hnotin Hnd']; subst.
    destruct (processFile_dry_ok _ _ (Hok p (or_introl eq_refl)))
      as (c & m & tmpl & out & HS & HP & HE).
    assert (HSfs : Stat fs p = Ok (File c m)) by (rewrite Hsame; [exact HS|now left]).
    destruct (createTrunc_existing p fs c m out m HSfs) as [fs1 HW].
    assert (H1 : processFile p data secretFn false fs = (fs1, None)).
    { unfold processFile, renderAndWrite, WriteFile.
      rewrite (ReadFile_file _ _ _ _ HSfs), HP, HE, HSfs. cbn [Mode]. now rewrite HW. }
    destruct (processFile_commit _ _ _ _ H1) as (_ & Hfr & _ & _).
    assert (Hp1 : Stat fs1 p = Ok (File out m)).
    { pose proof (stat_createTrunc_same _ _ _ _ _ HW) as Hp. now rewrite HSfs in Hp. }
    destruct (IH fs1 Hnd') as (fs' & H' & Hall).
    { intros q Hq. assert (q <> p) by (intros ->; contradiction).
      destruct (processFile_dry_ok _ _ (Hok q (or_intror Hq)))
        as (cq & mq & _ & _ & HSq & _).
      rewrite HSq. apply Hfr; [assumption|]. rewrite Hsame; [exact HSq|now right]. }
    { intros q Hq. apply Hok. now right. }
    exists fs'. cbn [forEachFile]. rewrite H1. split; [exact H'|].
    intros q [<-|Hq]; [|now apply Hall].
    exists c, m, tmpl, out. repeat split; auto.
    destruct (forEachFile_commit _ _ _ _ H') as (_ & Hfr' & _). now apply Hfr'.
Qed.

(** X2. In a tree of distinct names, when [Reify] returns no error every
    file the walk reaches parsed and rendered, and holds the rendering of
    the content it had, under the mode it had. *)
Theorem Reify_commits_all root fs fs' :
  distinctNames fs = true ->
  Reify root data secretFn false fs = (fs', None) ->
  forall p, In p (filesUnder fs root) ->
    exists c m tmpl out,
      Stat fs p = Ok (File c m) /\ Parse c = Ok tmpl
      /\ Execute secretFn tmpl data = Ok out /\ Stat fs' p = Ok (File out m).
Proof.
  intros Hd. pose proof (filesUnder_NoDup fs root Hd) as Hnd. unfold Reify.
  pose proof (walkAndProcess_dry data secretFn root fs) as Hfs.
  destruct (walkAndProcess root data secretFn true fs) as [fs1 [e|]] eqn:Hw;
    simpl in Hfs; subst fs1; [discriminate|].
  rewrite walkAndProcess_forEachFile in Hw |- *.
  destruct (Stat fs root) as [n|]; [|discriminate].
  destruct (forEachFile_commit_ok fs (filesUnder fs root) fs Hnd (fun _ _ => eq_refl)
              (forEachFile_dry_each _ _ Hw)) as (fs2 & H2 & Hall).
  rewrite H2. intros [= <-]. exact Hall.
Qed.

End ReifyFacts.

Lemma Reify_dry_run_predicts_witness :
  exists e,
    Processor.Reify ["repo"] Examples.someContext Cmd.passThrough false Examples.brokenRepo
    = (Examples.brokenRepo, Some e).
Proof.
  eexists.
  apply (proj2 (Reify_dry_run_predicts Examples.someContext Cmd.passThrough ["repo"]
                  Examples.brokenRepo)).
  vm_compute. reflexivity.
Defined.


Lemma Reify_commits_all_witness :
  exists c m tmpl out,
    Stat Examples.rewrittenRepo ["repo"; "t.conf"] = Ok (File c m)
    /\ Template.Parse c = Ok tmpl
    /\ Template.Execute Cmd.passThrough tmpl Examples.someContext = Ok out
    /\ Stat (fst (Processor.Reify ["repo"] Examples.someContext Cmd.passThrough false
                    Examples.rewrittenRepo)) ["repo"; "t.conf"] = Ok (File out m).
Proof.
  apply (Reify_commits_all Examples.someContext Cmd.passThrough ["repo"]
           Examples.rewrittenRepo).
  - reflexivity.
  - vm_compute. reflexivity.
  - vm_compute. auto.
Defined.

(** ** The sync marker *)

Section MarkerFacts.

Import Strings.

Lemma isUUIDChar_not_white c : Cmd.isUUIDChar c = true -> isWhite c = false.
Proof.
  destruct c as [[] [] [] [] [] [] [] []]; vm_compute; congruence.
Qed.

Lemma uuidChars_noneWhite s : Cmd.uuidChars s = true -> noneWhite s = true.
Proof.
  induction s as [|c r IH]; [reflexivity|]. simpl. intros H.
  apply andb_prop in H. destruct H as [Hc Hr].
  now rewrite (isUUIDChar_not_white _ Hc), IH.
Qed.

Lemma not_white_not_newline c : isWhite c = false -> Ascii.eqb c Template.newline = false.
Proof.
  intros H. destruct (Ascii.eqb c Template.newline) eqn:E; [|reflexivity].
  apply Ascii.eqb_eq in E. subst c. discriminate.
Qed.

Lemma splitLines_noneWhite s : forall cur,
  noneWhite s = true -> Godotenv.splitLines s cur = [(cur ++ s)%string].
Proof.
  induction s as [|c r IH]; intros cur H; simpl in H |- *.
  - f_equal. induction cur as [|d cur IHc]; [reflexivity|]. simpl. now f_equal.
  - apply andb_prop in H. destruct H as [Hc Hr]. apply negb_true_iff in Hc.
    rewrite (not_white_not_newline _ Hc), IH by exact Hr.
    now rewrite append_assoc.
Qed.

(** The lines before the last newline of a text do not change its last
    line. *)
Lemma splitLines_after_newline a : forall cur,
  exists init, forall b,
    Godotenv.splitLines (a ++ String Template.newline b) cur
    = init ++ Godotenv.splitLines b EmptyString.
Proof.
  induction a as [|c r IH]; intros cur.
  - exists [cur]. intros b. reflexivity.
  - simpl. destruct (Ascii.eqb c Template.newline).
    + destruct (IH EmptyString) as [init H]. exists (cur :: init). intros b.
      now rewrite H.
    + apply IH.
Qed.

Lemma trimRight_noneWhite s : noneWhite s = true -> trimRight s = s.
Proof.
  induction s as [|c r IH]; [reflexivity|]. simpl. intros H.
  apply andb_prop in H. destruct H as [Hc Hr]. apply negb_true_iff in Hc.
  rewrite IH by exact Hr. destruct r; [now rewrite Hc|reflexivity].
Qed.

Lemma trimLeft_noneWhite s : noneWhite s = true -> trimLeft s = s.
Proof.
  destruct s as [|c r]; [reflexivity|]. simpl. intros H.
  apply andb_prop in H. destruct H as [Hc _]. apply negb_true_iff in Hc. now rewrite Hc.
Qed.

Lemma trimRight_before pre c r :
  trimRight (String c r) = String c r ->
  trimRight (pre ++ String c r) = (pre ++ String c r)%string.
Proof.
  intros H. induction pre as [|d pre IH]; [exact H|].
  change (trimRight (String d (pre ++ String c r))
          = String d (pre ++ String c r)).
  simpl trimRight. rewrite IH. destruct pre; reflexivity.
Qed.

Lemma TrimSpace_noneWhite s : noneWhite s = true -> TrimSpace s = s.
Proof.
  intros H. unfold TrimSpace. rewrite trimLeft_noneWhite by exact H.
  now apply trimRight_noneWhite.
Qed.

Lemma TrimSpace_marker c r :
  noneWhite (String c r) = true ->
  TrimSpace ("SCADUFAX_ID: " ++ String c r) = ("SCADUFAX_ID: " ++ String c r)%string.
Proof.
  intros H. unfold TrimSpace.
  change (trimLeft ("SCADUFAX_ID: " ++ String c r)) with ("SCADUFAX_ID: " ++ String c r)%string.
  apply trimRight_before. now apply trimRight_noneWhite.
Qed.

Lemma scanID_marker id rest :
  noneWhite id = true ->
  Gitops.scanID (("SCADUFAX_ID: " ++ id)%string :: rest) = id.
Proof.
  intros H. destruct id as [|c r]; [vm_compute; reflexivity|].
  cbn [Gitops.scanID]. cbv zeta. rewrite (TrimSpace_marker c r H).
  change (HasPrefix ("SCADUFAX_ID: " ++ String c r) "SCADUFAX_ID:") with true.
  change (TrimPrefix ("SCADUFAX_ID: " ++ String c r) "SCADUFAX_ID:")
    with (String " " (String c r)).
  cbv iota. unfold TrimSpace.
  change (trimLeft (String " " (String c r))) with (trimLeft (String c r)).
  now apply TrimSpace_noneWhite.
Qed.

Lemma headIDOf_marker msg id :
  Cmd.uuidChars id = true -> Gitops.headIDOf (Cmd.GenerateCommitMessage msg id) = id.
Proof.
  intros H. apply uuidChars_noneWhite in H.
  unfold Gitops.headIDOf, SplitLines, Cmd.GenerateCommitMessage.
  destruct (splitLines_after_newline msg EmptyString) as [init Hsplit]. rewrite Hsplit.
  change (Godotenv.splitLines (String Template.newline ("SCADUFAX_ID: " ++ id)) EmptyString)
    with (EmptyString :: Godotenv.splitLines id "SCADUFAX_ID: ").
  rewrite splitLines_noneWhite by exact H.
  rewrite rev_app_distr. cbn [rev app]. now apply scanID_marker.
Qed.

Variable Repo : Type.
Variable PlainOpen : path -> Cmd.gitState Repo -> option error.
Variable HeadMessage : Cmd.gitState Repo -> result string.

(** X5. The identifier [GenerateCommitMessage] appends is the one
    [GetHeadID] reads back from a head commit with that message, whatever
    the message before it holds. *)
Theorem head_id_round_trip repoPath (g : Cmd.gitState Repo) msg id :
  Cmd.uuidChars id = true ->
  PlainOpen repoPath g = None ->
  HeadMessage g = Ok (Cmd.GenerateCommitMessage msg id) ->
  Cmd.GetHeadID PlainOpen HeadMessage repoPath g = Ok id.
Proof.
  intros Hid Hopen Hmsg. unfold Cmd.GetHeadID. rewrite Hopen, Hmsg. simpl.
  now rewrite headIDOf_marker.
Qed.

End MarkerFacts.

Lemma head_id_round_trip_witness :
  Cmd.GetHeadID Examples.scriptedOpen Examples.scriptedHead ["local"]
    ([Cmd.GenerateCommitMessage "Update .bashrc via scadu edit" "0b7e-41"], Dir dnil)
  = Ok "0b7e-41".
Proof.
  apply (head_id_round_trip (list string) Examples.scriptedOpen Examples.scriptedHead ["local"]
           ([Cmd.GenerateCommitMessage "Update .bashrc via scadu edit" "0b7e-41"], Dir dnil)
           "Update .bashrc via scadu edit" "0b7e-41"); reflexivity.
Defined.

(** ** The reports of the walks *)

Section WalkFold.

Variable S : Type.
Variable fn : path -> DirEntry -> option error -> S -> S * ctl.
Variable root : path.
Variable g : path -> S -> S.

Hypothesis fn_err : forall p d e s, fn p d (Some e) s = (s, Stop e).
Hypothesis fn_dir : forall p name s,
  fn p {| IsDir := true; Name := name |} None s
  = if String.eqb name ".git" then (s, SkipDir) else (s, Continue).
Hypothesis fn_file : forall rel name s,
  fn (root ++ rel) {| IsDir := false; Name := name |} None s = (g rel s, Continue).

Lemma walkDir_fold :
  (forall n rel name s,
      walkDir fn (root ++ rel) name n s
      = (fold_left (fun s r => g r s) (walkFiles rel name n) s, Continue))
  /\ (forall es rel s,
        walkEntries fn (root ++ rel) es s
        = (fold_left (fun s r => g r s) (walkFilesIn rel es) s, Continue)).
Proof.
  apply node_dirents_ind.
  - intros c m rel name s. simpl. apply fn_file.
  - intros es IH rel name s. simpl. rewrite fn_dir.
    destruct (String.eqb name ".git"); [reflexivity|apply IH].
  - reflexivity.
  - intros x n IHn rest IHrest rel s. simpl.
    rewrite <- app_assoc, IHn, IHrest. now rewrite fold_left_app.
Qed.

Lemma WalkDir_fold fs s :
  WalkDir fn fs root s
  = match Stat fs root with
    | Ok _ => (fold_left (fun s r => g r s) (relsUnder fs root) s, None)
    | Fail err => (s, Some err)
    end.
Proof.
  unfold WalkDir, relsUnder. destruct (Stat fs root) as [n|err].
  - pose proof (proj1 walkDir_fold n [] (Base root) s) as H.
    rewrite app_nil_r in H. now rewrite H.
  - now rewrite fn_err.
Qed.

End WalkFold.

Section ReportFacts.

Import Cmd.

Variable Match : string -> string -> bool * option error.
Variable fs : node.
Variable ignores : list string.

Lemma Rel_under base : forall rel, Rel base (base ++ rel) = Ok rel.
Proof.
  induction base as [|b base IH]; intros rel; [reflexivity|].
  simpl. now rewrite String.eqb_refl.
Qed.

Lemma fold_left_report (E R : Type) (h : R -> list E) rels : forall out,
  fold_left (fun out r => out ++ h r) rels out = out ++ flat_map h rels.
Proof.
  induction rels as [|r rels IH]; intros out; simpl; [now rewrite app_nil_r|].
  now rewrite IH, app_assoc.
Qed.

Lemma fold_left_changes (E R : Type) (h : R -> list E) (keep : R -> bool) rels :
  forall out acc,
  fold_left (fun (s : list E * list R) r =>
               (fst s ++ h r, snd s ++ (if keep r then [r] else []))) rels (out, acc)
  = (out ++ flat_map h rels, acc ++ filter keep rels).
Proof.
  induction rels as [|r rels IH]; intros out acc; simpl; [now rewrite !app_nil_r|].
  rewrite IH, <- !app_assoc. destruct (keep r); reflexivity.
Qed.

Lemma sourceWalk_report sourceDir targetDir out :
  WalkDir (fun path d err out =>
    match err with
    | Some e => (out, Stop e)
    | None =>
        if IsDir d then
          if String.eqb (Name d) ".git" then (out, SkipDir) else (out, Continue)
        else
          match Rel sourceDir path with
          | Fail e => (out, Stop e)
          | Ok rel =>
              if isIgnored Match (pathString rel) ignores then (out, Continue)
              else
                let targetPath := Join targetDir rel in
                if notExist fs targetPath
                then (out ++ [DiffLine New (pathString rel)], Continue)
                else if areFilesDifferent fs path targetPath
                then (out ++ [DiffLine Modified (pathString rel)], Continue)
                else (out, Continue)
          end
    end) fs sourceDir out
  = match Stat fs sourceDir with
    | Ok _ =>
        (out ++ flat_map (sourceReport Match fs sourceDir targetDir ignores)
                  (relsUnder fs sourceDir), None)
    | Fail err => (out, Some err)
    end.
Proof.
  rewrite (WalkDir_fold _ _ sourceDir
             (fun rel out => out ++ sourceReport Match fs sourceDir targetDir ignores rel)).
  - destruct (Stat fs sourceDir); [|reflexivity]. now rewrite fold_left_report.
  - reflexivity.
  - reflexivity.
  - intros rel name s. cbn [IsDir]. rewrite Rel_under. unfold sourceReport, Join.
    destruct (isIgnored Match (pathString rel) ignores); [now rewrite app_nil_r|].
    destruct (notExist fs (targetDir ++ rel)); [reflexivity|].
    destruct (areFilesDifferent fs (sourceDir ++ rel) (targetDir ++ rel));
      [reflexivity|now rewrite app_nil_r].
Qed.

Lemma targetWalk_report sourceDir targetDir out :
  WalkDir (fun path d err out =>
    match err with
    | Some e => (out, Stop e)
    | None =>
        if IsDir d then
          if String.eqb (Name d) ".git" then (out, SkipDir) else (out, Continue)
        else
          match Rel targetDir path with
          | Fail e => (out, Stop e)
          | Ok rel =>
              if isIgnored Match (pathString rel) ignores then (out, Continue)
              else
                let sourcePath := Join sourceDir rel in
                if notExist fs sourcePath
                then (out ++ [DiffLine Deleted (pathString rel)], Continue)
                else (out, Continue)
          end
    end) fs targetDir out
  = match Stat fs targetDir with
    | Ok _ =>
        (out ++ flat_map (targetReport Match fs sourceDir targetDir ignores)
                  (relsUnder fs targetDir), None)
    | Fail err => (out, Some err)
    end.
Proof.
  rewrite (WalkDir_fold _ _ targetDir
             (fun rel out => out ++ targetReport Match fs sourceDir targetDir ignores rel)).
  - destruct (Stat fs targetDir); [|reflexivity]. now rewrite fold_left_report.
  - reflexivity.
  - reflexivity.
  - intros rel name s. cbn [IsDir]. rewrite Rel_under. unfold targetReport, Join.
    destruct (isIgnored Match (pathString rel) ignores); [now rewrite app_nil_r|].
    destruct (notExist fs (sourceDir ++ rel)); [reflexivity|now rewrite app_nil_r].
Qed.

Lemma compareDirs_walks sourceDir targetDir checkAll out :
  compareDirs Match fs sourceDir targetDir ignores checkAll out
  = match Stat fs sourceDir with
    | Fail err => (out, Some err)
    | Ok _ =>
        let out1 := out ++ flat_map (sourceReport Match fs sourceDir targetDir ignores)
                             (relsUnder fs sourceDir) in
        if checkAll then
          match Stat fs targetDir with
          | Fail err => (out1, Some err)
          | Ok _ =>
              (out1 ++ flat_map (targetReport Match fs sourceDir targetDir ignores)
                         (relsUnder fs targetDir), None)
          end
        else (out1, None)
    end.
Proof.
  unfold compareDirs. rewrite sourceWalk_report.
  destruct (Stat fs sourceDir); [|reflexivity].
  destruct checkAll; [|reflexivity]. now rewrite targetWalk_report.
Qed.

Lemma getDiffs_walk sourceDir targetDir out :
  getDiffs Match fs sourceDir targetDir ignores out
  = match Stat fs sourceDir with
    | Fail err => ((out, []), Some err)
    | Ok _ =>
        ((out ++ flat_map (sourceReport Match fs sourceDir targetDir ignores)
                  (relsUnder fs sourceDir),
          filter (changed Match fs sourceDir targetDir ignores) (relsUnder fs sourceDir)),
         None)
    end.
Proof.
  unfold getDiffs.
  rewrite (WalkDir_fold _ _ sourceDir
             (fun rel (s : list event * paths) =>
                (fst s ++ sourceReport Match fs sourceDir targetDir ignores rel,
                 snd s ++ (if changed Match fs sourceDir targetDir ignores rel
                           then [rel] else [])))).
  - destruct (Stat fs sourceDir); [|reflexivity]. cbv beta.
    now rewrite (fold_left_changes _ _ (sourceReport Match fs sourceDir targetDir ignores)
                   (changed Match fs sourceDir targetDir ignores)).
  - reflexivity.
  - reflexivity.
  - intros rel name [o acc]. cbn [IsDir fst snd]. rewrite Rel_under.
    unfold sourceReport, changed, Join.
    destruct (isIgnored Match (pathString rel) ignores); [now rewrite !app_nil_r|].
    destruct (notExist fs (targetDir ++ rel)); [reflexivity|].
    destruct (areFilesDifferent fs (sourceDir ++ rel) (targetDir ++ rel));
      [reflexivity|now rewrite !app_nil_r].
Qed.


(** X7. [getDiffs] prints the report [compareDirs] prints when not all is
    asked for, fails when it fails, and returns the files under the source
    that are not ignored and are new or modified, in the order of the
    walk. *)
Theorem getDiffs_report sourceDir targetDir out :
  fst (fst (getDiffs Match fs sourceDir targetDir ignores out))
  = fst (compareDirs Match fs sourceDir targetDir ignores false out)
  /\ snd (getDiffs Match fs sourceDir targetDir ignores out)
     = snd (compareDirs Match fs sourceDir targetDir ignores false out)
  /\ snd (fst (getDiffs Match fs sourceDir targetDir ignores out))
     = filter (changed Match fs sourceDir targetDir ignores) (relsUnder fs sourceDir).
Proof.
  rewrite getDiffs_walk, compareDirs_walks. unfold relsUnder.
  destruct (Stat fs sourceDir); simpl; auto.
Qed.

Lemma diffRels_app a b : diffRels (a ++ b) = diffRels a ++ diffRels b.
Proof.
  induction a as [|e a IH]; [reflexivity|]. destruct e; simpl; now rewrite IH.
Qed.

Lemma tagged_app c a b : tagged c (a ++ b) = tagged c a ++ tagged c b.
Proof. apply filter_app. Qed.

Lemma sourceReport_not_deleted sourceDir targetDir rels :
  tagged Deleted (flat_map (sourceReport Match fs sourceDir targetDir ignores) rels) = [].
Proof.
  induction rels as [|r rels IH]; [reflexivity|]. simpl. rewrite tagged_app, IH, app_nil_r.
  unfold sourceReport.
  destruct (isIgnored Match (pathString r) ignores); [reflexivity|].
  destruct (notExist fs (Join targetDir r)); [reflexivity|].
  destruct (areFilesDifferent fs (Join sourceDir r) (Join targetDir r)); reflexivity.
Qed.

Lemma new_is_deleted dirA dirB rels :
  diffRels (tagged New (flat_map (sourceReport Match fs dirA dirB ignores) rels))
  = diffRels (tagged Deleted (flat_map (targetReport Match fs dirB dirA ignores) rels)).
Proof.
  induction rels as [|r rels IH]; [reflexivity|]. simpl.
  rewrite !tagged_app, !diffRels_app, IH. f_equal.
  unfold sourceReport, targetReport.
  destruct (isIgnored Match (pathString r) ignores); [reflexivity|].
  destruct (notExist fs (Join dirB r)); [reflexivity|].
  destruct (areFilesDifferent fs (Join dirA r) (Join dirB r)); reflexivity.
Qed.

(** X8. When the second directory can be read, the paths reported as New
    from the first directory to the second are the paths reported as
    Deleted from the second to the first when all is asked for, in the
    same order. *)
Theorem new_one_way_is_deleted_the_other dirA dirB n :
  Stat fs dirB = Ok n ->
  diffRels (tagged New (fst (compareDirs Match fs dirA dirB ignores false [])))
  = diffRels (tagged Deleted (fst (compareDirs Match fs dirB dirA ignores true []))).
Proof.
  intros HB. rewrite !compareDirs_walks, HB. cbn zeta. unfold relsUnder.
  destruct (Stat fs dirA) as [m|e]; cbn [fst app].
  - rewrite tagged_app, sourceReport_not_deleted. apply new_is_deleted.
  - now rewrite sourceReport_not_deleted.
Qed.

End ReportFacts.

Lemma new_one_way_is_deleted_the_other_witness :
  Cmd.diffRels (Cmd.tagged Cmd.New
    (fst (Cmd.compareDirs Examples.literalMatch Examples.checkTree ["local"] ["home"]
            ["ignored.txt"] false [])))
  = Cmd.diffRels (Cmd.tagged Cmd.Deleted
      (fst (Cmd.compareDirs Examples.literalMatch Examples.checkTree ["home"] ["local"]
              ["ignored.txt"] true []))).
Proof.
  eapply (new_one_way_is_deleted_the_other Examples.literalMatch Examples.checkTree
            ["ignored.txt"] ["local"] ["home"]).
  reflexivity.
Defined.

(** ** The listing *)

Section ListFacts.

Import Cmd.

Variable Match : string -> string -> bool * option error.
Variable Repo : Type.
Variable Checkout : path -> string -> gitState Repo -> gitState Repo * option error.

Lemma fold_left_lines (E R : Type) (h : R -> E) rels : forall out,
  fold_left (fun out r => out ++ [h r]) rels out = out ++ map h rels.
Proof.
  induction rels as [|r rels IH]; intros out; simpl; [now rewrite app_nil_r|].
  now rewrite IH, <- app_assoc.
Qed.


End ListFacts.

(** ** Copies and the convergence of an update *)

Ltac bindStep H :=
  match type of H with
  | bind ?r _ = Ok _ =>
      let E := fresh "E" in destruct r eqn:E; simpl in H; [|discriminate]
  end.

Section CopyFacts.

Import Cmd.

Lemma stat_Chmod_other p : forall fs fs' q mode c m,
  Chmod fs q mode = Ok fs' ->
  Stat fs p = Ok (File c m) -> p <> q ->
  Stat fs' p = Ok (File c m).
Proof.
  induction p as [|x p' IH]; intros fs fs' q mode c m H HS Hpq; simpl in *.
  - injection HS as ->. destruct q; [congruence|discriminate].
  - destruct fs as [|es]; [discriminate|].
    destruct (find x es) as [n|] eqn:F; [|discriminate].
    destruct q as [|y q']; simpl in H; [now injection H as <-; simpl; rewrite F|].
    destruct (String.eqb y x) eqn:Eyx.
    + apply String.eqb_eq in Eyx. subst y. rewrite F in H.
      bindStep H. injection H as <-. simpl. rewrite find_set_same.
      eapply IH; eauto. congruence.
    + apply String.eqb_neq in Eyx.
      destruct (find y es) as [k|]; [|discriminate].
      bindStep H. injection H as <-. simpl.
      rewrite find_set_other by assumption. now rewrite F.
Qed.

(** A step that writes at a path outside a directory leaves the directory
    as it is. *)
Lemma Stat_MkdirAll_outside base : forall fs fs' p n,
  (forall q, p <> base ++ q) -> Stat fs base = Ok n ->
  MkdirAll fs p = Ok fs' -> Stat fs' base = Ok n.
Proof.
  induction base as [|x base IH]; intros fs fs' p n Hout HS H.
  - exfalso. now apply (Hout p).
  - simpl in HS. destruct fs as [|es]; [discriminate|].
    destruct (find x es) as [c|] eqn:F; [|discriminate].
    destruct p as [|y p']; simpl in H; [injection H as <-; simpl; now rewrite F|].
    destruct (String.eqb y x) eqn:Eyx.
    + apply String.eqb_eq in Eyx. subst y. rewrite F in H.
      bindStep H. injection H as <-. simpl. rewrite find_set_same.
      eapply IH; [|exact HS|exact E]. intros q ->. now apply (Hout q).
    + apply String.eqb_neq in Eyx.
      destruct (find y es); bindStep H; injection H as <-; simpl;
        rewrite find_set_other by assumption; now rewrite F.
Qed.

Lemma Stat_createTrunc_outside base : forall fs fs' p data perm n,
  (forall q, p <> base ++ q) -> Stat fs base = Ok n ->
  createTrunc fs p data perm = Ok fs' -> Stat fs' base = Ok n.
Proof.
  induction base as [|x base IH]; intros fs fs' p data perm n Hout HS H.
  - exfalso. now apply (Hout p).
  - simpl in HS. destruct fs as [|es]; [discriminate|].
    destruct (find x es) as [c|] eqn:F; [|discriminate].
    destruct p as [|y p']; simpl in H; [discriminate|].
    destruct (String.eqb y x) eqn:Eyx.
    + apply String.eqb_eq in Eyx. subst y. rewrite F in H.
      bindStep H. injection H as <-. simpl. rewrite find_set_same.
      eapply IH; [|exact HS|exact E]. intros q ->. now apply (Hout q).
    + apply String.eqb_neq in Eyx.
      assert (K : forall k, Stat (Dir (set y k es)) (x :: base) = Ok n).
      { intros k. simpl. rewrite find_set_other by assumption. now rewrite F. }
      destruct (find y es) as [k|].
      * bindStep H. injection H as <-. apply K.
      * destruct p'; [|discriminate]. injection H as <-. apply K.
Qed.

Lemma Stat_Chmod_outside base : forall fs fs' p mode n,
  (forall q, p <> base ++ q) -> Stat fs base = Ok n ->
  Chmod fs p mode = Ok fs' -> Stat fs' base = Ok n.
Proof.
  induction base as [|x base IH]; intros fs fs' p mode n Hout HS H.
  - exfalso. now apply (Hout p).
  - simpl in HS. destruct fs as [|es]; [discriminate|].
    destruct (find x es) as [c|] eqn:F; [|discriminate].
    destruct p as [|y p']; simpl in H; [injection H as <-; simpl; now rewrite F|].
    destruct (String.eqb y x) eqn:Eyx.
    + apply String.eqb_eq in Eyx. subst y. rewrite F in H.
      bindStep H. injection H as <-. simpl. rewrite find_set_same.
      eapply IH; [|exact HS|exact E]. intros q ->. now apply (Hout q).
    + apply String.eqb_neq in Eyx.
      destruct (find y es) as [k|]; [|discriminate].
      bindStep H. injection H as <-. simpl.
      rewrite find_set_other by assumption. now rewrite F.
Qed.

Lemma Dir'_outside base p : (forall q, p <> base ++ q) -> forall q, Dir' p <> base ++ q.
Proof.
  intros Hout q Heq. destruct p as [|x p'] using rev_ind.
  - apply (Hout q). unfold Dir' in Heq. simpl in Heq. exact Heq.
  - unfold Dir' in Heq. rewrite removelast_last in Heq.
    apply (Hout (q ++ [x])). now rewrite Heq, app_assoc.
Qed.

(** The steps of [copyFile], with what each leaves behind. *)
Lemma copyFile_steps src dst fs fs' r :
  copyFile src dst fs = (fs', r) ->
  (forall q c m, q <> dst -> Stat fs q = Ok (File c m) -> Stat fs' q = Ok (File c m))
  /\ (forall base n, (forall q, dst <> base ++ q) ->
        Stat fs base = Ok n -> Stat fs' base = Ok n).
Proof.
  unfold copyFile, Create, WriteFile. intros H.
  destruct (MkdirAll fs (Dir' dst)) as [fs1|] eqn:HM;
    [|injection H as <- <-; split; auto].
  assert (F1 : forall q c m, Stat fs q = Ok (File c m) -> Stat fs1 q = Ok (File c m))
    by (intros; eapply stat_MkdirAll_file; eauto).
  assert (O1 : forall base n, (forall q, dst <> base ++ q) ->
                 Stat fs base = Ok n -> Stat fs1 base = Ok n).
  { intros base n Hout HS. eapply Stat_MkdirAll_outside; [|exact HS|exact HM].
    now apply Dir'_outside. }
  destruct (Stat fs1 src) as [info|]; [|injection H as <- <-; split; eauto].
  destruct (createTrunc fs1 dst "" mode0666) as [fs2|] eqn:HC;
    [|injection H as <- <-; split; eauto].
  assert (F2 : forall q c m, q <> dst -> Stat fs q = Ok (File c m) ->
                 Stat fs2 q = Ok (File c m)).
  { intros q c m Hq HS. eapply stat_createTrunc_other; [exact HC|now apply F1|exact Hq]. }
  assert (O2 : forall base n, (forall q, dst <> base ++ q) ->
                 Stat fs base = Ok n -> Stat fs2 base = Ok n).
  { intros base n Hout HS.
    eapply Stat_createTrunc_outside; [exact Hout|now apply O1|exact HC]. }
  destruct (ReadFile fs2 src) as [data|]; [|injection H as <- <-; split; eauto].
  destruct (createTrunc fs2 dst data mode0666) as [fs3|] eqn:HW;
    [|injection H as <- <-; split; eauto].
  assert (F3 : forall q c m, q <> dst -> Stat fs q = Ok (File c m) ->
                 Stat fs3 q = Ok (File c m)).
  { intros q c m Hq HS. eapply stat_createTrunc_other; [exact HW|now apply F2|exact Hq]. }
  assert (O3 : forall base n, (forall q, dst <> base ++ q) ->
                 Stat fs base = Ok n -> Stat fs3 base = Ok n).
  { intros base n Hout HS.
    eapply Stat_createTrunc_outside; [exact Hout|now apply O2|exact HW]. }
  destruct (Stat fs3 src) as [info3|]; [|injection H as <- <-; split; eauto].
  destruct (Chmod fs3 dst (Mode info3)) as [fs4|] eqn:HCh;
    injection H as <- <-; [|split; eauto].
  split.
  - intros q c m Hq HS. eapply stat_Chmod_other; [exact HCh|now apply F3|exact Hq].
  - intros base n Hout HS. eapply Stat_Chmod_outside; [exact Hout|now apply O3|exact HCh].
Qed.

(** X10. Whatever [copyFile] returns, every file other than the
    destination has the content and the mode it had; and a copy of a file
    onto itself, when it returns no error, leaves the file empty. *)
Theorem copyFile_touches_only_dst src dst fs :
  (forall q c m, q <> dst ->
     Stat fs q = Ok (File c m) -> Stat (fst (copyFile src dst fs)) q = Ok (File c m))
  /\ (forall c m, src = dst -> Stat fs src = Ok (File c m) ->
        snd (copyFile src dst fs) = None ->
        Stat (fst (copyFile src dst fs)) dst = Ok (File EmptyString m)).
Proof.
  split.
  - intros q c m Hq HS. destruct (copyFile src dst fs) as [fs' r] eqn:H.
    now apply (proj1 (copyFile_steps _ _ _ _ _ H)).
  - intros c m <- HS. unfold copyFile, Create, WriteFile.
    destruct (MkdirAll fs (Dir' src)) as [fs1|e] eqn:HM; [|discriminate].
    pose proof (stat_MkdirAll_file _ _ _ _ _ _ HM HS) as H1. rewrite H1.
    destruct (createTrunc_existing src fs1 c m "" mode0666 H1) as [fs2 HC]. rewrite HC.
    pose proof (stat_createTrunc_same _ _ _ _ _ HC) as H2. rewrite H1 in H2.
    rewrite (ReadFile_file _ _ _ _ H2).
    rewrite (createTrunc_same _ _ _ _ mode0666 H2), H2. cbn [Mode].
    destruct (stat_Chmod_same _ _ _ _ m H2) as (fs4 & -> & H4). auto.
Qed.

End CopyFacts.

Lemma copyFile_touches_only_dst_witness :
  Stat (fst (Cmd.copyFile ["home"; "file.txt"] ["home"; "file.txt"] Examples.updateTree))
       ["home"; "file.txt"] = Ok (File EmptyString mode0644).
Proof.
  apply (proj2 (copyFile_touches_only_dst ["home"; "file.txt"] ["home"; "file.txt"]
                  Examples.updateTree) "v1" mode0644); reflexivity.
Defined.

Section UpdateFacts.

Import Cmd.

Variable Match : string -> string -> bool * option error.
Variable Repo : Type.
Variable localDir homeDir : path.
Variable ignores : list string.

Lemma relsUnder_files fs n :
  distinctNames fs = true -> Stat fs localDir = Ok n ->
  NoDup (relsUnder fs localDir)
  /\ forall rel, In rel (relsUnder fs localDir) ->
       exists c m, Stat fs (Join localDir rel) = Ok (File c m).
Proof.
  intros Hd HS. pose proof (Stat_distinct _ _ _ Hd HS) as Hn.
  unfold relsUnder. rewrite HS. split.
  - now apply walkFiles_NoDup.
  - intros rel Hin.
    destruct (proj1 walkFiles_sound _ _ _ _ Hn Hin) as (rel' & c & m & Heq & Hrel).
    simpl in Heq. subst rel'. exists c, m. unfold Join. now rewrite Stat_app, HS.
Qed.

(** What the copy loop leaves behind when it ends without an error. *)
Lemma applyDiffs_done n : forall diffs (w w' : World Repo),
  applyDiffs localDir homeDir diffs w = (w', Val tt) ->
  NoDup diffs ->
  (forall rel q, In rel diffs -> Join homeDir rel <> localDir ++ q) ->
  Stat (fs w) localDir = Ok n ->
  (forall rel, In rel diffs -> exists c m, Stat n rel = Ok (File c m)) ->
  Stat (fs w') localDir = Ok n
  /\ (forall rel, In rel diffs ->
        exists c m, Stat n rel = Ok (File c m)
                    /\ Stat (fs w') (Join homeDir rel) = Ok (File c m))
  /\ (forall q c m, (forall rel, In rel diffs -> q <> Join homeDir rel) ->
        Stat (fs w) q = Ok (File c m) -> Stat (fs w') q = Ok (File c m)).
Proof.
  induction diffs as [|rel rest IH]; intros w w' Hrun Hnd Hout HL Hsrc.
  - injection Hrun as <-. split; [exact HL|]. split; [intros rel []|auto].
  - cbn [applyDiffs] in Hrun. unfold andThen, say, fsOp in Hrun. cbn [fs stdout] in Hrun.
    destruct (copyFile (Join localDir rel) (Join homeDir rel) (fs w)) as [fs1 r] eqn:Hcopy.
    destruct r as [err|]; [discriminate|].
    destruct (copyFile_steps _ _ _ _ _ Hcopy) as [Hframe Hbase].
    inversion Hnd as [|? ? Hnotin Hnd']; subst.
    assert (HL1 : Stat fs1 localDir = Ok n).
    { apply Hbase; [|exact HL]. intros q. apply Hout. now left. }
    destruct (Hsrc rel (or_introl eq_refl)) as (c & m & Hrel).
    assert (Hs : Stat (fs w) (Join localDir rel) = Ok (File c m))
      by (unfold Join; now rewrite Stat_app, HL).
    destruct (copyFile_mode _ _ _ _ _ _ Hs Hcopy) as (c' & Hdst & Hc').
    assert (c' = c).
    { apply Hc'. intros Heq. apply (Hout rel rel); [now left|]. now symmetry. }
    subst c'.
    match type of Hrun with
    | applyDiffs _ _ _ ?w1 = _ =>
        destruct (IH w1 w' Hrun Hnd') as (HL' & Hdone & Hkeep)
    end.
    { intros r q Hr. apply Hout. now right. }
    { exact HL1. }
    { intros r Hr. apply Hsrc. now right. }
    cbn [fs] in Hkeep. split; [exact HL'|]. split.
    + intros r [<-|Hr]; [|now apply Hdone].
      exists c, m. split; [exact Hrel|]. apply Hkeep; [|exact Hdst].
      intros r Hr Heq. apply app_inv_head in Heq. now subst r.
    + intros q c0 m0 Hq HS. apply Hkeep; [intros r Hr; apply Hq; now right|].
      apply Hframe; [apply Hq; now left|exact HS].
Qed.

Lemma flat_map_none (A B : Type) (h : A -> list B) l :
  (forall x, In x l -> h x = []) -> flat_map h l = [].
Proof.
  induction l as [|x l IH]; intros H; [reflexivity|]. simpl.
  rewrite (H x (or_introl eq_refl)), IH; [reflexivity|]. intros y Hy. apply H. now right.
Qed.

Lemma filter_none (A : Type) (keep : A -> bool) l :
  (forall x, In x l -> keep x = false) -> filter keep l = [].
Proof.
  induction l as [|x l IH]; intros H; [reflexivity|]. simpl.
  rewrite (H x (or_introl eq_refl)). apply IH. intros y Hy. apply H. now right.
Qed.

Lemma unchanged_silent fs rel :
  changed Match fs localDir homeDir ignores rel = false ->
  sourceReport Match fs localDir homeDir ignores rel = [].
Proof.
  unfold changed, sourceReport.
  destruct (isIgnored Match (pathString rel) ignores); [reflexivity|].
  destruct (notExist fs (Join homeDir rel)); [discriminate|].
  destruct (areFilesDifferent fs (Join localDir rel) (Join homeDir rel));
    [discriminate|reflexivity].
Qed.

Lemma same_file_unchanged fs rel c m m' :
  Stat fs (Join localDir rel) = Ok (File c m) ->
  Stat fs (Join homeDir rel) = Ok (File c m') ->
  changed Match fs localDir homeDir ignores rel = false.
Proof.
  intros Hs Ht. unfold changed, notExist, areFilesDifferent, ReadFile.
  rewrite Hs, Ht, String.eqb_refl. apply andb_false_r.
Qed.

Lemma unchanged_same_file fs rel c m :
  isIgnored Match (pathString rel) ignores = false ->
  changed Match fs localDir homeDir ignores rel = false ->
  Stat fs (Join localDir rel) = Ok (File c m) ->
  exists m', Stat fs (Join homeDir rel) = Ok (File c m').
Proof.
  unfold changed, notExist, areFilesDifferent, ReadFile. intros -> H Hs.
  rewrite Hs in H. cbn [negb andb] in H.
  destruct (Stat fs (Join homeDir rel)) as [[c' m'|es]|e].
  - exists m'. simpl in H. apply negb_false_iff, String.eqb_eq in H. now subst c'.
  - discriminate.
  - destruct e; simpl in H; rewrite ?orb_true_r in H; discriminate.
Qed.

(** X11. An update converges.  In a tree of distinct names where no
    destination under home lies in the working tree, when [getDiffs]
    returns its changes and the copy loop applies them all without an
    error, a second [getDiffs] over the result prints nothing and returns
    no change. *)
Theorem update_converges (w w' : World Repo) out report diffs out2 :
  distinctNames (fs w) = true ->
  (forall rel q, In rel (relsUnder (fs w) localDir) -> Join homeDir rel <> localDir ++ q) ->
  getDiffs Match (fs w) localDir homeDir ignores out = ((report, diffs), None) ->
  applyDiffs localDir homeDir diffs w = (w', Val tt) ->
  getDiffs Match (fs w') localDir homeDir ignores out2 = ((out2, []), None).
Proof.
  intros Hd Hout Hdiff Hrun. rewrite getDiffs_walk in Hdiff.
  destruct (Stat (fs w) localDir) as [n|e] eqn:HL; [|discriminate].
  injection Hdiff as _ Hdiffs.
  destruct (relsUnder_files _ _ Hd HL) as [Hnd Hfiles].
  assert (Hsrc : forall rel, In rel (relsUnder (fs w) localDir) ->
                   exists c m, Stat n rel = Ok (File c m)).
  { intros rel Hin. destruct (Hfiles rel Hin) as (c & m & HS).
    unfold Join in HS. rewrite Stat_app, HL in HS. eauto. }
  destruct (applyDiffs_done n diffs w w' Hrun) as (HL' & Hdone & Hkeep).
  { subst diffs. now apply NoDup_filter. }
  { intros rel q Hin. apply Hout. subst diffs. now apply filter_In in Hin. }
  { exact HL. }
  { intros rel Hin. apply Hsrc. subst diffs. now apply filter_In in Hin. }
  assert (Hrels : relsUnder (fs w') localDir = relsUnder (fs w) localDir)
    by (unfold relsUnder; now rewrite HL, HL').
  assert (Hquiet : forall rel, In rel (relsUnder (fs w) localDir) ->
            changed Match (fs w') localDir homeDir ignores rel = false).
  { intros rel Hin. destruct (Hsrc rel Hin) as (c & m & Hrel).
    assert (Hs' : Stat (fs w') (Join localDir rel) = Ok (File c m))
      by (unfold Join; now rewrite Stat_app, HL').
    destruct (changed Match (fs w) localDir homeDir ignores rel) eqn:Hch.
    - destruct (Hdone rel) as (c1 & m1 & Hrel1 & Hdst).
      { subst diffs. apply filter_In. auto. }
      rewrite Hrel in Hrel1. injection Hrel1 as <- <-.
      eapply same_file_unchanged; eauto.
    - destruct (isIgnored Match (pathString rel) ignores) eqn:Hig;
        [unfold changed; now rewrite Hig|].
      assert (Hs : Stat (fs w) (Join localDir rel) = Ok (File c m))
        by (unfold Join; now rewrite Stat_app, HL).
      destruct (unchanged_same_file _ _ _ _ Hig Hch Hs) as [m' Ht].
      eapply same_file_unchanged; [exact Hs'|]. apply Hkeep; [|exact Ht].
      intros r Hr Heq. apply app_inv_head in Heq. subst r diffs.
      apply filter_In in Hr. destruct Hr as [_ Hr]. congruence. }
  rewrite getDiffs_walk, HL', Hrels.
  rewrite flat_map_none, filter_none, app_nil_r; auto.
  intros rel Hin. apply unchanged_silent. now apply Hquiet.
Qed.

End UpdateFacts.

Lemma update_converges_witness :
  let w := Examples.startIn Examples.updateTree in
  let diffs := snd (fst (Cmd.getDiffs Examples.literalMatch (Cmd.fs w)
                           ["local"] ["home"] [] [])) in
  Cmd.getDiffs Examples.literalMatch
    (Cmd.fs (fst (Cmd.applyDiffs ["local"] ["home"] diffs w))) ["local"] ["home"] [] []
  = (([], []), None).
Proof.
  apply (update_converges Examples.literalMatch unit ["local"] ["home"] []
           (Examples.startIn Examples.updateTree) _ []
           [Cmd.DiffLine Cmd.Modified "file.txt"] [["file.txt"]] []).
  - reflexivity.
  - intros rel q _ H. discriminate H.
  - reflexivity.
  - reflexivity.
Defined.

(** ** The reify command and the rendering of one file *)

Section ReifyCmdFacts.

Import Template Processor.

Lemma Stat_error fs p e : Stat fs p = Fail e -> exists op code, e = PathError op code.
Proof.
  revert fs. induction p as [|x p IH]; intros fs H; simpl in H; [discriminate|].
  destruct fs as [|es]; [injection H as <-; eauto|].
  destruct (find x es); [eauto|injection H as <-; eauto].
Qed.

Lemma ReadFile_error fs p e : ReadFile fs p = Fail e -> exists op code, e = PathError op code.
Proof.
  unfold ReadFile. destruct (Stat fs p) as [[c m|es]|e0] eqn:HS; [discriminate| |].
  - intros [= <-]. eauto.
  - destruct (Stat_error _ _ _ HS) as (op & code & ->). intros [= <-]. eauto.
Qed.

Lemma createTrunc_error p : forall fs data perm e,
  createTrunc fs p data perm = Fail e -> exists op code, e = PathError op code.
Proof.
  induction p as [|x p IH]; intros fs data perm e H; simpl in H.
  - destruct fs; [discriminate|]. injection H as <-. eauto.
  - destruct fs as [|es]; [injection H as <-; eauto|].
    destruct (find x es) as [n|].
    + destruct (createTrunc n p data perm) eqn:E; simpl in H; [discriminate|].
      injection H as <-. eauto.
    + destruct p; [discriminate|]. injection H as <-. eauto.
Qed.

(** The errors of the pass that writes: of the file system, or of a
    template, with the name of the file. *)
Lemma processFile_error data secretFn p dryRun fs fs' e :
  processFile p data secretFn dryRun fs = (fs', Some e) ->
  (exists op code, e = PathError op code)
  \/ (exists cause, e = Wrapf "failed to parse template %s: %w" [pathString p] cause)
  \/ (exists cause, e = Wrapf "failed to execute template %s: %w" [pathString p] cause).
Proof.
  unfold processFile, renderAndWrite, WriteFile.
  destruct (ReadFile fs p) as [c|e0] eqn:HR.
  - destruct (Parse c) as [tmpl|e1]; [|intros [= _ <-]; eauto].
    destruct (Execute secretFn tmpl data) as [out|e2].
    + destruct dryRun; [discriminate|].
      destruct (createTrunc fs p out _) as [fs2|e3] eqn:HW; [discriminate|].
      intros [= _ <-]. left. eapply createTrunc_error; eauto.
    + destruct dryRun; intros [= _ <-]; eauto.
  - intros [= _ <-]. left. eapply ReadFile_error; eauto.
Qed.

Lemma forEachFile_error data secretFn dryRun ps : forall fs fs' e,
  forEachFile (fun p => processFile p data secretFn dryRun) ps fs = (fs', Some e) ->
  (exists op code, e = PathError op code)
  \/ (exists name cause, e = Wrapf "failed to parse template %s: %w" [name] cause)
  \/ (exists name cause, e = Wrapf "failed to execute template %s: %w" [name] cause).
Proof.
  induction ps as [|p ps IH]; intros fs fs' e H; [discriminate|].
  cbn [forEachFile] in H.
  destruct (processFile p data secretFn dryRun fs) as [fs1 [e1|]] eqn:Hp; [|eauto].
  injection H as _ <-.
  destruct (processFile_error _ _ _ _ _ _ _ Hp) as [H|[[cause ->]|[cause ->]]]; eauto.
Qed.

Lemma Reify_error_keeps_tree data secretFn root fs fs' cause :
  Reify root data secretFn false fs = (fs', Some (Wrapf "dry-run failed: %w" [] cause)) ->
  fs' = fs.
Proof.
  unfold Reify.
  pose proof (walkAndProcess_dry data secretFn root fs) as Hfs.
  destruct (walkAndProcess root data secretFn true fs) as [fs1 [e1|]] eqn:Hw;
    simpl in Hfs; subst fs1; [now intros [= <- _]|].
  rewrite walkAndProcess_forEachFile.
  destruct (Stat fs root) as [n|e0] eqn:HS.
  - intros H. exfalso.
    destruct (forEachFile_error _ _ _ _ _ _ _ H)
      as [(op & code & He)|[(name & c & He)|(name & c & He)]]; discriminate.
  - intros [= <- _]. reflexivity.
Qed.

(** X12. An error that [scadu reify] returns for a missing target, for a
    secret store it cannot read, or from the validation pass means that
    nothing was written. *)
Theorem reifyCmd_error_keeps_tree cfg targetPath useSecret fs fs' e :
  Cmd.reifyCmd cfg targetPath useSecret fs = (fs', Some e) ->
  (exists cause, e = Wrapf "invalid path: %w" [] cause)
  \/ (exists envPath cause, e = Wrapf "failed to read .env at %s: %w" [envPath] cause)
  \/ (exists cause, e = Wrapf "dry-run failed: %w" [] cause) ->
  fs' = fs.
Proof.
  unfold Cmd.reifyCmd.
  destruct (Stat fs targetPath) as [info|err]; [|now intros [= <- _]].
  assert (HReify : forall secretFn,
            Reify targetPath (Cmd.AllSettings cfg) secretFn false fs = (fs', Some e) ->
            (exists cause, e = Wrapf "invalid path: %w" [] cause)
            \/ (exists envPath cause,
                  e = Wrapf "failed to read .env at %s: %w" [envPath] cause)
            \/ (exists cause, e = Wrapf "dry-run failed: %w" [] cause) ->
            fs' = fs).
  { intros secretFn H [[cause ->]|[(envPath & cause & ->)|[cause ->]]].
    - exfalso. revert H. unfold Reify.
      destruct (walkAndProcess targetPath _ secretFn true fs) as [fs1 [e1|]];
        [discriminate|].
      rewrite walkAndProcess_forEachFile.
      destruct (Stat fs1 targetPath) as [n|e0] eqn:HS.
      + intros H. destruct (forEachFile_error _ _ _ _ _ _ _ H)
          as [(op & code & He)|[(name & c & He)|(name & c & He)]]; discriminate.
      + intros [= _ He]. destruct (Stat_error _ _ _ HS) as (op & code & ->). discriminate.
    - exfalso. revert H. unfold Reify.
      destruct (walkAndProcess targetPath _ secretFn true fs) as [fs1 [e1|]];
        [discriminate|].
      rewrite walkAndProcess_forEachFile.
      destruct (Stat fs1 targetPath) as [n|e0] eqn:HS.
      + intros H. destruct (forEachFile_error _ _ _ _ _ _ _ H)
          as [(op & code & He)|[(name & c & He)|(name & c & He)]]; discriminate.
      + intros [= _ He]. destruct (Stat_error _ _ _ HS) as (op & code & ->). discriminate.
    - eapply Reify_error_keeps_tree; eauto. }
  destruct useSecret.
  - unfold GetSecretFn.
    destruct (Godotenv.Read fs _) as [m|err] eqn:HR; cbn [bind].
    + apply HReify.
    + now intros [= <- _].
  - apply HReify.
Qed.

End ReifyCmdFacts.

Lemma reifyCmd_error_keeps_tree_witness :
  fst (Cmd.reifyCmd Examples.plainConfig ["root"] true
         (Examples.secretRepo (Some "OTHER=MySecret")))
  = Examples.secretRepo (Some "OTHER=MySecret").
Proof.
  eapply (reifyCmd_error_keeps_tree Examples.plainConfig ["root"] true
            (Examples.secretRepo (Some "OTHER=MySecret"))).
  - vm_compute. reflexivity.
  - right. right. eexists. reflexivity.
Defined.

Section ReifyFileFacts.

Import Template Processor.

Lemma ReifyFile_result src dst data secretFn fs fs' r :
  ReifyFile src dst data secretFn fs = (fs', r) ->
  (forall q c m, q <> dst -> Stat fs q = Ok (File c m) -> Stat fs' q = Ok (File c m))
  /\ (r = None ->
      exists c tmpl out,
        ReadFile fs src = Ok c /\ Parse c = Ok tmpl
        /\ Execute secretFn tmpl data = Ok out /\ ReadFile fs' dst = Ok out)
  /\ (r <> None ->
      forall q c m, Stat fs q = Ok (File c m) -> Stat fs' q = Ok (File c m)).
Proof.
  unfold ReifyFile, renderAndWrite, WriteFile. intros H.
  destruct (ReadFile fs src) as [c|e0] eqn:HR;
    [|injection H as <- <-; repeat split; auto; discriminate].
  destruct (MkdirAll fs (Dir' dst)) as [fs1|e0] eqn:HM;
    [|injection H as <- <-; repeat split; auto; discriminate].
  assert (F1 : forall q c m, Stat fs q = Ok (File c m) -> Stat fs1 q = Ok (File c m))
    by (intros; eapply stat_MkdirAll_file; eauto).
  destruct (Parse c) as [tmpl|e0] eqn:HP;
    [|injection H as <- <-; repeat split; auto; discriminate].
  destruct (Execute secretFn tmpl data) as [out|e0] eqn:HE;
    [|injection H as <- <-; repeat split; auto; discriminate].
  destruct (createTrunc fs1 dst out _) as [fs2|e0] eqn:HW;
    injection H as <- <-; [|repeat split; auto; discriminate].
  split; [|split].
  - intros q c0 m0 Hq HS. eapply stat_createTrunc_other; [exact HW|now apply F1|exact Hq].
  - intros _. exists c, tmpl, out. repeat split; auto.
    eapply ReadFile_file. eapply stat_createTrunc_same. exact HW.
  - congruence.
Qed.

(** X13. [ReifyFile] changes no file other than the destination.  When it
    returns no error the destination holds the rendering of the source;
    when it returns an error every file, the destination too, has the
    content and the mode it had. *)
Theorem ReifyFile_renders_source src dst data secretFn fs fs' r :
  ReifyFile src dst data secretFn fs = (fs', r) ->
  (forall q c m, q <> dst -> Stat fs q = Ok (File c m) -> Stat fs' q = Ok (File c m))
  /\ (r = None ->
      exists c tmpl out,
        ReadFile fs src = Ok c /\ Parse c = Ok tmpl
        /\ Execute secretFn tmpl data = Ok out /\ ReadFile fs' dst = Ok out)
  /\ (r <> None ->
      forall q c m, Stat fs q = Ok (File c m) -> Stat fs' q = Ok (File c m)).
Proof. apply ReifyFile_result. Qed.

End ReifyFileFacts.

Lemma ReifyFile_renders_source_witness :
  exists c tmpl out,
    ReadFile Examples.scratchRepo ["repo"; "t.conf"] = Ok c
    /\ Template.Parse c = Ok tmpl
    /\ Template.Execute Cmd.passThrough tmpl Examples.someContext = Ok out
    /\ ReadFile (fst (Processor.ReifyFile ["repo"; "t.conf"] ["tmp"; "out"; "t.conf"]
                       Examples.someContext Cmd.passThrough Examples.scratchRepo))
                ["tmp"; "out"; "t.conf"] = Ok out.
Proof.
  eapply (ReifyFile_renders_source ["repo"; "t.conf"] ["tmp"; "out"; "t.conf"]
            Examples.someContext Cmd.passThrough Examples.scratchRepo _ None);
    vm_compute; reflexivity.
Defined.

(** ** The wait for the fork, when it ends *)

Section WaitEndFacts.

Import Cmd.

Variable Repo : Type.
Variable PlainOpen : path -> gitState Repo -> option error.
Variable WorktreePull : gitState Repo -> gitState Repo * option error.
Variable HeadMessage : gitState Repo -> result string.
Variable localDir : path.
Variable mainID : string.

Local Notation "'headID'" := (GetHeadID PlainOpen HeadMessage localDir).
Local Notation "'pulled'" := (afterPulls PlainOpen WorktreePull localDir).
Local Notation "'wait'" := (waitLoop PlainOpen WorktreePull HeadMessage localDir mainID).

(** X14. When the loop returns, the marker of the fork is the marker of
    main. *)
Theorem wait_returns_in_sync rounds : forall (w w' : World Repo),
  wait rounds w = (w', Val tt) -> headID (git w') = Ok mainID.
Proof.
  induction rounds as [|rounds IH]; intros w w' H; [discriminate|].
  destruct (headID (git w)) as [forkID|err] eqn:Hid.
  - destruct (String.eqb_spec forkID mainID) as [->|Hne].
    + simpl in H. rewrite Hid, String.eqb_refl in H. unfold say in H.
      injection H as <-. exact Hid.
    + destruct (waitLoop_retry Repo PlainOpen WorktreePull HeadMessage localDir mainID
                  rounds w forkID Hid Hne) as (w1 & Hw1 & _).
      rewrite Hw1 in H. eapply IH. exact H.
  - simpl in H. rewrite Hid in H. discriminate.
Qed.

(** X15. When reading the marker of the fork first fails after [k] pulls,
    each read before it giving a marker other than the one of main, the
    loop returns that failure once it may enter its body more than [k]
    times, having paused [k] times and pulled [k] times. *)
Theorem wait_read_failure k : forall (w : World Repo) err,
  (forall i, i < k -> exists m, headID (pulled i (git w)) = Ok m /\ m <> mainID) ->
  headID (pulled k (git w)) = Fail err ->
  forall rounds, k < rounds ->
    exists w', wait rounds w = (w', Err (Wrapf "failed to get fork ID: %w" [] err))
               /\ git w' = pulled k (git w)
               /\ countSleeps (stdout w') = countSleeps (stdout w) + k.
Proof.
  induction k as [|k IH]; intros w err Hbefore Hat [|r] Hr; try lia.
  - simpl in *. rewrite Hat. exists w. repeat split. lia.
  - destruct (Hbefore 0 ltac:(lia)) as (m & Hm & Hne). simpl in Hm.
    destruct (waitLoop_retry Repo PlainOpen WorktreePull HeadMessage localDir mainID
                r w m Hm Hne) as (w1 & -> & Hg & Hs).
    destruct (IH w1 err) with (rounds := r) as (w' & Hw' & Hg' & Hs').
    + intros i Hi. rewrite Hg. apply (Hbefore (S i)). lia.
    + rewrite Hg. exact Hat.
    + lia.
    + exists w'. split; [exact Hw'|]. split.
      * rewrite Hg', Hg. reflexivity.
      * rewrite Hs', Hs. lia.
Qed.

End WaitEndFacts.

Lemma wait_returns_in_sync_witness :
  Cmd.GetHeadID Examples.scriptedOpen Examples.scriptedHead ["local"]
    (Cmd.git (fst (Cmd.waitLoop Examples.scriptedOpen Examples.scriptedPull
                     Examples.scriptedHead ["local"] "id-2" 3 Examples.convergingWorld)))
  = Ok "id-2".
Proof.
  apply (wait_returns_in_sync (list string) Examples.scriptedOpen Examples.scriptedPull
           Examples.scriptedHead ["local"] "id-2" 3 Examples.convergingWorld).
  vm_compute. reflexivity.
Defined.

Lemma wait_read_failure_witness :
  exists w',
    Cmd.waitLoop Examples.scriptedOpen Examples.scriptedPull Examples.exhaustedHead
      ["local"] "id-9" 3 Examples.stallingWorld
    = (w', Cmd.Err (Wrapf "failed to get fork ID: %w" []
                      (Errorf "reference not found" [])))
    /\ Cmd.git w'
       = Cmd.afterPulls Examples.scriptedOpen Examples.scriptedPull ["local"] 2
           (Cmd.git Examples.stallingWorld)
    /\ Cmd.countSleeps (Cmd.stdout w')
       = Cmd.countSleeps (Cmd.stdout Examples.stallingWorld) + 2.
Proof.
  apply (wait_read_failure (list string) Examples.scriptedOpen Examples.scriptedPull
           Examples.exhaustedHead ["local"] "id-9" 2 Examples.stallingWorld).
  - intros i Hi. destruct i as [|[|i]]; [| |lia].
    + exists "id-0". split; [reflexivity|discriminate].
    + exists "id-1". split; [reflexivity|discriminate].
  - reflexivity.
  - lia.
Defined.

(** ** The files an update may change *)

Section ConsentFacts.

Import Cmd.

Variable Match : string -> string -> bool * option error.
Variable Repo : Type.
Variable Checkout : path -> string -> gitState Repo -> gitState Repo * option error.
Variable PlainOpen : path -> gitState Repo -> option error.
Variable RepoPush : gitState Repo -> gitState Repo * option error.
Variable WorktreePull : gitState Repo -> gitState Repo * option error.
Variable HeadMessage : gitState Repo -> result string.

(** A property of the working tree that the operations of git preserve,
    and the input the command starts with. *)
Variable I : node -> Prop.
Variable input : list string.

Hypothesis Checkout_keeps : forall p b g, I (snd g) -> I (snd (fst (Checkout p b g))).
Hypothesis RepoPush_keeps : forall g, I (snd g) -> I (snd (fst (RepoPush g))).
Hypothesis WorktreePull_keeps : forall g, I (snd g) -> I (snd (fst (WorktreePull g))).

Local Notation "'P'" := (fun w : World Repo => I (fs w) /\ stdin w = input).

Lemma andThen_keeps (A B : Type) (Q : World Repo -> Prop) (c : cmd Repo A)
    (k : A -> cmd Repo B) w :
  (forall w, P w -> Q w) ->
  (forall w, P w -> P (fst (c w))) ->
  (forall a w, P w -> Q (fst (k a w))) ->
  P w -> Q (fst (andThen c k w)).
Proof.
  intros PQ Hc Hk Hw. unfold andThen. specialize (Hc w Hw).
  destruct (c w) as [w1 [a|e|]]; cbn [fst] in *; auto.
Qed.

Lemma say_keeps e (w : World Repo) : P w -> P (fst (say e w)).
Proof. intros H. exact H. Qed.

Lemma gitOp_keeps op (w : World Repo) :
  (forall g, I (snd g) -> I (snd (fst (op g)))) -> P w -> P (fst (gitOp op w)).
Proof.
  intros Hop [HI Hin]. unfold gitOp. specialize (Hop (git w) HI).
  destruct (op (git w)) as [g e]. split; [exact Hop|exact Hin].
Qed.

Lemma orFail_keeps fmt (c : cmd Repo (option error)) (w : World Repo) :
  (forall w, P w -> P (fst (c w))) -> P w -> P (fst (orFail fmt c w)).
Proof.
  intros Hc Hw. unfold orFail. apply andThen_keeps; auto.
  intros [e|] w1 H1; exact H1.
Qed.

Lemma Push_keeps p g : I (snd g) -> I (snd (fst (Push PlainOpen RepoPush p g))).
Proof.
  intros H. unfold Push. destruct (PlainOpen p g); [exact H|].
  specialize (RepoPush_keeps g H). destruct (RepoPush g) as [g1 [e|]]; [|exact RepoPush_keeps].
  destruct (isAlreadyUpToDate e); exact RepoPush_keeps.
Qed.

Lemma Pull_keeps p g : I (snd g) -> I (snd (fst (Pull PlainOpen WorktreePull p g))).
Proof.
  intros H. unfold Pull. destruct (PlainOpen p g); [exact H|].
  specialize (WorktreePull_keeps g H).
  destruct (WorktreePull g) as [g1 [e|]]; [|exact WorktreePull_keeps].
  destruct (isAlreadyUpToDate e); exact WorktreePull_keeps.
Qed.

Lemma pullWithWarning_keeps localDir (w : World Repo) :
  P w -> P (fst (pullWithWarning PlainOpen WorktreePull localDir w)).
Proof.
  intros Hw. unfold pullWithWarning.
  apply andThen_keeps; auto using say_keeps. intros _ w1 H1.
  apply andThen_keeps; auto.
  - intros w2 H2. apply gitOp_keeps; [apply Pull_keeps|exact H2].
  - intros [e|] w2 H2; exact H2.
Qed.

Lemma waitLoop_keeps localDir mainID rounds : forall (w : World Repo),
  P w -> P (fst (waitLoop PlainOpen WorktreePull HeadMessage localDir mainID rounds w)).
Proof.
  induction rounds as [|rounds IH]; intros w Hw; [exact Hw|].
  cbn [waitLoop].
  destruct (GetHeadID PlainOpen HeadMessage localDir (git w)) as [forkID|err]; [|exact Hw].
  destruct (String.eqb forkID mainID); [exact Hw|].
  apply andThen_keeps; auto using say_keeps. intros _ w1 H1.
  apply andThen_keeps; auto using say_keeps. intros _ w2 H2.
  apply andThen_keeps; auto using pullWithWarning_keeps.
Qed.

Lemma waitForFork_keeps updateWait localDir mainID rounds (w : World Repo) :
  P w ->
  P (fst (waitForFork PlainOpen WorktreePull HeadMessage updateWait localDir mainID rounds w)).
Proof.
  intros Hw. unfold waitForFork.
  destruct (updateWait && negb (String.eqb mainID EmptyString)); [|exact Hw].
  apply andThen_keeps; auto using say_keeps. intros _ w1 H1. now apply waitLoop_keeps.
Qed.

(** X16. Unless the line read from standard input is [y] or [yes] (white
    space around it and the case of its letters apart), an update changes
    the files only through the operations of git: a property of the tree
    that checkout, push and pull preserve holds when the command returns.
    The line is taken to be ASCII, where trimming and lower-casing byte by
    byte is what Go does. *)
Theorem update_needs_consent cfg host updateWait rounds (w : World Repo) :
  I (fs w) ->
  stdin w = input ->
  Strings.isASCII (hd EmptyString input) = true ->
  Strings.TrimSpace (Strings.ToLower (hd EmptyString input)) <> "y" ->
  Strings.TrimSpace (Strings.ToLower (hd EmptyString input)) <> "yes" ->
  I (fs (fst (updateCmd Match Checkout PlainOpen RepoPush WorktreePull HeadMessage
                cfg host updateWait rounds w))).
Proof.
  intros HI Hin _ Hy Hyes. unfold updateCmd.
  assert (PQ : forall w : World Repo, P w -> I (fs w)) by (intros w0 H0; apply H0).
  assert (Hw : P w) by (split; assumption).
  apply andThen_keeps; auto using say_keeps. intros _ w1 H1.
  apply andThen_keeps; auto.
  { intros w0 H0. apply orFail_keeps; [|exact H0].
    intros w' H'. apply gitOp_keeps; [apply Checkout_keeps|exact H']. }
  intros _ w2 H2.
  apply andThen_keeps; auto using say_keeps. intros _ w3 H3.
  apply andThen_keeps; auto.
  { intros w0 H0. apply orFail_keeps; [|exact H0].
    intros w' H'. apply gitOp_keeps; [apply Push_keeps|exact H']. }
  intros _ w4 H4.
  apply andThen_keeps; auto.
  { intros w0 H0. unfold readHeadID.
    destruct (GetHeadID PlainOpen HeadMessage _ (git w0)); exact H0. }
  intros mainID w5 H5.
  apply andThen_keeps; auto using say_keeps. intros _ w6 H6.
  apply andThen_keeps; auto using say_keeps. intros _ w7 H7.
  apply andThen_keeps; auto.
  { intros w0 H0. apply orFail_keeps; [|exact H0].
    intros w' H'. apply gitOp_keeps; [apply Checkout_keeps|exact H']. }
  intros _ w8 H8.
  apply andThen_keeps; auto using pullWithWarning_keeps. intros _ w9 H9.
  apply andThen_keeps; auto using waitForFork_keeps. intros _ w10 H10.
  apply andThen_keeps; auto.
  { intros w0 H0. unfold diffForkHome.
    destruct (getDiffs Match (fs w0) _ _ _ (stdout w0)) as [[out ds] [e|]]; exact H0. }
  intros [|d ds] w11 H11; [apply H11|].
  apply andThen_keeps; auto using say_keeps. intros _ w12 [HI12 Hin12].
  unfold andThen, readLine. rewrite Hin12.
  assert (Hno : forall resp,
            resp = hd EmptyString input ->
            negb (String.eqb (Strings.TrimSpace (Strings.ToLower resp)) "y")
            && negb (String.eqb (Strings.TrimSpace (Strings.ToLower resp)) "yes") = true).
  { intros resp ->. apply String.eqb_neq in Hy, Hyes. now rewrite Hy, Hyes. }
  destruct input as [|l rest]; cbn [fst snd]; rewrite Hno by reflexivity; exact HI12.
Qed.

End ConsentFacts.

Lemma update_needs_consent_witness :
  ReadFile
    (Cmd.fs (fst (Cmd.updateCmd Examples.literalMatch Examples.checkoutOk Examples.quietOpen
                    Examples.quietPush Examples.quietPull Examples.quietHead
                    Examples.plainConfig Examples.thisHost false 0
                    {| Cmd.repo := tt; Cmd.fs := Examples.updateTree;
                       Cmd.stdin := ["no"]; Cmd.stdout := [] |})))
    ["home"; "file.txt"] = Ok "v1".
Proof.
  apply (update_needs_consent Examples.literalMatch unit Examples.checkoutOk
           Examples.quietOpen Examples.quietPush Examples.quietPull Examples.quietHead
           (fun fs => ReadFile fs ["home"; "file.txt"] = Ok "v1") ["no"]);
    try reflexivity; try discriminate; auto.
Defined.

(** ** Comparing two files, and the ignore list *)

Section CompareFacts.

Import Cmd.

(** X17. Two paths are reported as the same exactly when both can be read
    and hold the same bytes: a path that cannot be read differs from every
    path, itself included; and the answer does not depend on the order of
    the two paths. *)
Theorem areFilesDifferent_spec fs pathA pathB :
  (areFilesDifferent fs pathA pathB = false
   <-> exists c, ReadFile fs pathA = Ok c /\ ReadFile fs pathB = Ok c)
  /\ areFilesDifferent fs pathA pathB = areFilesDifferent fs pathB pathA.
Proof.
  unfold areFilesDifferent. split.
  - destruct (ReadFile fs pathA) as [cA|eA]; [destruct (ReadFile fs pathB) as [cB|eB]|].
    + split.
      * intros H. apply negb_false_iff, String.eqb_eq in H. subst cB. eauto.
      * intros (c & [= ->] & [= ->]). now rewrite String.eqb_refl.
    + split; [discriminate|]. intros (c & _ & H). discriminate.
    + split; [discriminate|]. intros (c & H & _). discriminate.
  - destruct (ReadFile fs pathA) as [cA|eA], (ReadFile fs pathB) as [cB|eB];
      try reflexivity.
    now rewrite String.eqb_sym.
Qed.

Variable Match : string -> string -> bool * option error.

(** X18. A path is ignored exactly when [filepath.Match] answers true for
    one of the patterns; the error it returns for a pattern is dropped, so
    a pattern it rejects ignores nothing and stops nothing. *)
Theorem isIgnored_spec relPath patterns :
  isIgnored Match relPath patterns = true
  <-> exists p, In p patterns /\ fst (Match p relPath) = true.
Proof.
  induction patterns as [|p rest IH]; simpl.
  - split; [discriminate|]. intros (p & [] & _).
  - destruct (Match p relPath) as [matched e] eqn:HM. destruct matched.
    + split; [|reflexivity]. intros _. exists p. rewrite HM. auto.
    + rewrite IH. split.
      * intros (q & Hq & Hm). eauto.
      * intros (q & [<-|Hq] & Hm); [rewrite HM in Hm; discriminate|eauto].
Qed.

End CompareFacts.

(** ** Files without actions *)

Section PlainFacts.

Import Template Processor.

Variable data : fields.
Variable secretFn : SecretFn.

Lemma append_nil_r (s : string) : (s ++ "")%string = s.
Proof. induction s as [|c r IH]; [reflexivity|]. simpl. now rewrite IH. Qed.

Lemma Execute_text c : Execute secretFn (textNode c) data = Ok c.
Proof.
  pose proof (Execute_textNode secretFn c [] data) as H.
  rewrite app_nil_r in H. rewrite H. simpl. now rewrite append_nil_r.
Qed.

Lemma processFile_text p dryRun fs c :
  ReadFile fs p = Ok c -> noDelim c = true ->
  processFile p data secretFn dryRun fs = (fs, None).
Proof.
  intros HR Hc. unfold processFile, renderAndWrite. rewrite HR.
  pose proof (Parse_fileOf [] c (Forall_nil _) Hc) as HP. cbn [fileOf nodesOf] in HP.
  rewrite HP, Execute_text. destruct dryRun; [reflexivity|].
  destruct (ReadFile_inv _ _ _ HR) as [m HS]. rewrite HS. cbn [Mode]. unfold WriteFile.
  now rewrite (createTrunc_same _ _ _ _ m HS).
Qed.

Lemma forEachFile_fixed (S : Type) (f : path -> S -> S * option error) s ps :
  (forall p, In p ps -> f p s = (s, None)) -> forEachFile f ps s = (s, None).
Proof.
  induction ps as [|p ps IH]; intros H; [reflexivity|]. cbn [forEachFile].
  rewrite (H p (or_introl eq_refl)). apply IH. intros q Hq. apply H. now right.
Qed.

(** X19. When no file under the root holds a left delimiter, the
    validation pass of [Reify] finds no error and [Reify] leaves the tree as
    it is, whatever the context and the secret function. *)
Theorem Reify_plain_files root dryRun fs n :
  Stat fs root = Ok n ->
  (forall p, In p (filesUnder fs root) ->
     exists c, ReadFile fs p = Ok c /\ noDelim c = true) ->
  snd (Reify root data secretFn true fs) = None
  /\ fst (Reify root data secretFn dryRun fs) = fs.
Proof.
  intros HS Hplain.
  assert (Hpass : forall d, walkAndProcess root data secretFn d fs = (fs, None)).
  { intros d. rewrite walkAndProcess_forEachFile, HS. apply forEachFile_fixed.
    intros p Hp. destruct (Hplain p Hp) as (c & HR & Hc).
    eapply processFile_text; eauto. }
  unfold Reify. rewrite Hpass. split; [reflexivity|].
  destruct dryRun; [reflexivity|]. now rewrite Hpass.
Qed.

End PlainFacts.

Lemma Reify_plain_files_witness :
  snd (Processor.Reify ["local"] Examples.someContext Cmd.passThrough true
         Examples.checkTree) = None
  /\ fst (Processor.Reify ["local"] Examples.someContext Cmd.passThrough false
            Examples.checkTree) = Examples.checkTree.
Proof.
  eapply (Reify_plain_files Examples.someContext Cmd.passThrough ["local"] false
            Examples.checkTree).
  - reflexivity.
  - intros p Hp. vm_compute in Hp.
    repeat (destruct Hp as [<-|Hp]; [eexists; split; reflexivity|]).
    contradiction.
Defined.

(** ** The files a check may change *)

Section CheckFacts.

Import Cmd Processor.

Variable Match : string -> string -> bool * option error.
Variable Repo : Type.
Variable Checkout : path -> string -> gitState Repo -> gitState Repo * option error.
Variable PlainOpen : path -> gitState Repo -> option error.
Variable WorktreePull : gitState Repo -> gitState Repo * option error.
Variable MkdirTemp : node -> result (path * node).

(** A property of the tree outside the deferred removal, and one that
    holds while the temporary directory [t] is there. *)
Variable I : node -> Prop.
Variable J : path -> node -> Prop.

Hypothesis Checkout_I : forall p b g, I (snd g) -> I (snd (fst (Checkout p b g))).
Hypothesis WorktreePull_I : forall g, I (snd g) -> I (snd (fst (WorktreePull g))).
Hypothesis Checkout_J : forall t p b g, J t (snd g) -> J t (snd (fst (Checkout p b g))).
Hypothesis MkdirTemp_J : forall fs t fs1, MkdirTemp fs = Ok (t, fs1) -> I fs -> J t fs1.
Hypothesis ReifyFile_J : forall t src rel data secretFn fs,
  J t fs -> J t (fst (ReifyFile src (Join t rel) data secretFn fs)).
Hypothesis RemoveAll_I : forall t fs, J t fs -> I (RemoveAll fs t).

Lemma andThen_holds (A B : Type) (P : World Repo -> Prop) (c : cmd Repo A)
    (k : A -> cmd Repo B) w :
  (forall w, P w -> P (fst (c w))) ->
  (forall a w, P w -> P (fst (k a w))) ->
  P w -> P (fst (andThen c k w)).
Proof.
  intros Hc Hk Hw. unfold andThen. specialize (Hc w Hw).
  destruct (c w) as [w1 [a|e|]]; cbn [fst] in *; auto.
Qed.

Lemma gitOp_holds (K : node -> Prop) op (w : World Repo) :
  (forall g, K (snd g) -> K (snd (fst (op g)))) ->
  K (fs w) -> K (fs (fst (gitOp op w))).
Proof.
  intros Hop Hw. unfold gitOp. specialize (Hop (git w) Hw).
  destruct (op (git w)) as [g e]. exact Hop.
Qed.

Lemma runCompare_holds (K : node -> Prop) src tgt ign all (w : World Repo) :
  K (fs w) -> K (fs (fst (runCompare Match src tgt ign all w))).
Proof.
  intros Hw. unfold runCompare.
  destruct (compareDirs Match (fs w) src tgt ign all (stdout w)) as [out [e|]]; exact Hw.
Qed.

Lemma reifyToTemp_holds t localDir data fs0 :
  J t fs0 -> J t (fst (reifyToTemp localDir t data fs0)).
Proof.
  intros H. unfold reifyToTemp. apply WalkDir_inv; [|exact H].
  intros p d e s Hs. destruct e as [e|]; [exact Hs|].
  destruct (IsDir d); [destruct (String.eqb (Name d) ".git"); exact Hs|].
  cbv zeta.
  match goal with
  | |- J t (fst (asCtl ?r)) =>
      assert (Hr : J t (fst r)) by (now apply ReifyFile_J);
      destruct r as [s1 [e1|]]; exact Hr
  end.
Qed.

Lemma checkCmd_holds cfg host checkFlagLocal checkFlagFull checkFlagAll (w : World Repo) :
  I (fs w) ->
  I (fs (fst (checkCmd Match Checkout PlainOpen WorktreePull MkdirTemp cfg host
                checkFlagLocal checkFlagFull checkFlagAll w))).
Proof.
  intros Hw. unfold checkCmd.
  apply (andThen_holds _ _ (fun w => I (fs w))); [| |exact Hw].
  { intros w0 H0. destruct (negb checkFlagLocal); [|exact H0].
    apply (andThen_holds _ _ (fun w => I (fs w))); [auto| |exact H0].
    intros _ w1 H1.
    apply (andThen_holds _ _ (fun w => I (fs w))); [| |exact H1].
    - intros w2 H2. apply gitOp_holds; [|exact H2].
      apply Pull_keeps. exact WorktreePull_I.
    - intros [e|] w2 H2; exact H2. }
  intros _ w1 H1.
  apply (andThen_holds _ _ (fun w => I (fs w))); [auto| |exact H1].
  intros _ w2 H2.
  apply (andThen_holds _ _ (fun w => I (fs w))); [| |exact H2].
  { intros w0 H0. apply gitOp_holds; [apply Checkout_I|exact H0]. }
  intros [e|] w3 H3; [exact H3|].
  apply (andThen_holds _ _ (fun w => I (fs w))); [auto| |exact H3].
  intros _ w4 H4.
  apply (andThen_holds _ _ (fun w => I (fs w))); [| |exact H4].
  { intros w0 H0. now apply runCompare_holds. }
  intros _ w5 H5. destruct checkFlagFull; [|exact H5].
  apply (andThen_holds _ _ (fun w => I (fs w))); [auto| |exact H5].
  intros _ w6 H6.
  apply (andThen_holds _ _ (fun w => I (fs w))); [| |exact H6].
  { intros w0 H0. unfold orFail.
    apply (andThen_holds _ _ (fun w => I (fs w))); [| |exact H0].
    - intros w' H'. apply gitOp_holds; [apply Checkout_I|exact H'].
    - intros [e|] w' H'; exact H'. }
  intros _ w7 H7.
  destruct (MkdirTemp (fs w7)) as [[t fs1]|err] eqn:HT; [|exact H7].
  pose proof (MkdirTemp_J _ _ _ HT H7) as HJ.
  unfold deferRemoveAll.
  match goal with
  | |- I (fs (fst (let (w1, r) := ?c ?w0 in _))) =>
      assert (Hin : J t (fs (fst (c w0))));
      [|destruct (c w0) as [wz rz]; cbn [fst fs] in *; now apply RemoveAll_I]
  end.
  apply (andThen_holds _ _ (fun w => J t (fs w))); [| |exact HJ].
  { intros w0 H0. unfold fsOp.
    pose proof (reifyToTemp_holds t (localDirOf cfg host) (AllSettings cfg) (fs w0) H0) as Hr.
    destruct (reifyToTemp (localDirOf cfg host) t (AllSettings cfg) (fs w0)) as [fsr er].
    exact Hr. }
  intros [e|] w8 H8; [exact H8|].
  apply (andThen_holds _ _ (fun w => J t (fs w))); [| |exact H8].
  { intros w0 H0. apply (gitOp_holds (J t)); [apply Checkout_J|exact H0]. }
  intros [e|] w9 H9; [exact H9|].
  apply (andThen_holds _ _ (fun w => J t (fs w))); [auto| |exact H9].
  intros _ w10 H10. now apply (runCompare_holds (J t)).
Qed.

End CheckFacts.

Section CheckFrame.

Import Cmd Processor.

Lemma find_remove_other x y es : x <> y -> find y (remove x es) = find y es.
Proof.
  intros Hne. induction es as [|z n rest IH]; [reflexivity|]. simpl.
  destruct (String.eqb x z) eqn:Exz; simpl.
  - apply String.eqb_eq in Exz. subst z.
    assert (E : String.eqb y x = false) by (apply String.eqb_neq; congruence).
    now rewrite E.
  - now rewrite IH.
Qed.

Lemma find_remove_same x es : find x (remove x es) = None.
Proof.
  induction es as [|z n rest IH]; [reflexivity|]. simpl.
  destruct (String.eqb x z) eqn:Exz; [exact IH|]. simpl. now rewrite Exz.
Qed.

Lemma Stat_RemoveAll_other q : forall fs p c m,
  (forall r, q <> p ++ r) -> Stat fs q = Ok (File c m) ->
  Stat (RemoveAll fs p) q = Ok (File c m).
Proof.
  induction q as [|x q IH]; intros fs p c m Hout HS.
  - simpl in HS. injection HS as ->. destruct p; reflexivity.
  - simpl in HS. destruct fs as [|es]; [discriminate|].
    destruct (find x es) as [n|] eqn:F; [|discriminate].
    destruct p as [|y p']; [exfalso; now apply (Hout (x :: q))|].
    cbn [RemoveAll].
    destruct (String.eqb y x) eqn:Eyx.
    + apply String.eqb_eq in Eyx. subst y.
      destruct p' as [|z p'']; [exfalso; now apply (Hout q)|].
      rewrite F. cbn [Stat]. rewrite find_set_same.
      apply IH; [|exact HS]. intros r ->. now apply (Hout r).
    + apply String.eqb_neq in Eyx.
      destruct p' as [|z p''].
      * cbn [Stat]. rewrite find_remove_other by assumption. now rewrite F.
      * destruct (find y es); cbn [Stat]; [rewrite find_set_other by assumption|];
          now rewrite F.
Qed.

Lemma Stat_RemoveAll_gone p : forall fs,
  p <> [] -> exists e, Stat (RemoveAll fs p) p = Fail e.
Proof.
  induction p as [|x p IH]; intros fs Hp; [congruence|].
  cbn [RemoveAll]. destruct fs as [|es]; [simpl; eauto|].
  destruct p as [|y p'].
  - simpl. rewrite find_remove_same. eauto.
  - destruct (find x es) as [n|] eqn:F.
    + destruct (IH n) as [e He]; [discriminate|].
      exists e. change (Stat (Dir (set x (RemoveAll n (y :: p')) es)) (x :: y :: p'))
        with (match find x (set x (RemoveAll n (y :: p')) es) with
              | Some k => Stat k (y :: p')
              | None => Fail (PathError "stat" ENOENT)
              end).
      now rewrite find_set_same.
    + change (Stat (Dir es) (x :: y :: p'))
        with (match find x es with
              | Some k => Stat k (y :: p')
              | None => Fail (PathError "stat" ENOENT)
              end).
      rewrite F. eauto.
Qed.

Lemma ReifyFile_other src dst data secretFn fs q c m :
  q <> dst -> Stat fs q = Ok (File c m) ->
  Stat (fst (ReifyFile src dst data secretFn fs)) q = Ok (File c m).
Proof.
  intros Hq HS. unfold ReifyFile, renderAndWrite, WriteFile.
  destruct (ReadFile fs src) as [content|]; [|exact HS].
  destruct (MkdirAll fs (Dir' dst)) as [fs1|] eqn:HM; [|exact HS].
  pose proof (stat_MkdirAll_file _ _ _ _ _ _ HM HS) as H1.
  destruct (Template.Parse content) as [tmpl|]; [|exact H1].
  destruct (Template.Execute secretFn tmpl data) as [out|]; [|exact H1].
  destruct (createTrunc fs1 dst out _) as [fs2|] eqn:HW; [|exact H1].
  eapply stat_createTrunc_other; eauto.
Qed.

Variable Match : string -> string -> bool * option error.
Variable Repo : Type.
Variable Checkout : path -> string -> gitState Repo -> gitState Repo * option error.
Variable PlainOpen : path -> gitState Repo -> option error.
Variable WorktreePull : gitState Repo -> gitState Repo * option error.
Variable MkdirTemp : node -> result (path * node).

(** X20. A check changes no file other than through the operations of git:
    a file that checkout and pull leave alone, and that the making of the
    temporary directory (at a path where nothing was) leaves alone, has
    its content and its mode when the command returns, with or without
    the full comparison. *)
Theorem check_keeps_files cfg host checkFlagLocal checkFlagFull checkFlagAll
    (w : World Repo) q c m :
  (forall p b g, Stat (snd g) q = Ok (File c m) ->
     Stat (snd (fst (Checkout p b g))) q = Ok (File c m)) ->
  (forall g, Stat (snd g) q = Ok (File c m) ->
     Stat (snd (fst (WorktreePull g))) q = Ok (File c m)) ->
  (forall fs t fs1, MkdirTemp fs = Ok (t, fs1) ->
     (exists e, Stat fs t = Fail e)
     /\ (Stat fs q = Ok (File c m) -> Stat fs1 q = Ok (File c m))) ->
  Stat (fs w) q = Ok (File c m) ->
  Stat (fs (fst (checkCmd Match Checkout PlainOpen WorktreePull MkdirTemp cfg host
                   checkFlagLocal checkFlagFull checkFlagAll w))) q
  = Ok (File c m).
Proof.
  intros HC HP HT Hw.
  apply (checkCmd_holds Match Repo Checkout PlainOpen WorktreePull MkdirTemp
           (fun fs => Stat fs q = Ok (File c m))
           (fun t fs => Stat fs q = Ok (File c m) /\ forall r, q <> t ++ r)); auto.
  - intros t p b g [H1 H2]. auto.
  - intros fs0 t fs1 HM H0. destruct (HT _ _ _ HM) as [[e He] Hkeep].
    split; [auto|]. intros r ->. rewrite Stat_app, He in H0. discriminate.
  - intros t src rel data secretFn fs0 [H1 H2]. split; [|exact H2].
    apply ReifyFile_other; [apply H2|exact H1].
  - intros t fs0 [H1 H2]. now apply Stat_RemoveAll_other.
Qed.

(** X21. A check leaves no temporary directory behind: when nothing is at
    the path the library draws before the command runs, and checkout and
    pull put nothing there, nothing is there when the command returns,
    whether it returns an error or not. *)
Theorem check_leaves_no_temp cfg host checkFlagLocal checkFlagFull checkFlagAll
    (w : World Repo) tempDir :
  tempDir <> [] ->
  (forall fs t fs1, MkdirTemp fs = Ok (t, fs1) -> t = tempDir) ->
  (forall p b g, (exists e, Stat (snd g) tempDir = Fail e) ->
     exists e, Stat (snd (fst (Checkout p b g))) tempDir = Fail e) ->
  (forall g, (exists e, Stat (snd g) tempDir = Fail e) ->
     exists e, Stat (snd (fst (WorktreePull g))) tempDir = Fail e) ->
  (exists e, Stat (fs w) tempDir = Fail e) ->
  exists e,
    Stat (fs (fst (checkCmd Match Checkout PlainOpen WorktreePull MkdirTemp cfg host
                     checkFlagLocal checkFlagFull checkFlagAll w))) tempDir
    = Fail e.
Proof.
  intros Hne HT HC HP Hw.
  apply (checkCmd_holds Match Repo Checkout PlainOpen WorktreePull MkdirTemp
           (fun fs => exists e, Stat fs tempDir = Fail e)
           (fun t _ => t = tempDir)); auto.
  - intros fs0 t fs1 HM _. eauto.
  - intros t fs0 ->. now apply Stat_RemoveAll_gone.
Qed.

End CheckFrame.

Lemma scratchTemp_fresh fs t fs1 :
  Examples.scratchTemp fs = Ok (t, fs1) ->
  t = ["tmp"; "scadu-check-full-1"]
  /\ (exists e, Stat fs t = Fail e)
  /\ (forall q c m, Stat fs q = Ok (File c m) -> Stat fs1 q = Ok (File c m)).
Proof.
  unfold Examples.scratchTemp. intros H.
  destruct (Stat fs ["tmp"; "scadu-check-full-1"]) as [n|e] eqn:HS; [discriminate|].
  destruct (MkdirAll fs ["tmp"; "scadu-check-full-1"]) as [fs2|e2] eqn:HM; [|discriminate].
  injection H as <- <-. split; [reflexivity|]. split; [eauto|].
  intros q c m Hq. eapply stat_MkdirAll_file; eauto.
Qed.

Lemma check_keeps_files_witness :
  Stat (Cmd.fs (fst (Cmd.checkCmd Examples.literalMatch Examples.checkoutOk
                       Examples.quietOpen Examples.quietPull Examples.scratchTemp
                       Examples.plainConfig Examples.thisHost false true true
                       (Examples.startIn Examples.checkTree))))
       ["home"; "file2.conf"]
  = Ok (File "val = user_modified" mode0644).
Proof.
  apply (check_keeps_files Examples.literalMatch unit Examples.checkoutOk
           Examples.quietOpen Examples.quietPull Examples.scratchTemp
           Examples.plainConfig Examples.thisHost false true true
           (Examples.startIn Examples.checkTree)).
  - intros p b g H. exact H.
  - intros g H. exact H.
  - intros fs t fs1 H. destruct (scratchTemp_fresh _ _ _ H) as (_ & Hfresh & Hkeep).
    split; [exact Hfresh|apply Hkeep].
  - reflexivity.
Defined.

Lemma check_leaves_no_temp_witness :
  exists e,
    Stat (Cmd.fs (fst (Cmd.checkCmd Examples.literalMatch Examples.checkoutOk
                         Examples.quietOpen Examples.quietPull Examples.scratchTemp
                         Examples.plainConfig Examples.thisHost false true true
                         (Examples.startIn Examples.checkTree))))
         ["tmp"; "scadu-check-full-1"]
    = Fail e.
Proof.
  apply (check_leaves_no_temp Examples.literalMatch unit Examples.checkoutOk
           Examples.quietOpen Examples.quietPull Examples.scratchTemp
           Examples.plainConfig Examples.thisHost false true true
           (Examples.startIn Examples.checkTree) ["tmp"; "scadu-check-full-1"]).
  - discriminate.
  - intros fs t fs1 H. apply (scratchTemp_fresh _ _ _ H).
  - intros p b g H. exact H.
  - intros g H. exact H.
  - eexists. reflexivity.
Defined.

(** The full check of the command's own test: the template of main, once
    rendered, differs from the fork. *)
Example check_full_run :
  let r := Cmd.checkCmd Examples.literalMatch Examples.branchCheckout Examples.branchOpen
             Examples.branchPull Examples.scratchTemp Examples.testConfig Examples.thisHost
             true true false Examples.testWorld in
  snd r = Cmd.Val tt
  /\ Cmd.stdout (fst r)
     = [Cmd.Printf "Checking fork branch '%s'..." ["testfork"];
        Cmd.Printf "Local Status:" [];
        Cmd.DiffLine Cmd.Modified "file2.conf";
        Cmd.DiffLine Cmd.New "missing_in_home.txt";
        Cmd.Printf (String Template.newline "Checking main branch (template status)...") [];
        Cmd.Printf "Template Status (Main vs Fork):" [];
        Cmd.DiffLine Cmd.Modified "file2.conf"]
  /\ Cmd.notExist (Cmd.fs (fst r)) ["tmp"; "scadu-check-full-1"] = true.
Proof. vm_compute. auto. Qed.

(** ** The editor, the remote and the configuration of a new setup *)

Section EditorFacts.

Import Cmd.

Variable Getenv : string -> string.
Variable LookPath : string -> result string.

Lemma resolveEditor_firstFound :
  resolveEditor Getenv LookPath
  = match firstFound LookPath (editorCandidates Getenv) with
    | Some p => Ok p
    | None => Fail (Errorf "no valid editor found" [])
    end.
Proof.
  unfold resolveEditor, editorCandidates, fromEnv.
  destruct (Getenv "EDITOR") as [|a s]; cbn [String.eqb negb app].
  - destruct (Getenv "VISUAL") as [|b t]; cbn [String.eqb negb app]; [reflexivity|].
    cbn [firstFound]. destruct (LookPath (String b t)); reflexivity.
  - cbn [firstFound]. destruct (LookPath (String a s)); [reflexivity|].
    destruct (Getenv "VISUAL") as [|b t]; cbn [String.eqb negb app]; [reflexivity|].
    cbn [firstFound]. destruct (LookPath (String b t)); reflexivity.
Qed.

Lemma firstFound_first pre c post p :
  (forall x, In x pre -> exists e, LookPath x = Fail e) ->
  LookPath c = Ok p ->
  firstFound LookPath (pre ++ c :: post) = Some p.
Proof.
  intros Hpre Hc. induction pre as [|x pre IH]; simpl; [now rewrite Hc|].
  destruct (Hpre x (or_introl eq_refl)) as [e ->]. apply IH.
  intros y Hy. apply Hpre. now right.
Qed.

Lemma firstFound_none names :
  (forall x, In x names -> exists e, LookPath x = Fail e) ->
  firstFound LookPath names = None.
Proof.
  induction names as [|x names IH]; intros H; [reflexivity|]. simpl.
  destruct (H x (or_introl eq_refl)) as [e ->]. apply IH.
  intros y Hy. apply H. now right.
Qed.

(** X22. [resolveEditor] returns the path of the first name that
    [exec.LookPath] finds among the value of EDITOR, the value of VISUAL
    (each when not empty), [nvim], [vim] and [vi], in this order; it fails
    only when none of them is found. *)
Theorem resolveEditor_first_found :
  (forall pre c post p,
      editorCandidates Getenv = pre ++ c :: post ->
      (forall x, In x pre -> exists e, LookPath x = Fail e) ->
      LookPath c = Ok p ->
      resolveEditor Getenv LookPath = Ok p)
  /\ ((forall x, In x (editorCandidates Getenv) -> exists e, LookPath x = Fail e) ->
      resolveEditor Getenv LookPath = Fail (Errorf "no valid editor found" [])).
Proof.
  split.
  - intros pre c post p Hc Hpre Hp.
    now rewrite resolveEditor_firstFound, Hc, (firstFound_first pre c post p Hpre Hp).
  - intros H. now rewrite resolveEditor_firstFound, (firstFound_none _ H).
Qed.

End EditorFacts.

Lemma resolveEditor_first_found_witness :
  Cmd.resolveEditor Examples.noEditorEnv Examples.onlyVim = Ok "/usr/bin/vim".
Proof.
  apply (proj1 (resolveEditor_first_found Examples.noEditorEnv Examples.onlyVim)
           ["nvim"] "vim" ["vi"]).
  - reflexivity.
  - intros x [<-|[]]. eexists. reflexivity.
  - reflexivity.
Defined.

Section InitFacts.

Import Cmd Strings.

Lemma splitOn_lacks sep s : forall cur,
  lacks sep s = true -> splitOn sep s cur = [(cur ++ s)%string].
Proof.
  induction s as [|c r IH]; intros cur H; simpl in H |- *.
  - now rewrite append_nil_r.
  - apply andb_prop in H. destruct H as [Hc Hr]. apply negb_true_iff in Hc.
    rewrite Hc, IH by exact Hr. now rewrite append_assoc.
Qed.

Lemma splitOn_sep sep a b : forall cur,
  lacks sep a = true ->
  splitOn sep (a ++ String sep b) cur = (cur ++ a)%string :: splitOn sep b EmptyString.
Proof.
  induction a as [|c r IH]; intros cur H; simpl in H |- *.
  - now rewrite Ascii.eqb_refl, append_nil_r.
  - apply andb_prop in H. destruct H as [Hc Hr]. apply negb_true_iff in Hc.
    rewrite Hc, IH by exact Hr. now rewrite append_assoc.
Qed.

Lemma splitOn_cons sep s cur : exists first rest, splitOn sep s cur = first :: rest.
Proof.
  revert cur. induction s as [|c r IH]; intros cur; simpl; [eauto|].
  destruct (Ascii.eqb c sep); eauto.
Qed.

(** X23. The remote of a new setup: [user] alone names the repository
    [dotfiles] of that user, [user/repo] names that repository, and what
    follows a second slash is dropped. *)
Theorem remoteURLOf_spec user repo :
  lacks "/" user = true -> lacks "/" repo = true ->
  remoteURLOf user = ("https://github.com/" ++ user ++ "/dotfiles.git")%string
  /\ remoteURLOf (user ++ "/" ++ repo)
     = ("https://github.com/" ++ user ++ "/" ++ repo ++ ".git")%string
  /\ forall rest,
       remoteURLOf (user ++ "/" ++ repo ++ "/" ++ rest)
       = ("https://github.com/" ++ user ++ "/" ++ repo ++ ".git")%string.
Proof.
  intros Hu Hr. unfold remoteURLOf, Split. split; [|split].
  - now rewrite (splitOn_lacks _ _ EmptyString Hu).
  - change (user ++ "/" ++ repo)%string with (user ++ String "/" repo)%string.
    rewrite (splitOn_sep _ _ _ EmptyString Hu), (splitOn_lacks _ _ EmptyString Hr).
    reflexivity.
  - intros rest.
    change (user ++ "/" ++ repo ++ "/" ++ rest)%string
      with (user ++ String "/" (repo ++ String "/" rest))%string.
    rewrite (splitOn_sep _ _ _ EmptyString Hu), (splitOn_sep _ _ _ EmptyString Hr).
    reflexivity.
Qed.

Lemma samePath_eq a b : samePath a b = true -> a = b.
Proof. unfold samePath. destruct (list_eq_dec string_dec a b); [auto|discriminate]. Qed.


End InitFacts.

Lemma remoteURLOf_spec_witness :
  Cmd.remoteURLOf "suderio" = "https://github.com/suderio/dotfiles.git"
  /\ Cmd.remoteURLOf ("suderio" ++ "/" ++ "dots")
     = "https://github.com/suderio/dots.git"
  /\ forall rest,
       Cmd.remoteURLOf ("suderio" ++ "/" ++ "dots" ++ "/" ++ rest)
       = "https://github.com/suderio/dots.git".
Proof.
  apply (remoteURLOf_spec "suderio" "dots"); reflexivity.
Defined.

Section InstallFacts.

Import Cmd Processor Template.

(** X25. The installation of an edited template: when it returns no error
    the file under home holds the rendering of the template, and a file
    that was there keeps the mode it had, not the mode of the template;
    whatever it returns, no file other than the two it writes has
    changed. *)
Theorem installFile_keeps_mode localDir homeDir tempDir data secretFn rel fs fs' r :
  installFile localDir homeDir tempDir data secretFn rel fs = (fs', r) ->
  Join tempDir rel <> Join homeDir rel ->
  (forall q c m, q <> Join tempDir rel -> q <> Join homeDir rel ->
     Stat fs q = Ok (File c m) -> Stat fs' q = Ok (File c m))
  /\ (r = None ->
      exists c tmpl out,
        ReadFile fs (Join localDir rel) = Ok c /\ Parse c = Ok tmpl
        /\ Execute secretFn tmpl data = Ok out
        /\ ReadFile fs' (Join homeDir rel) = Ok out
        /\ forall c0 m0, Stat fs (Join homeDir rel) = Ok (File c0 m0) ->
             Stat fs' (Join homeDir rel) = Ok (File out m0)).
Proof.
  unfold installFile, WriteFile. intros H Hne.
  destruct (ReifyFile (Join localDir rel) (Join tempDir rel) data secretFn fs)
    as [fs1 r1] eqn:HRf.
  destruct (ReifyFile_result _ _ _ _ _ _ _ HRf) as (Hframe & Hok & _).
  destruct r1 as [e1|]; [injection H as <- <-; split; [auto|discriminate]|].
  destruct (Hok eq_refl) as (c & tmpl & out & HR & HP & HE & HT). rewrite HT in H.
  destruct (createTrunc fs1 (Join homeDir rel) out _) as [fs2|e2] eqn:HW;
    injection H as <- <-; [|split; [auto|discriminate]].
  split.
  - intros q c0 m0 Hq1 Hq2 HS.
    eapply stat_createTrunc_other; [exact HW|now apply Hframe|exact Hq2].
  - intros _. exists c, tmpl, out. repeat split; auto.
    + eapply ReadFile_file. eapply stat_createTrunc_same. exact HW.
    + intros c0 m0 HS. assert (H1 : Stat fs1 (Join homeDir rel) = Ok (File c0 m0))
        by (apply Hframe; [congruence|exact HS]).
      pose proof (stat_createTrunc_same _ _ _ _ _ HW) as H2. now rewrite H1 in H2.
Qed.

End InstallFacts.

Lemma installFile_keeps_mode_witness :
  exists c tmpl out,
    ReadFile Examples.installTree ["local"; "t.conf"] = Ok c
    /\ Template.Parse c = Ok tmpl
    /\ Template.Execute Cmd.passThrough tmpl Examples.someContext = Ok out
    /\ ReadFile (fst (Cmd.installFile ["local"] ["home"] ["tmp"; "scadu-reify-1"]
                        Examples.someContext Cmd.passThrough ["t.conf"]
                        Examples.installTree))
                 ["home"; "t.conf"] = Ok out
    /\ forall c0 m0,
         Stat Examples.installTree ["home"; "t.conf"] = Ok (File c0 m0) ->
         Stat (fst (Cmd.installFile ["local"] ["home"] ["tmp"; "scadu-reify-1"]
                      Examples.someContext Cmd.passThrough ["t.conf"]
                      Examples.installTree))
              ["home"; "t.conf"] = Ok (File out m0).
Proof.
  eapply (installFile_keeps_mode ["local"] ["home"] ["tmp"; "scadu-reify-1"]
            Examples.someContext Cmd.passThrough ["t.conf"] Examples.installTree _ None).
  - vm_compute. reflexivity.
  - discriminate.
  - reflexivity.
Defined.

(** The installation of the example: the rendering lands under home with
    the mode the file there had. *)
Example install_example :
  Stat (fst (Cmd.installFile ["local"] ["home"] ["tmp"; "scadu-reify-1"]
               Examples.someContext Cmd.passThrough ["t.conf"] Examples.installTree))
       ["home"; "t.conf"]
  = Ok (File "v = workstation" mode0644).
Proof. vm_compute. reflexivity. Qed.

(** ** What the copy loop and the rendering into the temporary directory
       leave behind *)

Section InstallAllFacts.

Import Cmd Processor.

Variable Repo : Type.
Variable localDir : path.

(** X26. When the copy loop of an update ends without an error, over
    changes that name regular files of the working tree, each once, and
    whose destinations lie outside the working tree, every destination
    holds the content of its source under the mode of its source, the
    working tree is as it was, and no file other than the destinations has
    changed. *)
Theorem apply_installs_all homeDir n diffs (w w' : World Repo) :
  applyDiffs localDir homeDir diffs w = (w', Val tt) ->
  NoDup diffs ->
  (forall rel q, In rel diffs -> Join homeDir rel <> localDir ++ q) ->
  Stat (fs w) localDir = Ok n ->
  (forall rel, In rel diffs -> exists c m, Stat n rel = Ok (File c m)) ->
  Stat (fs w') localDir = Ok n
  /\ (forall rel, In rel diffs ->
        exists c m, Stat (fs w) (Join localDir rel) = Ok (File c m)
                    /\ Stat (fs w') (Join homeDir rel) = Ok (File c m))
  /\ (forall q c m, (forall rel, In rel diffs -> q <> Join homeDir rel) ->
        Stat (fs w) q = Ok (File c m) -> Stat (fs w') q = Ok (File c m)).
Proof.
  intros Hrun Hnd Hout HL Hsrc.
  destruct (applyDiffs_done Repo localDir homeDir n diffs w w' Hrun Hnd Hout HL Hsrc)
    as (HL' & Hdone & Hkeep).
  split; [exact HL'|]. split; [|exact Hkeep].
  intros rel Hin. destruct (Hdone rel Hin) as (c & m & Hrel & Hdst).
  exists c, m. split; [|exact Hdst]. unfold Join. now rewrite Stat_app, HL.
Qed.

Lemma ReifyFile_outside src dst data secretFn fs base n :
  (forall q, dst <> base ++ q) -> Stat fs base = Ok n ->
  Stat (fst (ReifyFile src dst data secretFn fs)) base = Ok n.
Proof.
  intros Hout HS. unfold ReifyFile, renderAndWrite, WriteFile.
  destruct (ReadFile fs src) as [content|]; [|exact HS].
  destruct (MkdirAll fs (Dir' dst)) as [fs1|] eqn:HM; [|exact HS].
  assert (H1 : Stat fs1 base = Ok n).
  { eapply Stat_MkdirAll_outside; [|exact HS|exact HM]. now apply Dir'_outside. }
  destruct (Template.Parse content) as [tmpl|]; [|exact H1].
  destruct (Template.Execute secretFn tmpl data) as [out|]; [|exact H1].
  destruct (createTrunc fs1 dst out _) as [fs2|] eqn:HW; [|exact H1].
  eapply Stat_createTrunc_outside; eauto.
Qed.

Variable tempDir : path.
Variable data : Template.fields.

Local Notation "'preserve'" :=
  (fun key : string => Ok ("{{ " ++ Template.Quote key ++ " | secret }}")%string).

Lemma reifyToTemp_forEachFile fs0 :
  reifyToTemp localDir tempDir data fs0
  = match Stat fs0 localDir with
    | Ok _ =>
        forEachFile (fun p fs1 =>
                       ReifyFile p (Join tempDir (match Rel localDir p with
                                                  | Ok rel => rel
                                                  | Fail _ => []
                                                  end)) data preserve fs1)
                    (filesUnder fs0 localDir) fs0
    | Fail err => (fs0, Some err)
    end.
Proof.
  unfold reifyToTemp. apply WalkDir_forEachFile; reflexivity.
Qed.

Lemma walkFiles_under :
  (forall n p name, walkFiles p name n = map (app p) (walkFiles [] name n))
  /\ (forall es p, walkFilesIn p es = map (app p) (walkFilesIn [] es)).
Proof.
  apply node_dirents_ind.
  - intros c m p name. simpl. now rewrite app_nil_r.
  - intros es IH p name. simpl. destruct (String.eqb name ".git"); [reflexivity|apply IH].
  - reflexivity.
  - intros x n IHn rest IHrest p. simpl.
    rewrite (IHn (p ++ [x])), (IHn [x]), IHrest, map_app, map_map.
    f_equal. apply map_ext. intros r. now rewrite <- app_assoc.
Qed.

Lemma filesUnder_rels fs0 root : filesUnder fs0 root = map (Join root) (relsUnder fs0 root).
Proof.
  unfold filesUnder, relsUnder. destruct (Stat fs0 root); [|reflexivity].
  apply (proj1 walkFiles_under).
Qed.

Lemma reifyEach_done n : forall rels fs0 fs',
  forEachFile (fun p fs1 =>
                 ReifyFile p (Join tempDir (match Rel localDir p with
                                            | Ok rel => rel
                                            | Fail _ => []
                                            end)) data preserve fs1)
              (map (Join localDir) rels) fs0 = (fs', None) ->
  NoDup rels ->
  (forall rel q, In rel rels -> Join tempDir rel <> localDir ++ q) ->
  Stat fs0 localDir = Ok n ->
  Stat fs' localDir = Ok n
  /\ (forall rel, In rel rels ->
        exists c tmpl out,
          ReadFile fs0 (Join localDir rel) = Ok c /\ Template.Parse c = Ok tmpl
          /\ Template.Execute preserve tmpl data = Ok out
          /\ ReadFile fs' (Join tempDir rel) = Ok out)
  /\ (forall q c m, (forall rel, In rel rels -> q <> Join tempDir rel) ->
        Stat fs0 q = Ok (File c m) -> Stat fs' q = Ok (File c m)).
Proof.
  induction rels as [|rel rest IH]; intros fs0 fs' Hrun Hnd Hout HL.
  - injection Hrun as <-. split; [exact HL|]. split; [intros rel []|auto].
  - cbn [map forEachFile] in Hrun. unfold Join in Hrun. rewrite Rel_under in Hrun.
    fold (Join localDir rel) (Join tempDir rel) in Hrun.
    destruct (ReifyFile (Join localDir rel) (Join tempDir rel) data preserve fs0)
      as [fs1 r] eqn:HRf.
    destruct r as [err|]; [discriminate|].
    destruct (ReifyFile_result _ _ _ _ _ _ _ HRf) as (Hframe & Hok & _).
    destruct (Hok eq_refl) as (c & tmpl & out & HR & HP & HE & HT).
    inversion Hnd as [|? ? Hnotin Hnd']; subst.
    assert (HL1 : Stat fs1 localDir = Ok n).
    { pose proof (ReifyFile_outside (Join localDir rel) (Join tempDir rel) data preserve
                    fs0 localDir n) as Ho.
      rewrite HRf in Ho. apply Ho; [|exact HL]. intros q. apply Hout. now left. }
    destruct (IH fs1 fs' Hrun Hnd') as (HL' & Hdone & Hkeep).
    { intros r q Hr. apply Hout. now right. }
    { exact HL1. }
    split; [exact HL'|]. split.
    + intros r [<-|Hr].
      * exists c, tmpl, out. repeat split; auto.
        destruct (ReadFile_inv _ _ _ HT) as [m Hm].
        eapply ReadFile_file. apply Hkeep; [|exact Hm].
        intros r Hr Heq. apply app_inv_head in Heq. now subst r.
      * destruct (Hdone r Hr) as (c' & tmpl' & out' & HR' & Hrest).
        exists c', tmpl', out'. split; [|exact Hrest].
        unfold ReadFile, Join in HR' |- *. now rewrite Stat_app, HL1 in HR'; rewrite Stat_app, HL.
    + intros q c0 m0 Hq HS. apply Hkeep; [intros r Hr; apply Hq; now right|].
      apply Hframe; [apply Hq; now left|exact HS].
Qed.

(** X27. The full check compares the fork against the rendering of main:
    in a tree of distinct names, with a temporary directory outside the
    working tree, when the walk that renders the working tree returns no
    error, the temporary directory holds, for each file of the working
    tree outside [.git], at the same relative path, the rendering of that
    file with the placeholders of secrets kept; the working tree is as it
    was. *)
Theorem reifyToTemp_renders_main fs0 fs' n :
  distinctNames fs0 = true ->
  Stat fs0 localDir = Ok n ->
  (forall rel q, In rel (relsUnder fs0 localDir) -> Join tempDir rel <> localDir ++ q) ->
  reifyToTemp localDir tempDir data fs0 = (fs', None) ->
  Stat fs' localDir = Ok n
  /\ forall rel, In rel (relsUnder fs0 localDir) ->
       exists c tmpl out,
         ReadFile fs0 (Join localDir rel) = Ok c /\ Template.Parse c = Ok tmpl
         /\ Template.Execute Cmd.passThrough tmpl data = Ok out
         /\ ReadFile fs' (Join tempDir rel) = Ok out.
Proof.
  intros Hd HL Hout Hrun.
  rewrite reifyToTemp_forEachFile, HL, filesUnder_rels in Hrun.
  destruct (reifyEach_done n _ _ _ Hrun) as (HL' & Hdone & _); auto.
  unfold relsUnder. rewrite HL. apply walkFiles_NoDup. eapply Stat_distinct; eauto.
Qed.

End InstallAllFacts.

Lemma apply_installs_all_witness :
  Stat (Cmd.fs (fst (Cmd.applyDiffs ["local"] ["home"] [["a"]]
                       (Examples.startIn Examples.blockedHome))))
       ["home"; "a"]
  = Ok (File "1" Examples.mode0600).
Proof.
  destruct (apply_installs_all unit ["local"] ["home"]
              (Examples.dir [("a", File "1" Examples.mode0600);
                             ("x", Examples.file "2"); ("z", Examples.file "3")])
              [["a"]] (Examples.startIn Examples.blockedHome)
              (fst (Cmd.applyDiffs ["local"] ["home"] [["a"]]
                      (Examples.startIn Examples.blockedHome))))
    as (_ & Hall & _).
  - reflexivity.
  - repeat constructor. intros [].
  - intros rel q _ H. discriminate H.
  - reflexivity.
  - intros rel [<-|[]]. eexists. eexists. reflexivity.
  - destruct (Hall ["a"] (or_introl eq_refl)) as (c & m & Hs & Hd).
    vm_compute in Hs. injection Hs as <- <-. exact Hd.
Defined.

Lemma reifyToTemp_renders_main_witness :
  exists c tmpl out,
    ReadFile Examples.installTree (Join ["local"] ["t.conf"]) = Ok c
    /\ Template.Parse c = Ok tmpl
    /\ Template.Execute Cmd.passThrough tmpl Examples.someContext = Ok out
    /\ ReadFile (fst (Cmd.reifyToTemp ["local"] ["tmp"; "scadu-reify-1"]
                        Examples.someContext Examples.installTree))
                (Join ["tmp"; "scadu-reify-1"] ["t.conf"]) = Ok out.
Proof.
  eapply (reifyToTemp_renders_main ["local"] ["tmp"; "scadu-reify-1"] Examples.someContext
            Examples.installTree).
  - reflexivity.
  - reflexivity.
  - intros rel q _ H. discriminate H.
  - vm_compute. reflexivity.
  - vm_compute. auto.
Defined.
